(** * googleapiwrapper.gmail_api: the thread fetch session

    A shallow embedding of [src/googleapiwrapper/gmail_api.py]: the progress
    tracker, the conversion context, the message/part parser and the
    paginated thread fetch loop of [GmailWrapper], followed by the properties
    the specification states about them.

    Python integers are unbounded, hence [Z]; a Python float is an IEEE 754
    binary64 number, hence [spec_float] with its rounding.  A value read with
    [GH.get_field] may be missing ([None]), hence [option].  Code that can
    raise returns a [Result]; code that mutates the module-global conversion
    context, the fetching context or talks to a remote service passes the
    state explicitly. *)

From Stdlib Require Import ZArith List String Bool Lia SpecFloat.
Import ListNotations.

Local Open Scope string_scope.
Local Open Scope list_scope.
Local Open Scope Z_scope.

Set Implicit Arguments.
Set Warnings "-register-all".

(** ** Python values *)

(** Truth value testing ([if x:], [not x]): [None], [0], the empty string,
    the empty list and the empty dict are false. *)
Class Truthy (A : Type) := truthy : A -> bool.

#[global] Instance truthy_str : Truthy string :=
  fun s => match s with EmptyString => false | String _ _ => true end.

#[global] Instance truthy_int : Truthy Z :=
  fun n => negb (n =? 0).

#[global] Instance truthy_list {A} : Truthy (list A) :=
  fun l => match l with [] => false | _ :: _ => true end.

#[global] Instance truthy_option {A} `{Truthy A} : Truthy (option A) :=
  fun o => match o with None => false | Some a => truthy a end.

(** The exceptions the modelled code can raise. *)
Inductive exn : Type :=
| TypeError       (* iterating over None, int(None) *)
| ValueError      (* int() of a string that is no integer literal,
                     a date whose year is outside 1..9999 *)
| IndexError      (* messages[0] on an empty list *)
| AttributeError  (* attribute access on None *)
| OverflowError   (* a quotient too large for a float, a second outside
                     the platform's time_t *)
| OSError.        (* the C library fails to convert a second *)

Inductive Result (A : Type) : Type :=
| OK (a : A)
| Raise (e : exn).

Arguments OK {A} a.
Arguments Raise {A} e.

Definition bind {A B} (c : Result A) (k : A -> Result B) : Result B :=
  match c with
  | OK a => k a
  | Raise e => Raise e
  end.

Declare Scope result_scope.
Delimit Scope result_scope with result.
Notation "x <- c ;; k" := (bind c (fun x => k))
  (at level 61, c at next level, right associativity) : result_scope.
Notation "' p <- c ;; k" := (bind c (fun x => match x with p => k end))
  (at level 61, p pattern, c at next level, right associativity) : result_scope.
Local Open Scope result_scope.

(** [[f(x) for x in l]] where [f] may raise: left to right, the first
    exception wins. *)
Fixpoint comprehension {A B} (f : A -> Result B) (l : list A) : Result (list B) :=
  match l with
  | [] => OK []
  | x :: l' => y <- f x ;; ys <- comprehension f l' ;; OK (y :: ys)
  end.

(** [for x in l: func(x)] over a world [W] that [func] acts on. *)
Fixpoint for_each {A W} (func : A -> W -> Result W) (l : list A) (w : W) : Result W :=
  match l with
  | [] => OK w
  | x :: l' => w' <- func x w ;; for_each func l' w'
  end.

(** ** Python floats

    [float] is binary64: [prec] bits of mantissa, infinities at exponent
    [emax].  A finite float [S754_finite s m e] is [m * 2^e], negated when
    [s] is set. *)
Definition float : Type := spec_float.

Definition prec : Z := 53.
Definition emax : Z := 1024.

(** [float(n)] of an integer the format holds exactly. *)
Definition float_of_int (n : Z) : float := binary_normalize prec emax n 0 false.

(** [a / b] on two integers with [b] positive: the float nearest to the
    exact quotient, ties to even, whatever the size of [a]; OverflowError
    when that is beyond the largest float. *)
Definition truediv (a : Z) (b : positive) : Result float :=
  let quotient (s : bool) (m : positive) :=
    match SFdiv prec emax (S754_finite s m 0) (S754_finite false b 0) with
    | S754_infinity _ | S754_nan => Raise OverflowError
    | x => OK x
    end in
  match a with
  | Z0 => OK (S754_zero false)
  | Zpos m => quotient false m
  | Zneg m => quotient true m
  end.

(** [math.modf(t)]: the fractional and the integer part of a float that is
    not an infinity or a NaN, both with the sign of [t] and both exact. *)
Definition modf (t : float) : float * Z :=
  match t with
  | S754_finite s m e =>
      let intpart := Z.shiftl (Zpos m) e in
      let rest := Zpos m - Z.shiftl intpart (- e) in
      (binary_normalize prec emax (cond_Zopp s rest) e s, cond_Zopp s intpart)
  | _ => (t, 0)
  end.

(** [round(x)] of a float that is not an infinity or a NaN: the nearest
    integer, ties to the even one. *)
Definition round (x : float) : Z :=
  match x with
  | S754_finite s m e =>
      let q := Z.shiftl (Zpos m) e in
      let r := 2 * (Zpos m - Z.shiftl q (- e)) in
      cond_Zopp s
        (if e >=? 0 then q
         else match r ?= Z.shiftl 1 (- e) with
              | Lt => q
              | Gt => q + 1
              | Eq => if Z.even q then q else q + 1
              end)
  | _ => 0
  end.

(** A float of seconds as whole seconds and microseconds, the first step
    of [datetime.fromtimestamp]: the fraction times a million is rounded to
    a float and then to an integer, ties to even, and a full million or a
    negative count is carried into the seconds.  ValueError for a NaN,
    OverflowError for an infinity. *)
Definition _PyTime_ObjectToTimeval (t : float) : Result (Z * Z) :=
  match t with
  | S754_nan => Raise ValueError
  | S754_infinity _ => Raise OverflowError
  | _ =>
      let '(floatpart, intpart) := modf t in
      let us := round (SFmul prec emax floatpart (float_of_int 1000000)) in
      if us >=? 1000000 then OK (intpart + 1, us - 1000000)
      else if us <? 0 then OK (intpart - 1, us + 1000000)
      else OK (intpart, us)
  end.

(** ** Raw API records (the JSON dictionaries of the Gmail API)

    A typed view of the dictionaries: a key read with [GH.get_field] is an
    [option] (absent key, silent default [None]); the nested objects the
    parser descends into ([payload], [body]) are taken as present. *)

Record RawHeader : Type := mkRawHeader {
  raw_name : option string;
  raw_value : option string
}.

Record RawBody : Type := mkRawBody {
  raw_data : option string;
  raw_size : option Z;
  raw_attachmentId : option string
}.

Inductive RawPart : Type := mkRawPart {
  raw_partId : option string;
  raw_mimeType : option string;
  raw_headers : option (list RawHeader);
  raw_body : RawBody;
  raw_parts : option (list RawPart)
}.

Record RawMessage : Type := mkRawMessage {
  raw_id : option string;
  raw_threadId : option string;
  raw_internalDate : option string;
  raw_snippet : option string;
  raw_payload : RawPart
}.

(** One entry of a list page. *)
Record ThreadSummary : Type := mkThreadSummary {
  summary_id : option string;
  summary_snippet : option string;
  summary_historyId : option string
}.

(** The response of [threads().list(...).execute()]: a dict. *)
Record ThreadsResponse : Type := mkThreadsResponse {
  resp_threads : option (list ThreadSummary);
  resp_nextPageToken : option string;
  resp_resultSizeEstimate : option Z
}.

(** A dict is true when it has a key. *)
#[global] Instance truthy_response : Truthy ThreadsResponse :=
  fun r => match resp_threads r, resp_nextPageToken r, resp_resultSizeEstimate r with
           | None, None, None => false
           | _, _, _ => true
           end.

(** The response of [threads().get(id=...).execute()]. *)
Record ThreadResponse : Type := mkThreadResponse {
  tr_id : option string;
  tr_messages : option (list RawMessage)
}.

(** A list request: [execute] yields its page; [next] is the request that
    [list_next] builds from the continuation token of that page. *)
Inductive Request : Type :=
| Req (response : ThreadsResponse) (next : option Request).

Definition execute (request : Request) : ThreadsResponse :=
  match request with Req response _ => response end.

(** [list_next(previous_request, previous_response)]: [None] when the
    response carries no continuation token. *)
Definition list_next (request : Request) (response : ThreadsResponse) : option Request :=
  if truthy (resp_nextPageToken response)
  then match request with Req _ next => next end
  else None.

(** The pages a request chain serves, in order, up to the first page
    without a continuation. *)
Fixpoint pages (request : Request) : list ThreadsResponse :=
  match request with
  | Req response next =>
      response :: if truthy (resp_nextPageToken response)
                  then match next with
                       | Some request' => pages request'
                       | None => []
                       end
                  else []
  end.

(** Modelled from the spec: GenericObjectHelper.get_field is missing; a
    lookup by field name that yields a silent default when the field is
    absent, like [dict.get(key, default)]. *)
Definition get_field_or {A} (field : option A) (default_val : A) : A :=
  match field with
  | Some v => v
  | None => default_val
  end.

(** ** Domain objects (googleapiwrapper.gmail_domain)

    The module is missing; its classes are declared from the data model of
    the spec and from their constructor calls in [gmail_api.py]. *)

(** Modelled from the spec: class Header, a name/value pair. *)
Record Header : Type := mkHeader {
  name : option string;
  value : option string
}.

(** Modelled from the spec: class MessagePartBody, optional inline data, a
    size and an optional attachment reference. *)
Record MessagePartBody : Type := mkMessagePartBody {
  data : option string;
  size : option Z;
  attachmentId : option string
}.

(** Modelled from the spec: class MessagePart, a tree of parts. *)
Inductive MessagePart : Type := mkMessagePart {
  part_id : option string;
  mimeType : option string;
  headers : list Header;
  body : MessagePartBody;
  parts : list MessagePart
}.

(** [time.struct_time], as far as the date is built from it. *)
Record struct_time : Type := mk_struct_time {
  tm_year : Z;
  tm_mon : Z;
  tm_mday : Z;
  tm_hour : Z;
  tm_min : Z;
  tm_sec : Z
}.

(** [datetime.datetime] without a time zone: a local date and time of day to
    the microsecond; [fold] is 1 on the second pass through a local hour
    that the clock repeats. *)
Record datetime : Type := mkdatetime {
  year : Z;
  month : Z;
  day : Z;
  hour : Z;
  minute : Z;
  second : Z;
  microsecond : Z;
  fold : Z
}.

(** Modelled from the spec: class Message; [msg_subject] is the attribute
    [subject] that the orchestrator reads from the first message. *)
Record Message : Type := mkMessage {
  msg_id : option string;
  msg_threadId : option string;
  msg_date : datetime;
  msg_snippet : option string;
  msg_payload : MessagePart;
  msg_subject : option string
}.

(** Modelled from the spec: class GmailMessageBodyPart is missing; the third
    component of a descriptor is the body record of the part. *)
Definition GmailMessageBodyPart : Type := MessagePartBody.

(** Modelled from the spec: class MessagePartDescriptor, a triple.  The
    context's current message and part are [None] until registered, and a
    descriptor stores them as they are. *)
Record MessagePartDescriptor : Type := mkMessagePartDescriptor {
  message : option Message;
  message_part : option MessagePart;
  gmail_msg_body_part : GmailMessageBodyPart
}.

(** Modelled from the spec: class Thread. *)
Record Thread : Type := mkThread {
  thread_id : option string;
  subject : option string;
  messages : list Message
}.

(** Modelled from the spec: class GmailThreads is missing; the output
    collection, to which [add] appends. *)
Definition GmailThreads : Type := list Thread.

Definition GmailThreads_new : GmailThreads := [].

Definition add (threads : GmailThreads) (thread_obj : Thread) : GmailThreads :=
  threads ++ [thread_obj].

(** Modelled from the spec: enum ApiItemType, the label of the items. *)
Inductive ApiItemType : Type := THREAD | MESSAGE.

(** ** class Progress *)

Record Progress : Type := mkProgress {
  requests_count : Z;
  all_items_count : Z;
  processed_items : Z;
  new_items_with_last_request : Z;
  item_type : ApiItemType;
  limit : option Z
}.

Definition Progress_new (item_type : ApiItemType) (limit : option Z) : Progress :=
  {| requests_count := 0;
     all_items_count := 0;
     processed_items := 0;
     new_items_with_last_request := -1;
     item_type := item_type;
     limit := limit |}.

Definition incr_requests (p : Progress) : Progress :=
  {| requests_count := requests_count p + 1;
     all_items_count := all_items_count p;
     processed_items := processed_items p;
     new_items_with_last_request := new_items_with_last_request p;
     item_type := item_type p;
     limit := limit p |}.

(** The status line that [print_status] asks for is the event
    [LogInfoReceived] of the session. *)
Definition register_new_items (number_of_new_items : Z) (p : Progress) : Progress :=
  {| requests_count := requests_count p;
     all_items_count := all_items_count p + number_of_new_items;
     processed_items := processed_items p;
     new_items_with_last_request := number_of_new_items;
     item_type := item_type p;
     limit := limit p |}.

Definition incr_processed_items (p : Progress) : Progress :=
  {| requests_count := requests_count p;
     all_items_count := all_items_count p;
     processed_items := processed_items p + 1;
     new_items_with_last_request := new_items_with_last_request p;
     item_type := item_type p;
     limit := limit p |}.

(** [if self.limit: return self.processed_items > self.limit] and [False]
    otherwise: a limit of [None] or [0] is never reached. *)
Definition is_limit_reached (p : Progress) : bool :=
  if truthy (limit p) then
    match limit p with
    | Some l => l <? processed_items p
    | None => false
    end
  else false.

(** ** class ApiConversionContext *)

Record ApiConversionContext : Type := mkApiConversionContext {
  progress : Progress;
  decode_errors : list MessagePartDescriptor;
  empty_bodies : list MessagePartDescriptor;
  current_message : option Message;
  current_message_part : option MessagePart
}.

Definition ApiConversionContext_new (item_type : ApiItemType) (limit : option Z)
  : ApiConversionContext :=
  {| progress := Progress_new item_type limit;
     decode_errors := [];
     empty_bodies := [];
     current_message := None;
     current_message_part := None |}.

Definition set_progress (p : Progress) (c : ApiConversionContext) : ApiConversionContext :=
  {| progress := p;
     decode_errors := decode_errors c;
     empty_bodies := empty_bodies c;
     current_message := current_message c;
     current_message_part := current_message_part c |}.

Definition register_current_message (m : Message) (c : ApiConversionContext)
  : ApiConversionContext :=
  {| progress := progress c;
     decode_errors := decode_errors c;
     empty_bodies := empty_bodies c;
     current_message := Some m;
     current_message_part := current_message_part c |}.

Definition register_current_message_part (mp : MessagePart) (c : ApiConversionContext)
  : ApiConversionContext :=
  {| progress := progress c;
     decode_errors := decode_errors c;
     empty_bodies := empty_bodies c;
     current_message := current_message c;
     current_message_part := Some mp |}.

Definition report_decode_error (b : GmailMessageBodyPart) (c : ApiConversionContext)
  : ApiConversionContext :=
  {| progress := progress c;
     decode_errors :=
       decode_errors c
         ++ [mkMessagePartDescriptor (current_message c) (current_message_part c) b];
     empty_bodies := empty_bodies c;
     current_message := current_message c;
     current_message_part := current_message_part c |}.

Definition report_empty_body (b : GmailMessageBodyPart) (c : ApiConversionContext)
  : ApiConversionContext :=
  {| progress := progress c;
     decode_errors := decode_errors c;
     empty_bodies :=
       empty_bodies c
         ++ [mkMessagePartDescriptor (current_message c) (current_message_part c) b];
     current_message := current_message c;
     current_message_part := current_message_part c |}.

Definition handle_encoding_errors (c : ApiConversionContext) : ApiConversionContext :=
  {| progress := progress c;
     decode_errors := [];
     empty_bodies := empty_bodies c;
     current_message := current_message c;
     current_message_part := current_message_part c |}.

(** [func] acts on the world [W] outside the context; an exception of
    [func] leaves the loop and the buffer is not cleared. *)
Definition handle_empty_bodies {W} (func : MessagePartDescriptor -> W -> Result W)
    (c : ApiConversionContext) (w : W) : Result (ApiConversionContext * W) :=
  w' <- for_each func (empty_bodies c) w ;;
  OK ({| progress := progress c;
         decode_errors := decode_errors c;
         empty_bodies := [];
         current_message := current_message c;
         current_message_part := current_message_part c |}, w').

(** ** Collaborators of gmail_api.py *)

(** Python's [int] on a string, the local time of the platform, and what
    gmail_domain decides when a Message is built: whether inline data
    decodes and what the subject is. *)
Class Builtins : Type := {
  (* int(s): None where Python raises ValueError *)
  py_int : string -> option Z;
  (* time.localtime(t) of a whole second after the epoch in the time zone
     of the process: OverflowError or OSError where the platform cannot
     convert it *)
  localtime : Z -> Result struct_time;
  (* whether the inline data of a body can be decoded *)
  decodable : string -> bool;
  (* the subject attribute a Message computes from its payload *)
  subject_of : MessagePart -> option string
}.

(** Keyword arguments of a list request. *)
Record ListKwargs : Type := mkListKwargs {
  userId : string;
  q : option string;
  maxResults : option Z
}.

(** The remote mail service: [threads().list] with its keyword arguments and
    [threads().get(userId=..., id=...).execute()]. *)
Class GmailService : Type := {
  threads_list : ListKwargs -> Request;
  threads_get : string -> option string -> ThreadResponse
}.

(** The fetching context backed by a caching strategy
    (gmail_api_extensions.ApiFetchingContext), with its state [O]. *)
Class ApiFetchingContext (O : Type) : Type := {
  get_thread_ids_to_query_from_api :
    O -> list (option string) -> bool -> list (option string) * O;
  process_thread : O -> ThreadResponse -> Thread -> O
}.

(** What a session does to the outside world, in order: the requests it
    executes and the lines it logs. *)
Inductive Event : Type :=
| ThreadsListExecute (response : ThreadsResponse)
| ThreadsGet (user : string) (id : option string)
| AttachmentsGet (user : string) (messageId id : option string)
| LogInfoReceived (requests_count new_items : Z)
| LogDebugIdsToQuery (thread_ids_to_query : list (option string))
| LogDebugProcessing (processed_items all_items_count : Z)
| LogWarning (limit : option Z)
| LogError (descriptor : MessagePartDescriptor).

(** The mutable state of a session: the module-global CONVERSION_CONTEXT,
    the wrapper's fetching context and the outside world. *)
Record State (O : Type) : Type := mkState {
  ctx : ApiConversionContext;
  api_fetching_ctx : O;
  trace : list Event
}.

Arguments mkState {O} ctx api_fetching_ctx trace.

(** Which [return] of [query_threads_with_paging] was taken. *)
Inductive Exit : Type :=
| LimitReached   (* return threads, inside the for loop *)
| Exhausted.     (* return threads, after the while loop *)

Inductive LoopResult (O : Type) : Type :=
| Return (threads : GmailThreads) (s : State O)
| Continue (threads : GmailThreads) (s : State O).

Arguments Return {O} threads s.
Arguments Continue {O} threads s.

(** ** class GmailWrapper: the parser *)

Definition USERID_ME : string := "me".
Definition DEFAULT_PAGE_SIZE : Z := 100.

Definition _get_new_kwargs : ListKwargs :=
  {| userId := USERID_ME; q := None; maxResults := None |}.

Definition _parse_headers (message_part : RawPart) : Result (list Header) :=
  match raw_headers message_part with
  | None => Raise TypeError
  | Some headers_list =>
      OK (map (fun header_dict => mkHeader (raw_name header_dict) (raw_value header_dict))
              headers_list)
  end.

Definition _parse_message_part_body_obj (messagepart_body : RawBody) : MessagePartBody :=
  mkMessagePartBody (raw_data messagepart_body)
                    (raw_size messagepart_body)
                    (raw_attachmentId messagepart_body).

Fixpoint parse_message_part (message_part : RawPart) (message_id : option string)
  : Result MessagePart :=
  match message_part with
  | mkRawPart partId mime _ raw_b message_parts =>
      headers <- _parse_headers message_part ;;
      children <-
        match message_parts with
        | None => OK []
        | Some l =>
            (fix each (l : list RawPart) : Result (list MessagePart) :=
               match l with
               | [] => OK []
               | part :: l' =>
                   p <- parse_message_part part message_id ;;
                   ps <- each l' ;;
                   OK (p :: ps)
               end) l
        end ;;
      OK (mkMessagePart partId mime headers (_parse_message_part_body_obj raw_b) children)
  end.

(** The parts of a tree, parents before children, siblings in order. *)
Fixpoint all_parts (mp : MessagePart) : list MessagePart :=
  match mp with
  | mkMessagePart _ _ _ _ ps => mp :: flat_map all_parts ps
  end.

Definition has_no_content (b : MessagePartBody) : bool :=
  match data b, attachmentId b with
  | None, None => true
  | _, _ => false
  end.

Section Parser.
Context {B : Builtins}.

Definition undecodable (b : MessagePartBody) : bool :=
  match data b with
  | Some d => negb (decodable d)
  | None => false
  end.

(** Modelled from the spec: what gmail_domain does with a part when a
    Message is built is missing.  The part becomes the current part; a
    body with neither inline data nor an attachment reference is reported
    as an empty body, inline data that cannot be decoded as a decode
    error, both against the current message and part. *)
Definition inspect_part (mp : MessagePart) (c : ApiConversionContext)
  : ApiConversionContext :=
  let c := register_current_message_part mp c in
  if has_no_content (body mp) then report_empty_body (body mp) c
  else if undecodable (body mp) then report_decode_error (body mp) c
  else c.

(** Modelled from the spec: the constructor of Message is missing.  The
    new message becomes the current message of the conversion context and
    its parts are inspected in order; anomalies are accumulated, never
    raised. *)
Definition Message_new (id threadId : option string) (date : datetime)
    (snippet : option string) (payload : MessagePart) (c : ApiConversionContext)
  : Message * ApiConversionContext :=
  let m := mkMessage id threadId date snippet payload (subject_of payload) in
  (m, fold_left (fun c mp => inspect_part mp c) (all_parts payload)
                (register_current_message m c)).

(** The days before the first of January of [year], and before the first
    of [month] in [year], counted from the first of January of year 1. *)
Definition is_leap (year : Z) : bool :=
  (year mod 4 =? 0) && (negb (year mod 100 =? 0) || (year mod 400 =? 0)).

Definition days_before_year (year : Z) : Z :=
  let y := year - 1 in
  y * 365 + y / 4 - y / 100 + y / 400.

Definition days_before_month (year month : Z) : Z :=
  nth (Z.to_nat month) [0; 0; 31; 59; 90; 120; 151; 181; 212; 243; 273; 304; 334] 0
  + (if (2 <? month) && is_leap year then 1 else 0).

Definition ymd_to_ord (year month day : Z) : Z :=
  days_before_year year + days_before_month year month + day.

Definition MINYEAR : Z := 1.
Definition MAXYEAR : Z := 9999.

(** The seconds from the start of year 1 to a date and time of day;
    ValueError for a year that a datetime cannot hold. *)
Definition utc_to_seconds (year month day hour minute second : Z) : Result Z :=
  if (year <? MINYEAR) || (MAXYEAR <? year) then Raise ValueError
  else OK (((ymd_to_ord year month day * 24 + hour) * 60 + minute) * 60 + second).

(** The local date and time of the second [t] after the epoch, in seconds
    from the start of year 1. *)
Definition local (t : Z) : Result Z :=
  tm <- localtime t ;;
  utc_to_seconds (tm_year tm) (tm_mon tm) (tm_mday tm)
                 (tm_hour tm) (tm_min tm) (tm_sec tm).

Definition max_fold_seconds : Z := 24 * 3600.

(** The local date and time of the second [timet] after the epoch, with
    [us] microseconds.  A leap second is clamped to 59; ValueError for a
    year outside 1..9999.  The local time a day earlier is probed to find
    out whether the clock was set back in between, and if so whether
    [timet] lies in the repeated hour. *)
Definition datetime_from_timet_and_us (timet us : Z) : Result datetime :=
  tm <- localtime timet ;;
  let ss := Z.min 59 (tm_sec tm) in
  result_seconds <-
    utc_to_seconds (tm_year tm) (tm_mon tm) (tm_mday tm)
                   (tm_hour tm) (tm_min tm) ss ;;
  probe_seconds <- local (timet - max_fold_seconds) ;;
  let transition := result_seconds - probe_seconds - max_fold_seconds in
  fold <-
    (if transition <? 0 then
       probe_seconds <- local (timet + transition) ;;
       OK (if probe_seconds =? result_seconds then 1 else 0)
     else OK 0) ;;
  OK (mkdatetime (tm_year tm) (tm_mon tm) (tm_mday tm)
                 (tm_hour tm) (tm_min tm) ss us fold).

(** [datetime.datetime.fromtimestamp(t)] of a float, without a time zone. *)
Definition fromtimestamp (t : float) : Result datetime :=
  ' (timet, us) <- _PyTime_ObjectToTimeval t ;;
  datetime_from_timet_and_us timet us.

(** [int(x)] of a field: TypeError on None, ValueError on a string that
    is no integer. *)
Definition int (x : option string) : Result Z :=
  match x with
  | None => Raise TypeError
  | Some s =>
      match py_int s with
      | Some n => OK n
      | None => Raise ValueError
      end
  end.

Definition parse_api_message (message : RawMessage) (c : ApiConversionContext)
  : Result (Message * ApiConversionContext) :=
  let message_part := raw_payload message in
  let message_id := raw_id message in
  message_part_obj <- parse_message_part message_part message_id ;;
  millis <- int (raw_internalDate message) ;;
  seconds <- truediv millis 1000 ;;
  date <- fromtimestamp seconds ;;
  OK (Message_new message_id
                  (raw_threadId message)
                  date
                  (raw_snippet message)
                  message_part_obj
                  c).

(** [[self.parse_api_message(message) for message in messages_response]] *)
Fixpoint parse_api_messages (messages_response : list RawMessage)
    (c : ApiConversionContext) : Result (list Message * ApiConversionContext) :=
  match messages_response with
  | [] => OK ([], c)
  | message :: rest =>
      '(m, c1) <- parse_api_message message c ;;
      '(ms, c2) <- parse_api_messages rest c1 ;;
      OK (m :: ms, c2)
  end.

End Parser.

(** ** class GmailWrapper: the fetch session *)

Definition _query_attachment_of_descriptor (descriptor : MessagePartDescriptor)
    (tr : list Event) : Result (list Event) :=
  match message descriptor with
  | None => Raise AttributeError
  | Some msg =>
      let message_id := msg_id msg in
      match message_part descriptor with
      | None => Raise AttributeError
      | Some mp =>
          let attachment_id := attachmentId (body mp) in
          if negb (truthy message_id) || negb (truthy attachment_id)
          then OK (tr ++ [LogError descriptor])
          else OK (tr ++ [AttachmentsGet USERID_ME message_id attachment_id])
      end
  end.

Definition _sanity_check (thread : Thread) : unit := tt.

Section Session.
Context {B : Builtins} {G : GmailService} {O : Type} {F : ApiFetchingContext O}.

Definition _query_thread_data (thread_id : option string) (tr : list Event)
  : ThreadResponse * list Event :=
  (threads_get USERID_ME thread_id, tr ++ [ThreadsGet USERID_ME thread_id]).

(** Lines 154-163: fetch one thread, parse it, assemble the Thread. *)
Definition fetch_thread (sanity_check : bool) (thread_id : option string)
    (threads : GmailThreads) (s : State O) : Result (GmailThreads * State O) :=
  let '(thread_response, tr) := _query_thread_data thread_id (trace s) in
  match tr_messages thread_response with
  | None => Raise TypeError
  | Some messages_response =>
      '(messages, c) <- parse_api_messages messages_response (ctx s) ;;
      '(c, tr) <- handle_empty_bodies _query_attachment_of_descriptor c tr ;;
      match messages with
      | [] => Raise IndexError
      | first :: _ =>
          let thread_obj := mkThread thread_id (msg_subject first) messages in
          let threads := add threads thread_obj in
          let _ := if sanity_check then _sanity_check thread_obj else tt in
          OK (threads,
              mkState c (process_thread (api_fetching_ctx s) thread_response thread_obj) tr)
      end
  end.

Definition with_progress (f : Progress -> Progress) (s : State O) : State O :=
  mkState (set_progress (f (progress (ctx s))) (ctx s)) (api_fetching_ctx s) (trace s).

Definition log (e : Event) (s : State O) : State O :=
  mkState (ctx s) (api_fetching_ctx s) (trace s ++ [e]).

(** Lines 147-163: the loop over the ids to query, which may return. *)
Fixpoint for_thread_ids (sanity_check : bool) (thread_ids_to_query : list (option string))
    (threads : GmailThreads) (s : State O) : Result (LoopResult O) :=
  match thread_ids_to_query with
  | [] => OK (Continue threads s)
  | thread_id :: rest =>
      let s := with_progress incr_processed_items s in
      if is_limit_reached (progress (ctx s)) then
        OK (Return threads (log (LogWarning (limit (progress (ctx s)))) s))
      else
        let s := log (LogDebugProcessing (processed_items (progress (ctx s)))
                                         (all_items_count (progress (ctx s)))) s in
        '(threads, s) <- fetch_thread sanity_check thread_id threads s ;;
        for_thread_ids sanity_check rest threads s
  end.

(** Lines 135-145: count the request and its items, ask the fetching
    context which of the ids of the page to query. *)
Definition register_response (expect_one_message_per_thread : bool)
    (response : ThreadsResponse) (s : State O) : list (option string) * State O :=
  let s := with_progress incr_requests s in
  let list_of_threads := get_field_or (resp_threads response) [] in
  let s := with_progress (register_new_items (Z.of_nat (List.length list_of_threads))) s in
  let s := log (LogInfoReceived (requests_count (progress (ctx s)))
                                (new_items_with_last_request (progress (ctx s)))) s in
  let thread_ids := map summary_id list_of_threads in
  let '(thread_ids_to_query, o) :=
    get_thread_ids_to_query_from_api (api_fetching_ctx s) thread_ids
                                     expect_one_message_per_thread in
  (thread_ids_to_query,
   log (LogDebugIdsToQuery thread_ids_to_query) (mkState (ctx s) o (trace s))).

(** Lines 135-163: one non-empty response. *)
Definition process_response (sanity_check expect_one_message_per_thread : bool)
    (response : ThreadsResponse) (threads : GmailThreads) (s : State O)
  : Result (LoopResult O) :=
  let '(thread_ids_to_query, s) :=
    register_response expect_one_message_per_thread response s in
  for_thread_ids sanity_check thread_ids_to_query threads s.

(** Lines 132-168: [while request is not None], then the final drain of
    the decode errors.  The recursion is on the request chain, so the test
    of [list_next] for a continuation token is written out;
    [while_request_eq] below states the loop with [list_next]. *)
Fixpoint while_request (sanity_check expect_one_message_per_thread : bool)
    (request : Request) (threads : GmailThreads) (s : State O) {struct request}
  : Result (Exit * GmailThreads * State O) :=
  match request with
  | Req response next =>
      let s := log (ThreadsListExecute response) s in
      r <- (if truthy response
            then process_response sanity_check expect_one_message_per_thread
                                  response threads s
            else OK (Continue threads s)) ;;
      match r with
      | Return threads s => OK (LimitReached, threads, s)
      | Continue threads s =>
          let finish :=
            OK (Exhausted, threads,
                mkState (handle_encoding_errors (ctx s)) (api_fetching_ctx s) (trace s)) in
          match next with
          | Some request' =>
              if truthy (resp_nextPageToken response)
              then while_request sanity_check expect_one_message_per_thread
                                 request' threads s
              else finish
          | None => finish
          end
      end
  end.

Definition list_kwargs (query : option string) (limit : option Z) : ListKwargs :=
  let kwargs := _get_new_kwargs in
  let kwargs :=
    if truthy query
    then mkListKwargs (userId kwargs) query (maxResults kwargs)
    else kwargs in
  if truthy limit && match limit with Some l => l <? DEFAULT_PAGE_SIZE | None => false end
  then mkListKwargs (userId kwargs) (q kwargs) limit
  else kwargs.

(** The session starts from a fresh conversion context; [o] is the state
    of the fetching context when it starts. *)
Definition query_threads_with_paging (query : option string) (limit : option Z)
    (sanity_check expect_one_message_per_thread : bool) (o : O)
  : Result (Exit * GmailThreads * State O) :=
  let c := ApiConversionContext_new THREAD limit in
  let request := threads_list (list_kwargs query limit) in
  while_request sanity_check expect_one_message_per_thread request GmailThreads_new
                (mkState c o []).

End Session.

(** ** Notions the properties are stated with *)

(** A rounding record [r] holds the quotient N/D: its mantissa is the
    integer part, its round bit tells whether the rest reaches one half
    and its sticky bit whether the rest is neither zero nor one half. *)
Definition holds_quotient (N D : Z) (r : shr_record) : Prop :=
  shr_m r = N / D /\
  shr_r r = (D <=? 2 * (N mod D)) /\
  shr_s r = negb (N mod D =? 0) && negb (2 * (N mod D) =? D).

(** A raw part is well formed when it and every part below it carry a
    header list (the parser iterates over it). *)
Fixpoint wf_part (r : RawPart) : bool :=
  match r with
  | mkRawPart _ _ hs _ ps =>
      match hs with Some _ => true | None => false end
      && match ps with
         | Some l => forallb wf_part l
         | None => true
         end
  end.

(** The date of a raw message: its internal date read as an integer of
    milliseconds, divided by 1000 as a float, as a local date and time. *)
Definition message_date {B : Builtins} (m : RawMessage) : Result datetime :=
  millis <- int (raw_internalDate m) ;;
  seconds <- truediv millis 1000 ;;
  fromtimestamp seconds.

(** A raw message is well formed when its payload is, and its internal date
    is an integer literal of milliseconds that the platform turns into a
    date. *)
Definition wf_message {B : Builtins} (m : RawMessage) : bool :=
  wf_part (raw_payload m)
  && match message_date m with
     | OK _ => true
     | Raise _ => false
     end.

(** Thread detail whose messages all parse. *)
Definition parsable_thread_response {B : Builtins} (t : ThreadResponse) : bool :=
  match tr_messages t with
  | Some ms => forallb wf_message ms
  | None => false
  end.

(** Thread detail with at least one message, all of which parse. *)
Definition wf_thread_response {B : Builtins} (t : ThreadResponse) : bool :=
  parsable_thread_response t
  && match tr_messages t with
     | Some (_ :: _) => true
     | _ => false
     end.

(** The shape of a tree of parts: its nodes without their fields. *)
Inductive Shape : Type :=
| Node (children : list Shape).

Fixpoint depth (t : Shape) : nat :=
  match t with
  | Node l => S (fold_right Nat.max 0%nat (map depth l))
  end.

(** The largest number of children of a node. *)
Fixpoint branching (t : Shape) : nat :=
  match t with
  | Node l => Nat.max (List.length l) (fold_right Nat.max 0%nat (map branching l))
  end.

Fixpoint raw_shape (r : RawPart) : Shape :=
  match r with
  | mkRawPart _ _ _ _ ps =>
      Node match ps with
           | Some l => map raw_shape l
           | None => []
           end
  end.

Fixpoint part_shape (p : MessagePart) : Shape :=
  match p with
  | mkMessagePart _ _ _ _ ps => Node (map part_shape ps)
  end.

(** Re-serialization of a parsed tree into a raw record, field by field. *)
Definition serialize_header (h : Header) : RawHeader :=
  mkRawHeader (name h) (value h).

Definition serialize_body (b : MessagePartBody) : RawBody :=
  mkRawBody (data b) (size b) (attachmentId b).

Fixpoint serialize (p : MessagePart) : RawPart :=
  match p with
  | mkMessagePart pid mime hs b ps =>
      mkRawPart pid mime (Some (map serialize_header hs)) (serialize_body b)
                (Some (map serialize ps))
  end.

(** A raw record with the default of its [parts] field written out: an
    absent list of parts reads as the empty list. *)
Fixpoint normalize (r : RawPart) : RawPart :=
  match r with
  | mkRawPart pid mime hs b ps =>
      mkRawPart pid mime hs b
                (Some match ps with
                      | Some l => map normalize l
                      | None => []
                      end)
  end.

(** Two raw records are field-equal when every field reads the same. *)
Definition field_equal (r1 r2 : RawPart) : Prop :=
  normalize r1 = normalize r2.

(** The records of a raw tree, parents before children. *)
Fixpoint raw_all_parts (r : RawPart) : list RawPart :=
  match r with
  | mkRawPart _ _ _ _ ps =>
      r :: match ps with
           | Some l => flat_map raw_all_parts l
           | None => []
           end
  end.

(** A raw body with neither inline data nor an attachment reference. *)
Definition raw_has_no_content (b : RawBody) : bool :=
  match raw_data b, raw_attachmentId b with
  | None, None => true
  | _, _ => false
  end.

(** The descriptor of an anomaly at part [mp] of message [m]. *)
Definition descriptor_of (m : Message) (mp : MessagePart) : MessagePartDescriptor :=
  mkMessagePartDescriptor (Some m) (Some mp) (body mp).

Definition empty_body_descriptors (m : Message) : list MessagePartDescriptor :=
  map (descriptor_of m)
      (filter (fun mp => has_no_content (body mp)) (all_parts (msg_payload m))).

Definition decode_error_descriptors {B : Builtins} (m : Message)
  : list MessagePartDescriptor :=
  map (descriptor_of m)
      (filter (fun mp => undecodable (body mp)) (all_parts (msg_payload m))).

(** A descriptor that names its message and its part. *)
Definition has_owner (d : MessagePartDescriptor) : Prop :=
  message d <> None /\ message_part d <> None.

(** An identifier that is missing or empty. *)
Definition missing_or_empty (x : option string) : Prop :=
  x = None \/ x = Some "".

(** A handler that also writes down the descriptors it is called with. *)
Definition recording {W} (func : MessagePartDescriptor -> W -> Result W)
    (d : MessagePartDescriptor) (w : W * list MessagePartDescriptor)
  : Result (W * list MessagePartDescriptor) :=
  w' <- func d (fst w) ;; OK (w', snd w ++ [d]).

(** The ids of a list page. *)
Definition page_ids (response : ThreadsResponse) : list (option string) :=
  map summary_id (get_field_or (resp_threads response) []).

(** Read from a trace: the list pages received, the ids the fetching
    context asked for, the threads fetched, the attachment requests. *)
Definition listed (tr : list Event) : list ThreadsResponse :=
  flat_map (fun e => match e with ThreadsListExecute r => [r] | _ => [] end) tr.

Definition candidates (tr : list Event) : list (option string) :=
  flat_map (fun e => match e with LogDebugIdsToQuery ids => ids | _ => [] end) tr.

Definition fetched (tr : list Event) : list (option string) :=
  flat_map (fun e => match e with ThreadsGet _ id => [id] | _ => [] end) tr.

Definition attachment_requests (tr : list Event) : list (option string * option string) :=
  flat_map (fun e => match e with AttachmentsGet _ m a => [(m, a)] | _ => [] end) tr.

Definition warnings (tr : list Event) : list (option Z) :=
  flat_map (fun e => match e with LogWarning l => [l] | _ => [] end) tr.

(** A fetching context that asks for every candidate it is given. *)
Definition accepts_all {O} {F : ApiFetchingContext O} : Prop :=
  forall o ids b, fst (get_thread_ids_to_query_from_api o ids b) = ids.

(** A limit that [n] processed items do not reach. *)
Definition never_reached (limit : option Z) (n : nat) : Prop :=
  match limit with
  | None => True
  | Some l => l = 0 \/ Z.of_nat n <= l
  end.

(** What parsing preserves of a raw part. *)
Definition parsed_as (r : RawPart) (p : MessagePart) : Prop :=
  serialize p = normalize r /\
  part_shape p = raw_shape r /\
  map body (all_parts p)
  = map (fun x => _parse_message_part_body_obj (raw_body x)) (raw_all_parts r).

(** The decode errors of the messages of a thread. *)
Definition thread_decode_errors {B : Builtins} (t : Thread) : list MessagePartDescriptor :=
  flat_map decode_error_descriptors (messages t).

(** How many of [len] ids the for loop processes when [n] items were
    processed before it: all of them without a limit or with limit 0,
    otherwise as many as keep the count within the limit. *)
Definition allowance (l : option Z) (n : Z) (len : nat) : nat :=
  match l with
  | Some L => if L =? 0 then len else Nat.min len (Z.to_nat (L - n))
  | None => len
  end.

(** The state of a session that has assembled [threads] and is about to
    process the ids [rest] of the current page. *)
Record Running {B : Builtins} {O : Type} (l : option Z) (rest : list (option string))
    (threads : GmailThreads) (s : State O) : Prop := {
  run_limit : limit (progress (ctx s)) = l;
  run_processed : processed_items (progress (ctx s)) = Z.of_nat (List.length threads);
  run_not_reached : threads = [] \/ never_reached l (List.length threads);
  run_decode_errors : decode_errors (ctx s) = flat_map thread_decode_errors threads;
  run_empty_bodies : empty_bodies (ctx s) = [];
  run_fetched : fetched (trace s) = map thread_id threads;
  run_candidates : candidates (trace s) = map thread_id threads ++ rest;
  run_warnings : warnings (trace s) = [];
  run_requests :
    requests_count (progress (ctx s))
    = Z.of_nat (List.length (filter truthy (listed (trace s))));
  run_items :
    all_items_count (progress (ctx s))
    = Z.of_nat (List.length (flat_map page_ids (listed (trace s))))
}.

(** The state in which the for loop returns: the candidate that was
    counted last, the first of [rest], was not fetched. *)
Record Stopped {B : Builtins} {O : Type} (l : option Z) (rest : list (option string))
    (threads : GmailThreads) (s : State O) : Prop := {
  stop_limit : limit (progress (ctx s)) = l;
  stop_processed : processed_items (progress (ctx s)) = Z.of_nat (List.length threads) + 1;
  stop_reached : is_limit_reached (progress (ctx s)) = true;
  stop_not_before : threads = [] \/ never_reached l (List.length threads);
  stop_decode_errors : decode_errors (ctx s) = flat_map thread_decode_errors threads;
  stop_empty_bodies : empty_bodies (ctx s) = [];
  stop_fetched : fetched (trace s) = map thread_id threads;
  stop_candidates : candidates (trace s) = map thread_id threads ++ rest;
  stop_rest : rest <> [];
  stop_warnings : warnings (trace s) = [l]
}.

(** The state after the final drain of the decode errors. *)
Definition finalized {O : Type} (s : State O) : State O :=
  mkState (handle_encoding_errors (ctx s)) (api_fetching_ctx s) (trace s).

(** A thread id whose detail holds at least one message and parses. *)
Definition fetchable {B : Builtins} {G : GmailService} (id : option string) : Prop :=
  wf_thread_response (threads_get USERID_ME id) = true.

(** ** A concrete service, for running the model *)

Module Scenario.

Definition digit (a : Ascii.ascii) : option Z :=
  let n := Z.of_nat (Ascii.nat_of_ascii a) in
  if (48 <=? n) && (n <=? 57) then Some (n - 48) else None.

Fixpoint digits (s : string) (acc : Z) : option Z :=
  match s with
  | EmptyString => Some acc
  | String a s' =>
      match digit a with
      | Some d => digits s' (10 * acc + d)
      | None => None
      end
  end.

(** Unsigned decimal literals. *)
Definition decimal (s : string) : option Z :=
  match s with
  | EmptyString => None
  | String _ _ => digits s 0
  end.

(** The value of the first header called Subject. *)
Definition subject_header (mp : MessagePart) : option string :=
  match find (fun h => match name h with
                       | Some n => String.eqb n "Subject"
                       | None => false
                       end) (headers mp) with
  | Some h => value h
  | None => None
  end.

(** The date and time of day in UTC of a second after the epoch, by the
    proleptic Gregorian calendar. *)
Definition gmtime (t : Z) : struct_time :=
  let z := t / 86400 + 719468 in
  let era := z / 146097 in
  let doe := z mod 146097 in
  let yoe := (doe - doe / 1460 + doe / 36524 - doe / 146096) / 365 in
  let doy := doe - (365 * yoe + yoe / 4 - yoe / 100) in
  let mp := (5 * doy + 2) / 153 in
  let d := doy - (153 * mp + 2) / 5 + 1 in
  let m := if mp <? 10 then mp + 3 else mp - 9 in
  let y := yoe + era * 400 + (if m <=? 2 then 1 else 0) in
  let rem := t mod 86400 in
  mk_struct_time y m d (rem / 3600) (rem mod 3600 / 60) (rem mod 60).

(** A platform whose time zone is UTC: a second beyond 64 bits is out of
    range for [time_t], and the C library fails on a year that, counted
    from 1900, does not fit 32 bits. *)
Definition utc_localtime (t : Z) : Result struct_time :=
  if (t <? - 2 ^ 63) || (2 ^ 63 <? t) then Raise OverflowError
  else
    let tm := gmtime t in
    if (tm_year tm - 1900 <? - 2 ^ 31) || (2 ^ 31 <=? tm_year tm - 1900)
    then Raise OSError
    else OK tm.

#[local] Instance builtins : Builtins :=
  {| py_int := decimal;
     localtime := utc_localtime;
     decodable := fun d => negb (String.eqb d "%%%");
     subject_of := subject_header |}.

Definition text_body (d : string) : RawBody :=
  mkRawBody (Some d) (Some (Z.of_nat (String.length d))) None.

Definition no_body : RawBody := mkRawBody None (Some 0) None.

Definition attachment_body (a : string) : RawBody :=
  mkRawBody None (Some 7) (Some a).

Definition leaf (pid : string) (b : RawBody) : RawPart :=
  mkRawPart (Some pid) (Some "text/plain")
            (Some [mkRawHeader (Some "Content-Type") (Some "text/plain")]) b None.

(** A multipart message: a container without content, a text part, a part
    whose data does not decode and an attachment. *)
Definition payload_of (subj : string) : RawPart :=
  mkRawPart (Some "") (Some "multipart/mixed")
            (Some [mkRawHeader (Some "Subject") (Some subj);
                   mkRawHeader (Some "From") (Some "a@example.org")])
            no_body
            (Some [leaf "0" (text_body "aGVsbG8=");
                   leaf "1" (text_body "%%%");
                   leaf "2" (attachment_body "att-1")]).

Definition raw_message (mid tid : string) : RawMessage :=
  mkRawMessage (Some mid) (Some tid) (Some "1610000000123") (Some "hello")
               (payload_of ("Re: " ++ tid)).

(** A message of one text part with the given internal date. *)
Definition dated_message (date : string) : RawMessage :=
  mkRawMessage (Some "m1") (Some "t1") (Some date) (Some "hello")
               (leaf "0" (text_body "aGVsbG8=")).

Definition summary (tid : string) : ThreadSummary :=
  mkThreadSummary (Some tid) (Some "hello") (Some "1").

Definition page (tids : list string) (token : option string) : ThreadsResponse :=
  mkThreadsResponse (Some (map summary tids)) token (Some (Z.of_nat (List.length tids))).

Definition first_page : ThreadsResponse := page ["t1"; "t2"; "t3"] (Some "2").
Definition last_page : ThreadsResponse := page ["t4"; "t5"] None.

(** Every thread holds two messages; the list service serves three
    threads on its first page and two on its second, whatever is asked. *)
#[local] Instance service : GmailService :=
  {| threads_list := fun _ => Req first_page (Some (Req last_page None));
     threads_get := fun _ tid =>
       let t := get_field_or tid "" in
       mkThreadResponse tid (Some [raw_message (t ++ "-m1") t;
                                   raw_message (t ++ "-m2") t]) |}.

(** A fetching context that asks for every candidate and counts the
    threads it was told about. *)
#[local] Instance fetch_all : ApiFetchingContext nat :=
  {| get_thread_ids_to_query_from_api := fun o ids _ => (ids, o);
     process_thread := fun o _ _ => S o |}.

(** A service whose only thread has no messages. *)
#[local] Instance empty_thread_service : GmailService :=
  {| threads_list := fun _ => Req (page ["t1"] None) None;
     threads_get := fun _ tid => mkThreadResponse tid (Some []) |}.

(** A session over [service] with the given limit. *)
Definition run (limit : option Z) : Result (Exit * GmailThreads * State nat) :=
  @query_threads_with_paging builtins service nat fetch_all None limit true false 0%nat.

(** The state in which a session without limit starts. *)
Definition fresh : State nat :=
  mkState (ApiConversionContext_new THREAD None) 0%nat [].

Definition part_with (b : MessagePartBody) : MessagePart :=
  mkMessagePart (Some "0") (Some "application/pdf") [] b [].

Definition message_with (mid : option string) (mp : MessagePart) : Message :=
  mkMessage mid (Some "t1") (mkdatetime 2021 1 7 6 13 20 123000 0) (Some "hello") mp None.

(** A descriptor with both identifiers, one without a message id and one
    whose attachment id is empty. *)
Definition attachment_part : MessagePart :=
  part_with (mkMessagePartBody None (Some 7) (Some "att-1")).

Definition complete_descriptor : MessagePartDescriptor :=
  descriptor_of (message_with (Some "m1") attachment_part) attachment_part.

Definition anonymous_descriptor : MessagePartDescriptor :=
  descriptor_of (message_with None attachment_part) attachment_part.

Definition unreferenced_part : MessagePart :=
  part_with (mkMessagePartBody None (Some 0) (Some "")).

Definition unreferenced_descriptor : MessagePartDescriptor :=
  descriptor_of (message_with (Some "m1") unreferenced_part) unreferenced_part.

(** A context whose buffer of empty bodies holds three descriptors. *)
Definition loaded_context : ApiConversionContext :=
  report_empty_body (body unreferenced_part)
    (register_current_message_part unreferenced_part
       (report_empty_body (body attachment_part)
          (register_current_message (message_with (Some "m1") attachment_part)
             (report_empty_body (body attachment_part)
                (register_current_message_part attachment_part
                   (register_current_message (message_with None attachment_part)
                      (ApiConversionContext_new THREAD None))))))).

End Scenario.

(** ** Further notions *)

(** A fetching context that asks for none of the candidates it is given. *)
Definition rejects_all {O} {F : ApiFetchingContext O} : Prop :=
  forall o ids b, fst (get_thread_ids_to_query_from_api o ids b) = [].

(** [l1] is an initial segment of [l2]. *)
Definition prefix_of {A} (l1 l2 : list A) : Prop :=
  exists rest, l2 = l1 ++ rest.

(** The event of a deferred fetch: an attachment request or an error line. *)
Definition deferred_event (e : Event) : Prop :=
  match e with
  | AttachmentsGet _ _ _ | LogError _ => True
  | _ => False
  end.

(** A thread as the orchestrator assembles it: at least one message, the
    subject of the first. *)
Definition assembled (t : Thread) : Prop :=
  exists first rest, messages t = first :: rest /\ subject t = msg_subject first.

(** Inputs for running the further properties. *)
Module Cases.

(** A part without a header list below a well-formed root. *)
Definition headless_payload : RawPart :=
  mkRawPart (Some "") (Some "multipart/mixed") (Some [])
            (mkRawBody None (Some 0) None)
            (Some [mkRawPart (Some "0") (Some "text/plain") None
                             (mkRawBody (Some "aGk=") (Some 4) None) None]).

(** A message whose internal date is no integer. *)
Definition undated_message : RawMessage :=
  mkRawMessage (Some "m1") (Some "t1") (Some "yesterday") (Some "hello")
               (Scenario.payload_of "Hi").

(** A fetching context that asks for nothing. *)
#[local] Instance fetch_none : ApiFetchingContext nat :=
  {| get_thread_ids_to_query_from_api := fun o _ _ => ([], o);
     process_thread := fun o _ _ => S o |}.

(** A service none of whose threads can be parsed. *)
#[local] Instance broken_service : GmailService :=
  {| threads_list := fun _ => Req Scenario.first_page (Some (Req Scenario.last_page None));
     threads_get := fun _ tid => mkThreadResponse tid None |}.

End Cases.

(** * Properties *)

Unset Implicit Arguments.

(** ** Results and loops *)

Lemma bind_OK {A B} (c : Result A) (k : A -> Result B) (b : B) :
  bind c k = OK b -> exists a, c = OK a /\ k a = OK b.
Proof.
  destruct c as [a|e]; simpl; intros H; [eauto | discriminate].
Qed.

Ltac inv_bind H :=
  let a := fresh "a" in
  let E := fresh "E" in
  apply bind_OK in H; destruct H as (a & E & H).

Lemma comprehension_Forall2 {A B} (f : A -> Result B) (R : A -> B -> Prop) (l : list A) :
  Forall (fun a => exists b, f a = OK b /\ R a b) l ->
  exists bs, comprehension f l = OK bs /\ Forall2 R l bs.
Proof.
  induction 1 as [|a l (b & Hb & HR) _ (bs & Hbs & HF)]; simpl.
  - exists []. split; [reflexivity | constructor].
  - exists (b :: bs). rewrite Hb, Hbs. simpl. split; [reflexivity | now constructor].
Qed.

Lemma for_each_app {A W} (func : A -> W -> Result W) (l1 l2 : list A) (w : W) :
  for_each func (l1 ++ l2) w = (w' <- for_each func l1 w ;; for_each func l2 w').
Proof.
  revert w. induction l1 as [|a l1 IH]; intros w; simpl; [reflexivity|].
  destruct (func a w) as [w'|e]; simpl; [apply IH | reflexivity].
Qed.

(** ** Truth value testing *)

Lemma truthy_str_false (x : option string) :
  truthy x = false <-> missing_or_empty x.
Proof.
  unfold missing_or_empty. destruct x as [[|a s]|]; simpl; split; intros H;
    try reflexivity; try discriminate; auto.
  - destruct H as [H|H]; discriminate.
Qed.

Lemma truthy_str_true (x : option string) :
  truthy x = true <-> ~ missing_or_empty x.
Proof.
  rewrite <- truthy_str_false. destruct (truthy x); split; intros H;
    try reflexivity; try discriminate; try congruence.
Qed.

Lemma truthy_limit (l : option Z) :
  truthy l = true <-> exists n, l = Some n /\ n <> 0.
Proof.
  destruct l as [n|]; cbv [truthy truthy_option truthy_int].
  - rewrite negb_true_iff, Z.eqb_neq. split.
    + intros H. exists n. auto.
    + intros (n' & [= <-] & H). exact H.
  - split; [discriminate | intros (n & H & _); discriminate].
Qed.

(** ** The progress tracker *)

Lemma is_limit_reached_iff (p : Progress) :
  is_limit_reached p = true <->
  exists l, limit p = Some l /\ l <> 0 /\ l < processed_items p.
Proof.
  unfold is_limit_reached. destruct (truthy (limit p)) eqn:T.
  - apply truthy_limit in T. destruct T as (n & E & Hn). rewrite E. split.
    + intros H. apply Z.ltb_lt in H. exists n. auto.
    + intros (l & [= <-] & _ & H). now apply Z.ltb_lt.
  - split; [discriminate|]. intros (l & E & Hl & _).
    assert (truthy (limit p) = true) by (apply truthy_limit; eauto). congruence.
Qed.

Lemma is_limit_reached_false_iff (p : Progress) :
  is_limit_reached p = false <->
  match limit p with
  | None => True
  | Some l => l = 0 \/ processed_items p <= l
  end.
Proof.
  destruct (is_limit_reached p) eqn:E.
  - apply is_limit_reached_iff in E. destruct E as (l & -> & H0 & H1).
    split; [discriminate | intros H; exfalso; lia].
  - split; [intros _ | reflexivity].
    destruct (limit p) as [l|] eqn:L; [|exact I].
    destruct (Z.eq_dec l 0) as [|Hn]; [now left | right].
    destruct (Z_le_gt_dec (processed_items p) l) as [|Hgt]; [assumption|].
    assert (is_limit_reached p = true) 
      by (apply is_limit_reached_iff; exists l; repeat split; [assumption | assumption | lia]).
    congruence.
Qed.

(** ** Reading a trace *)

Lemma listed_app (tr1 tr2 : list Event) : listed (tr1 ++ tr2) = listed tr1 ++ listed tr2.
Proof. apply flat_map_app. Qed.

Lemma candidates_app (tr1 tr2 : list Event) :
  candidates (tr1 ++ tr2) = candidates tr1 ++ candidates tr2.
Proof. apply flat_map_app. Qed.

Lemma fetched_app (tr1 tr2 : list Event) : fetched (tr1 ++ tr2) = fetched tr1 ++ fetched tr2.
Proof. apply flat_map_app. Qed.

Lemma warnings_app (tr1 tr2 : list Event) :
  warnings (tr1 ++ tr2) = warnings tr1 ++ warnings tr2.
Proof. apply flat_map_app. Qed.

Lemma attachment_requests_app (tr1 tr2 : list Event) :
  attachment_requests (tr1 ++ tr2) = attachment_requests tr1 ++ attachment_requests tr2.
Proof. apply flat_map_app. Qed.

Create Rewrite HintDb trace.
#[local] Hint Rewrite listed_app candidates_app fetched_app warnings_app
  attachment_requests_app : trace.

(** ** The deferred attachment fetch *)

Lemma query_attachment_skip (d : MessagePartDescriptor) (m : Message) (mp : MessagePart)
    (tr : list Event) :
  message d = Some m -> message_part d = Some mp ->
  missing_or_empty (msg_id m) \/ missing_or_empty (attachmentId (body mp)) ->
  _query_attachment_of_descriptor d tr = OK (tr ++ [LogError d]).
Proof.
  intros Hm Hp H. unfold _query_attachment_of_descriptor. rewrite Hm, Hp.
  destruct H as [H|H]; apply truthy_str_false in H; rewrite H; simpl;
    [reflexivity | now rewrite orb_true_r].
Qed.

Lemma query_attachment_call (d : MessagePartDescriptor) (m : Message) (mp : MessagePart)
    (tr : list Event) :
  message d = Some m -> message_part d = Some mp ->
  ~ missing_or_empty (msg_id m) -> ~ missing_or_empty (attachmentId (body mp)) ->
  _query_attachment_of_descriptor d tr
  = OK (tr ++ [AttachmentsGet USERID_ME (msg_id m) (attachmentId (body mp))]).
Proof.
  intros Hm Hp H1 H2. unfold _query_attachment_of_descriptor. rewrite Hm, Hp.
  apply truthy_str_true in H1, H2. now rewrite H1, H2.
Qed.

(** A deferred fetch changes nothing but the attachment requests and the
    error log. *)
Lemma query_attachment_owned (d : MessagePartDescriptor) (tr : list Event) :
  has_owner d ->
  exists e, _query_attachment_of_descriptor d tr = OK (tr ++ [e]) /\
            listed [e] = [] /\ candidates [e] = [] /\ fetched [e] = [] /\ warnings [e] = [].
Proof.
  intros [Hm Hp]. unfold _query_attachment_of_descriptor.
  destruct (message d) as [m|]; [|congruence].
  destruct (message_part d) as [mp|]; [|congruence].
  destruct (negb _ || negb _); eexists; (split; [reflexivity | now repeat split]).
Qed.

Lemma deferred_fetches_owned (l : list MessagePartDescriptor) (tr : list Event) :
  Forall has_owner l ->
  exists es, for_each _query_attachment_of_descriptor l tr = OK (tr ++ es) /\
             listed es = [] /\ candidates es = [] /\ fetched es = [] /\ warnings es = [].
Proof.
  intros H. revert tr. induction H as [|d l Hd _ IH]; intros tr; simpl.
  - exists []. rewrite app_nil_r. now repeat split.
  - destruct (query_attachment_owned d tr Hd) as (e & -> & L1 & C1 & F1 & W1). simpl.
    destruct (IH (tr ++ [e])) as (es & -> & L2 & C2 & F2 & W2).
    exists (e :: es). rewrite <- app_assoc. split; [reflexivity|].
    change (e :: es) with ([e] ++ es). autorewrite with trace.
    rewrite L1, C1, F1, W1, L2, C2, F2, W2. now repeat split.
Qed.

(** C7: a deferred fetch on a descriptor whose message id or attachment id
    is missing or empty logs an error, requests nothing and raises nothing,
    so that the drain goes on with the next descriptor; the attachment
    service is requested exactly when both identifiers are non-empty.  The
    descriptor names its message and its part, as every descriptor recorded
    while a message is built does. *)
Theorem query_attachment_of_descriptor_skips_malformed :
  forall (d : MessagePartDescriptor) (m : Message) (mp : MessagePart) (tr : list Event),
    message d = Some m ->
    message_part d = Some mp ->
    let malformed :=
      missing_or_empty (msg_id m) \/ missing_or_empty (attachmentId (body mp)) in
    exists tr',
      _query_attachment_of_descriptor d tr = OK tr' /\
      (malformed ->
       tr' = tr ++ [LogError d] /\ attachment_requests tr' = attachment_requests tr) /\
      (~ malformed ->
       tr' = tr ++ [AttachmentsGet USERID_ME (msg_id m) (attachmentId (body mp))]) /\
      (attachment_requests tr' <> attachment_requests tr <-> ~ malformed) /\
      (forall rest,
         for_each _query_attachment_of_descriptor (d :: rest) tr
         = for_each _query_attachment_of_descriptor rest tr').
Proof.
  intros d m mp tr Hm Hp malformed.
  assert (Hreq : forall e, attachment_requests (tr ++ [e])
                           = attachment_requests tr ++ attachment_requests [e])
    by (intros e; apply attachment_requests_app).
  assert (Hdec : malformed \/ ~ malformed).
  { unfold malformed. rewrite <- !truthy_str_false.
    destruct (truthy (msg_id m)), (truthy (attachmentId (body mp))); intuition congruence. }
  destruct Hdec as [Hbad|Hgood].
  - exists (tr ++ [LogError d]).
    pose proof (query_attachment_skip d m mp tr Hm Hp Hbad) as E.
    rewrite Hreq.
    change (attachment_requests [LogError d]) with (@nil (option string * option string)).
    rewrite app_nil_r.
    split; [exact E|]. split; [auto|]. split; [intros Hn; now elim Hn|].
    split; [split; [intros Hn; now elim Hn | intros Hn; now elim Hn]|].
    intros rest. simpl. now rewrite E.
  - exists (tr ++ [AttachmentsGet USERID_ME (msg_id m) (attachmentId (body mp))]).
    assert (H1 : ~ missing_or_empty (msg_id m)) by (unfold malformed in Hgood; tauto).
    assert (H2 : ~ missing_or_empty (attachmentId (body mp)))
      by (unfold malformed in Hgood; tauto).
    pose proof (query_attachment_call d m mp tr Hm Hp H1 H2) as E.
    rewrite Hreq.
    split; [exact E|]. split; [intros Hn; now elim Hgood|]. split; [auto|]. split.
    + split; [auto|]. intros _ E'. apply (f_equal (@List.length _)) in E'.
      rewrite length_app in E'. simpl in E'. lia.
    + intros rest. simpl. now rewrite E.
Qed.

(** ** Draining the empty bodies *)

Lemma for_each_recording {W} (func : MessagePartDescriptor -> W -> Result W)
    (l : list MessagePartDescriptor) :
  (forall d w0, In d l -> exists w1, func d w0 = OK w1) ->
  forall (w : W) (calls : list MessagePartDescriptor),
  exists w',
    for_each func l w = OK w' /\
    for_each (recording func) l (w, calls) = OK (w', calls ++ l).
Proof.
  induction l as [|d l IH]; intros Hf w calls; simpl.
  - exists w. now rewrite app_nil_r.
  - destruct (Hf d w (or_introl eq_refl)) as (w1 & E1).
    unfold recording at 1. simpl. rewrite E1. simpl.
    destruct (IH (fun d' w0 H => Hf d' w0 (or_intror H)) w1 (calls ++ [d]))
      as (w' & E & Er).
    exists w'. rewrite E, Er, <- app_assoc. auto.
Qed.

(** C8: for every buffer and every handler that returns, draining the
    empty bodies calls the handler once per buffered descriptor, in the
    order in which they were recorded, and leaves the buffer empty. *)
Theorem handle_empty_bodies_drains_in_order :
  forall (W : Type) (func : MessagePartDescriptor -> W -> Result W)
         (c : ApiConversionContext) (w : W),
    (forall d w0, In d (empty_bodies c) -> exists w1, func d w0 = OK w1) ->
    exists c' w',
      handle_empty_bodies func c w = OK (c', w') /\
      handle_empty_bodies (recording func) c (w, []) = OK (c', (w', empty_bodies c)) /\
      for_each func (empty_bodies c) w = OK w' /\
      empty_bodies c' = [] /\
      decode_errors c' = decode_errors c /\
      progress c' = progress c.
Proof.
  intros W func c w Hf.
  destruct (for_each_recording func (empty_bodies c) Hf w []) as (w' & E & Er).
  unfold handle_empty_bodies. rewrite E, Er. simpl.
  eexists. exists w'. repeat split.
Qed.

(** ** The parser *)

Lemma RawPart_induction (P : RawPart -> Prop) :
  (forall pid mime hs b, P (mkRawPart pid mime hs b None)) ->
  (forall pid mime hs b l, Forall P l -> P (mkRawPart pid mime hs b (Some l))) ->
  forall r, P r.
Proof.
  intros HN HS. fix IH 1. intros [pid mime hs b [l|]].
  - apply HS. induction l as [|r l IHl]; constructor; [apply IH | exact IHl].
  - apply HN.
Qed.

Lemma MessagePart_induction (P : MessagePart -> Prop) :
  (forall pid mime hs b ps, Forall P ps -> P (mkMessagePart pid mime hs b ps)) ->
  forall p, P p.
Proof.
  intros H. fix IH 1. intros [pid mime hs b ps].
  apply H. induction ps as [|p ps IHps]; constructor; [apply IH | exact IHps].
Qed.

(** The parser as the source writes it: headers, then the children by a
    list comprehension over [parts] with default []. *)
Lemma parse_message_part_eq (message_part : RawPart) (message_id : option string) :
  parse_message_part message_part message_id =
  (headers <- _parse_headers message_part ;;
   children <- comprehension (fun part => parse_message_part part message_id)
                             (get_field_or (raw_parts message_part) []) ;;
   OK (mkMessagePart (raw_partId message_part) (raw_mimeType message_part) headers
                     (_parse_message_part_body_obj (raw_body message_part)) children)).
Proof.
  destruct message_part as [pid mime hs b ps]. simpl.
  destruct (_parse_headers _) as [headers|e]; simpl; [|reflexivity].
  destruct ps as [l|]; simpl; [|reflexivity].
  f_equal. induction l as [|part l IH]; simpl; [reflexivity|].
  destruct (parse_message_part part message_id); simpl; [|reflexivity].
  now rewrite IH.
Qed.

Lemma parsed_as_children (l : list RawPart) (ps : list MessagePart) :
  Forall2 parsed_as l ps ->
  map serialize ps = map normalize l /\
  map part_shape ps = map raw_shape l /\
  map body (flat_map all_parts ps)
  = map (fun x => _parse_message_part_body_obj (raw_body x)) (flat_map raw_all_parts l).
Proof.
  induction 1 as [|r p l ps (H1 & H2 & H3) _ (IH1 & IH2 & IH3)]; simpl.
  - auto.
  - rewrite !map_app, H1, H2, H3, IH1, IH2, IH3. auto.
Qed.

Lemma serialize_parsed_body (b : RawBody) :
  serialize_body (_parse_message_part_body_obj b) = b.
Proof. now destruct b. Qed.

Lemma serialize_parsed_headers (hs : list RawHeader) :
  map serialize_header
      (map (fun header_dict => mkHeader (raw_name header_dict) (raw_value header_dict)) hs)
  = hs.
Proof.
  induction hs as [|[n v] hs IH]; simpl; [reflexivity | now rewrite IH].
Qed.

Lemma parse_message_part_wf (message_id : option string) (r : RawPart) :
  wf_part r = true ->
  exists p, parse_message_part r message_id = OK p /\ parsed_as r p.
Proof.
  induction r as [pid mime hs b|pid mime hs b l IH] using RawPart_induction;
    intros Hwf; rewrite parse_message_part_eq; simpl in *;
    apply andb_true_iff in Hwf; destruct Hwf as [Hh Hl];
    destruct hs as [hs|]; try discriminate; unfold _parse_headers; simpl.
  - eexists. split; [reflexivity|]. unfold parsed_as. simpl.
    now rewrite serialize_parsed_headers, serialize_parsed_body.
  - assert (HF : Forall (fun a => exists p, parse_message_part a message_id = OK p
                                            /\ parsed_as a p) l).
    { rewrite forallb_forall in Hl. rewrite Forall_forall in IH |- *.
      intros a Ha. apply IH; auto. }
    apply comprehension_Forall2 in HF. destruct HF as (ps & -> & HF). simpl.
    apply parsed_as_children in HF. destruct HF as (H1 & H2 & H3).
    eexists. split; [reflexivity|]. unfold parsed_as. simpl.
    now rewrite H1, H2, H3, serialize_parsed_headers, serialize_parsed_body.
Qed.

Lemma normalize_idempotent (r : RawPart) : normalize (normalize r) = normalize r.
Proof.
  induction r as [pid mime hs b|pid mime hs b l IH] using RawPart_induction; simpl.
  - reflexivity.
  - do 2 f_equal. rewrite map_map. induction IH as [|r l Hr _ IHl]; simpl.
    + reflexivity.
    + now rewrite Hr, IHl.
Qed.

Lemma comprehension_OK {A B} (f : A -> Result B) (l : list A) (bs : list B) :
  comprehension f l = OK bs -> Forall (fun a => exists b, f a = OK b) l.
Proof.
  revert bs. induction l as [|a l IH]; intros bs H; simpl in H; constructor.
  - destruct (f a) as [b|e]; [eauto | discriminate].
  - destruct (f a) as [b|e]; simpl in H; [|discriminate].
    destruct (comprehension f l) as [bs'|e] eqn:E; [|discriminate]. now apply (IH bs').
Qed.

(** Parsing succeeds on the well-formed parts only. *)
Lemma parse_message_part_OK_wf (message_id : option string) (r : RawPart) (p : MessagePart) :
  parse_message_part r message_id = OK p -> wf_part r = true.
Proof.
  revert p.
  induction r as [pid mime hs b|pid mime hs b l IH] using RawPart_induction;
    intros p H; rewrite parse_message_part_eq in H; unfold _parse_headers in H;
    simpl in *; destruct hs as [hs|]; try discriminate; simpl in *.
  - reflexivity.
  - destruct (comprehension _ l) as [ps|e] eqn:E; [|discriminate].
    apply comprehension_OK in E. apply forallb_forall. intros a Ha.
    rewrite Forall_forall in IH, E. destruct (E a Ha) as (pa & Hpa).
    now apply (IH a Ha pa).
Qed.

(** C4: on a well-formed raw part the parser returns a tree of the same
    shape, hence of the same depth and branching, with every header and
    body field copied, so that serializing the parsed tree again gives a
    record field-equal to the raw one. *)
Theorem parse_message_part_round_trip :
  forall (message_part : RawPart) (message_id : option string),
    wf_part message_part = true ->
    exists p,
      parse_message_part message_part message_id = OK p /\
      part_shape p = raw_shape message_part /\
      depth (part_shape p) = depth (raw_shape message_part) /\
      branching (part_shape p) = branching (raw_shape message_part) /\
      map body (all_parts p)
      = map (fun x => _parse_message_part_body_obj (raw_body x)) (raw_all_parts message_part) /\
      serialize p = normalize message_part /\
      field_equal (serialize p) message_part.
Proof.
  intros r mid Hwf.
  destruct (parse_message_part_wf mid r Hwf) as (p & Hp & Hser & Hshape & Hbody).
  exists p. rewrite Hshape. repeat split; try assumption.
  unfold field_equal. rewrite Hser. apply normalize_idempotent.
Qed.

(** ** Building a message *)

Section ParserProperties.
Context {B : Builtins}.

Lemma no_content_decodes (b : MessagePartBody) :
  has_no_content b = true -> undecodable b = false.
Proof.
  unfold has_no_content, undecodable. destruct (data b); [discriminate | reflexivity].
Qed.

Lemma inspect_parts_effect (m : Message) (l : list MessagePart) :
  forall c,
    current_message c = Some m ->
    let c' := fold_left (fun c mp => inspect_part mp c) l c in
    empty_bodies c'
    = empty_bodies c
        ++ map (descriptor_of m) (filter (fun mp => has_no_content (body mp)) l) /\
    decode_errors c'
    = decode_errors c ++ map (descriptor_of m) (filter (fun mp => undecodable (body mp)) l) /\
    progress c' = progress c /\
    current_message c' = Some m.
Proof.
  induction l as [|mp l IH]; intros c Hc; simpl.
  - now rewrite !app_nil_r.
  - unfold inspect_part at 2 4 6 8.
    destruct (has_no_content (body mp)) eqn:E.
    + rewrite (no_content_decodes _ E).
      destruct (IH (report_empty_body (body mp) (register_current_message_part mp c)) Hc)
        as (H1 & H2 & H3 & H4).
      rewrite H1, H2, H3, H4. simpl. rewrite Hc, <- app_assoc. auto.
    + destruct (undecodable (body mp)) eqn:U.
      * destruct (IH (report_decode_error (body mp) (register_current_message_part mp c)) Hc)
          as (H1 & H2 & H3 & H4).
        rewrite H1, H2, H3, H4. simpl. rewrite Hc, <- app_assoc. auto.
      * destruct (IH (register_current_message_part mp c) Hc) as (H1 & H2 & H3 & H4).
        rewrite H1, H2, H3, H4. auto.
Qed.

(** What parsing one message does to the conversion context. *)
Lemma parse_api_message_effect (message : RawMessage) (c c' : ApiConversionContext)
    (m : Message) :
  parse_api_message message c = OK (m, c') ->
  empty_bodies c' = empty_bodies c ++ empty_body_descriptors m /\
  decode_errors c' = decode_errors c ++ decode_error_descriptors m /\
  progress c' = progress c.
Proof.
  unfold parse_api_message. intros H.
  inv_bind H. inv_bind H. inv_bind H. inv_bind H.
  unfold Message_new in H. injection H as <- <-.
  match goal with
  | |- context [fold_left _ _ (register_current_message ?m c)] =>
      destruct (inspect_parts_effect m (all_parts (msg_payload m))
                  (register_current_message m c) eq_refl) as (H1 & H2 & H3 & _)
  end.
  simpl in H1, H2, H3. rewrite H1, H2, H3. auto.
Qed.

(** Parsing runs the part parser and then the date conversion. *)
Lemma parse_api_message_eq (message : RawMessage) (c : ApiConversionContext) :
  parse_api_message message c
  = (p <- parse_message_part (raw_payload message) (raw_id message) ;;
     date <- message_date message ;;
     OK (Message_new (raw_id message) (raw_threadId message) date
                     (raw_snippet message) p c)).
Proof.
  unfold parse_api_message, message_date.
  destruct (parse_message_part _ _); simpl; [|reflexivity].
  destruct (int _); simpl; [|reflexivity].
  destruct (truediv _ _); reflexivity.
Qed.

Lemma parse_api_message_wf (message : RawMessage) (c : ApiConversionContext) :
  wf_message message = true ->
  exists p date,
    parse_message_part (raw_payload message) (raw_id message) = OK p /\
    parsed_as (raw_payload message) p /\
    message_date message = OK date /\
    parse_api_message message c
    = OK (Message_new (raw_id message) (raw_threadId message)
                      date (raw_snippet message) p c).
Proof.
  unfold wf_message. intros H. apply andb_true_iff in H. destruct H as [Hp Hd].
  destruct (parse_message_part_wf (raw_id message) _ Hp) as (p & Ep & Hpa).
  rewrite parse_api_message_eq, Ep. simpl.
  destruct (message_date message) as [date|]; [|discriminate]. simpl.
  exists p, date. auto.
Qed.

(** What parsing the messages of a thread does to the conversion context. *)
Lemma parse_api_messages_effect (messages_response : list RawMessage) :
  forall (c c' : ApiConversionContext) (ms : list Message),
    parse_api_messages messages_response c = OK (ms, c') ->
    List.length ms = List.length messages_response /\
    empty_bodies c' = empty_bodies c ++ flat_map empty_body_descriptors ms /\
    decode_errors c' = decode_errors c ++ flat_map decode_error_descriptors ms /\
    progress c' = progress c.
Proof.
  induction messages_response as [|message rest IH]; intros c c' ms H; simpl in H.
  - injection H as <- <-. simpl. now rewrite !app_nil_r.
  - inv_bind H. destruct a as [m c1]. inv_bind H. destruct a as [ms' c2].
    injection H as <- <-.
    apply parse_api_message_effect in E. destruct E as (E1 & E2 & E3).
    apply IH in E0. destruct E0 as (L & F1 & F2 & F3).
    simpl. rewrite L, F1, F2, F3, E1, E2, E3, <- !app_assoc. auto.
Qed.

Lemma parse_api_messages_wf (messages_response : list RawMessage) :
  forallb wf_message messages_response = true ->
  forall c, exists ms c', parse_api_messages messages_response c = OK (ms, c').
Proof.
  induction messages_response as [|message rest IH]; intros H c; simpl.
  - eauto.
  - simpl in H. apply andb_true_iff in H. destruct H as [Hm Hr].
    destruct (parse_api_message_wf message c Hm) as (p & n & _ & _ & _ & ->). simpl.
    match goal with
    | |- context [parse_api_messages rest ?c1] => destruct (IH Hr c1) as (ms & c2 & ->)
    end.
    simpl. eauto.
Qed.

Lemma empty_body_descriptors_owned (m : Message) :
  Forall has_owner (empty_body_descriptors m).
Proof.
  unfold empty_body_descriptors. apply Forall_forall. intros d Hd.
  apply in_map_iff in Hd. destruct Hd as (mp & <- & _). split; discriminate.
Qed.

End ParserProperties.

Lemma filter_map_comm {A B} (f : A -> B) (P : B -> bool) (l : list A) :
  filter P (map f l) = map f (filter (fun a => P (f a)) l).
Proof.
  induction l as [|a l IH]; simpl; [reflexivity|].
  destruct (P (f a)); simpl; now rewrite IH.
Qed.

Lemma has_no_content_parsed (b : RawBody) :
  has_no_content (_parse_message_part_body_obj b) = raw_has_no_content b.
Proof. reflexivity. Qed.

(** ** The float of seconds

    Binary digits, shifts and rounding of mantissas, as far as the
    quotient by 1000 and its microseconds need them. *)

Lemma digits2_pos_bounds (p : positive) :
  2 ^ (Zpos (digits2_pos p) - 1) <= Zpos p < 2 ^ Zpos (digits2_pos p).
Proof.
  induction p as [p IH|p IH|]; simpl digits2_pos.
  - rewrite Pos2Z.inj_succ.
    replace (Z.succ (Zpos (digits2_pos p)) - 1) with (Z.succ (Zpos (digits2_pos p) - 1)) by lia.
    rewrite !Z.pow_succ_r by lia. lia.
  - rewrite Pos2Z.inj_succ.
    replace (Z.succ (Zpos (digits2_pos p)) - 1) with (Z.succ (Zpos (digits2_pos p) - 1)) by lia.
    rewrite !Z.pow_succ_r by lia. lia.
  - simpl. lia.
Qed.

Lemma Zdigits2_unique (z g : Z) :
  2 ^ (g - 1) <= z < 2 ^ g -> 1 <= g -> Zdigits2 z = g.
Proof.
  intros [Hlo Hhi] Hg.
  assert (Hz : 0 < z) by (pose proof (Z.pow_pos_nonneg 2 (g - 1)); lia).
  destruct z as [|p|p]; try lia. simpl.
  pose proof (digits2_pos_bounds p) as [Hlo' Hhi'].
  set (g' := Zpos (digits2_pos p)) in *.
  destruct (Z.lt_trichotomy g' g) as [H|[H|H]]; [|exact H|].
  - assert (2 ^ g' <= 2 ^ (g - 1)) by (apply Z.pow_le_mono_r; lia). lia.
  - assert (2 ^ g <= 2 ^ (g' - 1)) by (apply Z.pow_le_mono_r; lia). lia.
Qed.

Ltac case_bools :=
  repeat match goal with
         | |- context [Z.leb ?a ?b] =>
             let E := fresh "E" in
             destruct (Z.leb a b) eqn:E; [apply Z.leb_le in E | apply Z.leb_gt in E]
         | |- context [Z.ltb ?a ?b] =>
             let E := fresh "E" in
             destruct (Z.ltb a b) eqn:E; [apply Z.ltb_lt in E | apply Z.ltb_ge in E]
         | |- context [Z.eqb ?a ?b] =>
             let E := fresh "E" in
             destruct (Z.eqb a b) eqn:E; [apply Z.eqb_eq in E | apply Z.eqb_neq in E]
         end.

Lemma shr_1_Inv (N D : Z) (r : shr_record) :
  0 <= N -> 0 < D -> holds_quotient N D r -> holds_quotient N (D * 2) (shr_1 r).
Proof.
  intros HN HD (Hm & Hr & Hs).
  assert (Hdiv : N / (D * 2) = (N / D) / 2) by (rewrite Z.div_div; lia).
  assert (Hmod : N mod (D * 2) = N mod D + D * ((N / D) mod 2))
    by (apply Z.rem_mul_r; lia).
  pose proof (Z.mod_pos_bound N D HD) as Hrem.
  pose proof (Z.div_pos N D HN HD) as Hq.
  destruct r as [m rb sb]. cbn [shr_m shr_r shr_s] in Hm, Hr, Hs. subst m.
  assert (Hor : rb || sb = negb (N mod D =? 0)).
  { subst rb sb. case_bools; try reflexivity; lia. }
  unfold holds_quotient. rewrite Hdiv, Hmod. clear Hdiv Hmod Hr Hs.
  remember (N mod D) as rem eqn:Erem. remember (N / D) as q eqn:Eq.
  clear Erem Eq.
  destruct q as [|[p|p|]|p]; try lia; cbn [shr_1 shr_m shr_r shr_s]; rewrite Hor.
  - change (0 / 2) with 0. change (0 mod 2) with 0.
    rewrite Z.mul_0_r, Z.add_0_r. repeat split; case_bools; try reflexivity; lia.
  - replace (Z.pos p~1 / 2) with (Z.pos p) by (Z.div_mod_to_equations; lia).
    replace (Z.pos p~1 mod 2) with 1 by (Z.div_mod_to_equations; lia).
    rewrite Z.mul_1_r. repeat split; case_bools; try reflexivity; lia.
  - replace (Z.pos p~0 / 2) with (Z.pos p) by (Z.div_mod_to_equations; lia).
    replace (Z.pos p~0 mod 2) with 0 by (Z.div_mod_to_equations; lia).
    rewrite Z.mul_0_r, Z.add_0_r. repeat split; case_bools; try reflexivity; lia.
  - change (1 / 2) with 0. change (1 mod 2) with 1.
    rewrite Z.mul_1_r. repeat split; case_bools; try reflexivity; lia.
Qed.

Lemma pow2_double (a : Z) : 0 <= a -> 2 ^ (2 * a) = 2 ^ a * 2 ^ a.
Proof.
  intros Ha. replace (2 * a) with (a + a) by lia. now apply Z.pow_add_r.
Qed.

Lemma pow2_pos (a : Z) : 0 <= a -> 0 < 2 ^ a.
Proof. intros Ha. now apply Z.pow_pos_nonneg. Qed.

Lemma iter_pos_shr_1_Inv (k : positive) :
  forall (N D : Z) (r : shr_record),
    0 <= N -> 0 < D -> holds_quotient N D r -> holds_quotient N (D * 2 ^ Zpos k) (iter_pos shr_1 k r).
Proof.
  induction k as [k IH|k IH|]; intros N D r HN HD H; simpl iter_pos.
  - replace (D * 2 ^ Z.pos k~1) with (D * 2 * 2 ^ Z.pos k * 2 ^ Z.pos k).
    + pose proof (pow2_pos (Z.pos k) ltac:(lia)).
      apply IH; [lia | nia | apply IH; [lia | lia | now apply shr_1_Inv]].
    + rewrite (Pos2Z.inj_xI k), Z.pow_add_r, pow2_double by lia.
      change (2 ^ 1) with 2. ring.
  - replace (D * 2 ^ Z.pos k~0) with (D * 2 ^ Z.pos k * 2 ^ Z.pos k).
    + pose proof (pow2_pos (Z.pos k) ltac:(lia)).
      apply IH; [lia | nia | apply IH; [lia | lia | exact H]].
    + rewrite (Pos2Z.inj_xO k), pow2_double by lia. ring.
  - change (2 ^ 1) with 2. now apply shr_1_Inv.
Qed.

(** Rounding to nearest, ties to even, moves the mantissa by at most one
    half. *)
Lemma round_nearest_even_Inv (N D : Z) (r : shr_record) :
  0 <= N -> 0 < D -> holds_quotient N D r ->
  let M := round_nearest_even (shr_m r) (loc_of_shr_record r) in
  (M = N / D \/ M = N / D + 1) /\ 2 * Z.abs (M * D - N) <= D.
Proof.
  intros HN HD (Hm & Hr & Hs).
  pose proof (Z.mod_pos_bound N D HD) as Hrem.
  pose proof (Z.div_mod N D ltac:(lia)) as Hdm.
  destruct r as [m rb sb]. cbn [shr_m shr_r shr_s] in *. subst m.
  remember (N mod D) as rem. remember (N / D) as q.
  assert (Hq : q * D = N - rem) by lia.
  destruct rb, sb; cbn [loc_of_shr_record round_nearest_even];
    symmetry in Hr, Hs;
    try (apply Z.leb_le in Hr); try (apply Z.leb_gt in Hr);
    try (apply andb_true_iff in Hs; destruct Hs as [Hs1 Hs2];
         apply negb_true_iff in Hs1, Hs2;
         apply Z.eqb_neq in Hs1, Hs2);
    try (apply andb_false_iff in Hs;
         destruct Hs as [Hs|Hs]; apply negb_false_iff in Hs; apply Z.eqb_eq in Hs).
  all: try (destruct (Z.even q)).
  all: split; [auto|]; try lia.
  all: rewrite ?Z.mul_add_distr_r, ?Hq; lia.
Qed.

Lemma fexp_normal (e : Z) : -1021 <= e -> fexp prec emax e = e - 53.
Proof. unfold fexp, emin, prec, emax. lia. Qed.

Lemma shr_Inv (N D : Z) (r : shr_record) (e n : Z) :
  0 <= N -> 0 < D -> 0 <= n -> holds_quotient N D r ->
  exists r', shr r e n = (r', e + n) /\ holds_quotient N (D * 2 ^ n) r'.
Proof.
  intros HN HD Hn H. destruct n as [|p|p]; try lia; simpl shr.
  - exists r. rewrite Z.add_0_r, Z.mul_1_r. auto.
  - exists (iter_pos shr_1 p r). split; [reflexivity|]. now apply iter_pos_shr_1_Inv.
Qed.

Lemma Inv_exact (m : Z) : holds_quotient m 1 (shr_record_of_loc m loc_Exact).
Proof.
  unfold holds_quotient. cbn [shr_record_of_loc shr_m shr_r shr_s].
  rewrite Z.div_1_r, Z.mod_1_r. repeat split.
Qed.

Lemma shr_fexp_carry (e : Z) :
  -1074 <= e ->
  shr_fexp prec emax (2 ^ 53) e loc_Exact
  = ({| shr_m := 2 ^ 52; shr_r := false; shr_s := false |}, e + 1).
Proof.
  intros He. unfold shr_fexp. change (Zdigits2 (2 ^ 53)) with 54.
  rewrite fexp_normal by lia. replace (54 + e - 53 - e) with 1 by lia.
  reflexivity.
Qed.

(** Rounding a mantissa of at least 53 bits whose exponent is in range:
    the result is a normal float within half a unit in the last place. *)
Lemma binary_round_aux_spec (sx : bool) (mx ex : Z) (lx : location) (N D : Z) :
  0 <= N -> 0 < D ->
  holds_quotient N D (shr_record_of_loc mx lx) ->
  2 ^ 52 <= mx ->
  -1074 <= ex ->
  Zdigits2 mx + ex <= 1023 ->
  exists (M : positive) (k : Z),
    binary_round_aux prec emax sx mx ex lx = S754_finite sx M (ex + k) /\
    0 <= k /\
    Zdigits2 mx - 53 <= k <= Zdigits2 mx - 52 /\
    2 ^ 52 <= Zpos M < 2 ^ 53 /\
    2 * Z.abs (Zpos M * (D * 2 ^ k) - N) <= D * 2 ^ k.
Proof.
  intros HN HD Hq0 Hmx Hex Hover.
  assert (Hm : mx = N / D).
  { destruct Hq0 as (Hm & _). now destruct lx as [|[| |]]. }
  destruct mx as [|p|p]; try (change (2 ^ 52) with 4503599627370496 in Hmx; lia).
  pose proof (digits2_pos_bounds p) as [Hlo Hhi].
  change (Zpos (digits2_pos p)) with (Zdigits2 (Zpos p)) in Hlo, Hhi.
  remember (Zdigits2 (Zpos p)) as g eqn:Eg in *.
  assert (Hg : 53 <= g).
  { destruct (Z_lt_le_dec g 53) as [H|H]; [|exact H].
    assert (2 ^ g <= 2 ^ 52) by (apply Z.pow_le_mono_r; lia). lia. }
  unfold binary_round_aux.
  unfold shr_fexp at 1. rewrite <- Eg.
  rewrite fexp_normal by lia.
  replace (g + ex - 53 - ex) with (g - 53) by lia.
  destruct (shr_Inv N D (shr_record_of_loc (Zpos p) lx) ex (g - 53) HN HD ltac:(lia) Hq0)
    as (r1 & -> & Hq1).
  pose proof (pow2_pos (g - 53) ltac:(lia)) as Hpk.
  assert (HD1 : 0 < D * 2 ^ (g - 53)) by nia.
  destruct (round_nearest_even_Inv N (D * 2 ^ (g - 53)) r1 HN HD1 Hq1) as (HM1 & Herr).
  cbv zeta in HM1, Herr.
  remember (round_nearest_even (shr_m r1) (loc_of_shr_record r1)) as M1 eqn:EM1.
  assert (Hm1 : 2 ^ 52 <= N / (D * 2 ^ (g - 53)) < 2 ^ 53).
  { rewrite <- Z.div_div, <- Hm by lia.
    assert (E52 : 2 ^ (g - 1) = 2 ^ 52 * 2 ^ (g - 53)).
    { rewrite <- Z.pow_add_r by lia. f_equal. lia. }
    assert (E53 : 2 ^ g = 2 ^ 53 * 2 ^ (g - 53)).
    { rewrite <- Z.pow_add_r by lia. f_equal. lia. }
    split.
    - apply Z.div_le_lower_bound; lia.
    - apply Z.div_lt_upper_bound; lia. }
  assert (HM1r : 2 ^ 52 <= M1 <= 2 ^ 53) by lia.
  destruct (Z_lt_le_dec M1 (2 ^ 53)) as [Hlt|Hge].
  - (* no carry *)
    assert (Hd : Zdigits2 M1 = 53) by (apply Zdigits2_unique; [simpl; lia | lia]).
    unfold shr_fexp. rewrite Hd, fexp_normal by lia.
    replace (53 + (ex + (g - 53)) - 53 - (ex + (g - 53))) with 0 by lia.
    cbn [shr shr_record_of_loc shr_m].
    destruct M1 as [|M|M]; try (change (2 ^ 52) with 4503599627370496 in HM1r; lia).
    replace (ex + (g - 53) <=? emax - prec) with true
      by (symmetry; apply Z.leb_le; unfold emax, prec; lia).
    exists M, (g - 53). split; [reflexivity|]. split; [lia|]. split; [lia|].
    split; [lia|]. exact Herr.
  - (* the mantissa became 2^53 *)
    assert (EM : M1 = 2 ^ 53) by lia.
    rewrite EM, shr_fexp_carry by lia. cbn [shr_m].
    change (2 ^ 52) with (Zpos 4503599627370496) at 1. cbv iota beta.
    replace (ex + (g - 53) + 1 <=? emax - prec) with true
      by (symmetry; apply Z.leb_le; unfold emax, prec; lia).
    exists 4503599627370496%positive, (g - 53 + 1).
    split; [f_equal; lia|]. split; [lia|]. split; [lia|].
    split; [change (2 ^ 52) with 4503599627370496; change (2 ^ 53) with 9007199254740992; lia|].
    rewrite Z.pow_add_r by lia. change (2 ^ 1) with 2.
    rewrite EM in Herr. change (2 ^ 53) with 9007199254740992 in Herr. lia.
Qed.

Lemma Inv_new_location (q r : Z) :
  0 <= r < 1000 ->
  holds_quotient (1000 * q + r) 1000 (shr_record_of_loc q (new_location 1000 r)).
Proof.
  intros Hr.
  assert (Hq : (1000 * q + r) / 1000 = q)
    by (symmetry; apply (Z.div_unique _ 1000 q r); lia).
  assert (Hm : (1000 * q + r) mod 1000 = r)
    by (symmetry; apply (Z.mod_unique _ 1000 q r); lia).
  unfold holds_quotient. rewrite Hq, Hm.
  unfold new_location. change (Z.even 1000) with true. cbv iota. unfold new_location_even.
  destruct (Z.eqb_spec r 0) as [->|Hr0]; [repeat split|].
  destruct (Z.compare_spec (2 * r) 1000) as [H|H|H];
    cbn [shr_record_of_loc shr_m shr_r shr_s]; repeat split;
    case_bools; try reflexivity; lia.
Qed.

Lemma abs_scale (a b P : Z) :
  0 < P -> 2 * Z.abs (a * P) <= b * P -> 2 * Z.abs a <= b.
Proof.
  intros HP H. rewrite Z.abs_mul, (Z.abs_eq P) in H by lia.
  apply (Z.mul_le_mono_pos_r _ _ P); lia.
Qed.

(** The quotient of an integer below 2^42 by 1000: a normal float within
    half a unit in the last place, which is at most 2^-20. *)
Lemma SFdiv_1000_spec (s : bool) (p : positive) :
  Zpos p < 2 ^ 42 ->
  exists (M : positive) (E : Z),
    SFdiv prec emax (S754_finite s p 0) (S754_finite false 1000 0) = S754_finite s M E /\
    -63 <= E <= -20 /\
    2 ^ 52 <= Zpos M < 2 ^ 53 /\
    2 * Z.abs (Zpos M * 1000 - Zpos p * 2 ^ (- E)) <= 1000.
Proof.
  intros Hp.
  pose proof (digits2_pos_bounds p) as [Hlo Hhi].
  change (Zpos (digits2_pos p)) with (Zdigits2 (Zpos p)) in Hlo, Hhi.
  unfold SFdiv, SFdiv_core_binary.
  remember (Zdigits2 (Zpos p)) as d eqn:Ed in *.
  assert (Hd1 : 1 <= d) by (rewrite Ed; simpl; lia).
  assert (Hd : d <= 42).
  { destruct (Z_le_gt_dec d 42) as [H|H]; [exact H|].
    assert (2 ^ 42 <= 2 ^ (d - 1)) by (apply Z.pow_le_mono_r; lia). lia. }
  change (Zdigits2 1000) with 10.
  replace (d + 0 - (10 + 0)) with (d - 10) by lia.
  rewrite fexp_normal by lia.
  replace (Z.min (d - 10 - 53) (0 - 0)) with (d - 63) by lia.
  replace (0 - 0 - (d - 63)) with (63 - d) by lia.
  destruct (63 - d) as [|sh|sh] eqn:Esh; try lia.
  rewrite <- Esh. rewrite Z.shiftl_mul_pow2 by lia.
  set (m' := Zpos p * 2 ^ (63 - d)).
  pose proof (pow2_pos (63 - d) ltac:(lia)) as Hpow.
  assert (E62 : 2 ^ (d - 1) * 2 ^ (63 - d) = 2 ^ 62).
  { rewrite <- Z.pow_add_r by lia. f_equal. lia. }
  assert (E63 : 2 ^ d * 2 ^ (63 - d) = 2 ^ 63).
  { rewrite <- Z.pow_add_r by lia. f_equal. lia. }
  assert (Hm' : 2 ^ 62 <= m' < 2 ^ 63) by (unfold m'; nia).
  pose proof (Z_div_mod m' 1000 ltac:(lia)) as Hdm.
  destruct (Z.div_eucl m' 1000) as [q r]. destruct Hdm as [Hdm Hr].
  change (2 ^ 62) with 4611686018427387904 in Hm'.
  change (2 ^ 63) with 9223372036854775808 in Hm'.
  assert (Hq : 2 ^ 52 <= q < 2 ^ 54).
  { change (2 ^ 52) with 4503599627370496. change (2 ^ 54) with 18014398509481984. lia. }
  assert (Hdq : Zdigits2 q <= 54).
  { destruct q as [|q|q]; try lia.
    pose proof (digits2_pos_bounds q) as [Hqlo _]. simpl.
    destruct (Z_le_gt_dec (Zpos (digits2_pos q)) 54) as [H|H]; [exact H|].
    assert (2 ^ 54 <= 2 ^ (Zpos (digits2_pos q) - 1)) by (apply Z.pow_le_mono_r; lia). lia. }
  destruct (binary_round_aux_spec (xorb s false) q (d - 63) (new_location 1000 r) m' 1000)
    as (M & k & -> & Hk0 & Hk & HM & Herr); try lia.
  { rewrite Hdm. now apply Inv_new_location. }
  rewrite xorb_false_r.
  assert (Hk1 : k <= 1).
  { destruct (Z_le_gt_dec k 1) as [H|H]; [exact H|].
    assert (Hk2 : k = 2) by lia. subst k. change (2 ^ 2) with 4 in Herr.
    change (2 ^ 52) with 4503599627370496 in HM. lia. }
  exists M, (d - 63 + k). split; [reflexivity|]. split; [lia|]. split; [exact HM|].
  replace (- (d - 63 + k)) with (63 - d - k) by lia.
  pose proof (pow2_pos k Hk0) as HPk.
  assert (ET : 2 ^ (63 - d) = 2 ^ (63 - d - k) * 2 ^ k).
  { rewrite <- Z.pow_add_r by lia. f_equal. lia. }
  apply (abs_scale _ _ (2 ^ k) HPk).
  replace ((Zpos M * 1000 - Zpos p * 2 ^ (63 - d - k)) * 2 ^ k)
    with (Zpos M * (1000 * 2 ^ k) - m').
  - exact Herr.
  - unfold m'. rewrite ET. ring.
Qed.

Lemma Zdigits2_le (z g : Z) : 0 < z < 2 ^ g -> 0 <= g -> Zdigits2 z <= g.
Proof.
  intros [Hz Hlt] Hg. destruct z as [|p|p]; try lia. simpl.
  pose proof (digits2_pos_bounds p) as [Hlo _].
  destruct (Z_le_gt_dec (Zpos (digits2_pos p)) g) as [H|H]; [exact H|].
  assert (2 ^ g <= 2 ^ (Zpos (digits2_pos p) - 1)) by (apply Z.pow_le_mono_r; lia). lia.
Qed.

Lemma binary_round_aux_exact (sx : bool) (m : positive) (e : Z) :
  2 ^ 52 <= Zpos m < 2 ^ 53 -> -1074 <= e <= 971 ->
  binary_round_aux prec emax sx (Zpos m) e loc_Exact = S754_finite sx m e.
Proof.
  intros Hm He.
  assert (Hd : Zdigits2 (Zpos m) = 53) by (apply Zdigits2_unique; [exact Hm | lia]).
  unfold binary_round_aux, shr_fexp. rewrite Hd, fexp_normal by lia.
  replace (53 + e - 53 - e) with 0 by lia.
  cbn [shr shr_record_of_loc shr_m loc_of_shr_record round_nearest_even].
  rewrite Hd, fexp_normal by lia. replace (53 + e - 53 - e) with 0 by lia.
  cbn [shr shr_record_of_loc shr_m].
  replace (e <=? emax - prec) with true
    by (symmetry; apply Z.leb_le; unfold emax, prec; lia).
  reflexivity.
Qed.

Lemma Pos_iter_xO (m d : positive) :
  Zpos (Pos.iter xO m d) = Zpos m * 2 ^ Zpos d.
Proof.
  induction d as [|d IH] using Pos.peano_ind.
  - simpl. lia.
  - rewrite Pos.iter_succ, Pos2Z.inj_xO, IH, Pos2Z.inj_succ, Z.pow_succ_r by lia. ring.
Qed.

(** The fraction of a float, itself a float. *)
Lemma binary_normalize_frac (s : bool) (rest E : Z) :
  0 < rest < 2 ^ 53 -> rest < 2 ^ (- E) -> -63 <= E <= -20 ->
  exists (M' : positive) (a : Z),
    binary_normalize prec emax (cond_Zopp s rest) E s = S754_finite s M' (E - a) /\
    0 <= a <= 52 /\
    Zpos M' = rest * 2 ^ a /\
    2 ^ 52 <= Zpos M' < 2 ^ 53 /\
    E - a <= -53.
Proof.
  intros Hrest HT HE.
  destruct rest as [|r|r]; try lia.
  assert (Hn : binary_normalize prec emax (cond_Zopp s (Zpos r)) E s
               = binary_round prec emax s r E) by now destruct s.
  rewrite Hn. clear Hn. unfold binary_round, shl_align.
  pose proof (digits2_pos_bounds r) as [Hlo Hhi].
  remember (Zpos (digits2_pos r)) as g eqn:Eg in *.
  assert (Hg1 : 1 <= g) by (rewrite Eg; lia).
  assert (Hg : g <= 53).
  { destruct (Z_le_gt_dec g 53) as [H|H]; [exact H|].
    assert (2 ^ 53 <= 2 ^ (g - 1)) by (apply Z.pow_le_mono_r; lia). lia. }
  assert (HgE : g <= - E).
  { destruct (Z_le_gt_dec g (- E)) as [H|H]; [exact H|].
    assert (2 ^ (- E) <= 2 ^ (g - 1)) by (apply Z.pow_le_mono_r; lia). lia. }
  rewrite fexp_normal by lia.
  replace (g + E - 53 - E) with (g - 53) by lia.
  destruct (g - 53) as [|dd|dd] eqn:Edd; try lia.
  - assert (Hg53 : g = 53) by lia. rewrite Hg53 in Hlo, Hhi.
    change (53 - 1) with 52 in Hlo.
    rewrite binary_round_aux_exact by lia.
    exists r, 0. rewrite Z.sub_0_r, Z.mul_1_r. repeat split; lia.
  - assert (Hmz : Zpos (Pos.iter xO r dd) = Zpos r * 2 ^ (53 - g)).
    { rewrite Pos_iter_xO. f_equal. f_equal. lia. }
    assert (E52 : 2 ^ (g - 1) * 2 ^ (53 - g) = 2 ^ 52).
    { rewrite <- Z.pow_add_r by lia. f_equal. lia. }
    assert (E53 : 2 ^ g * 2 ^ (53 - g) = 2 ^ 53).
    { rewrite <- Z.pow_add_r by lia. f_equal. lia. }
    pose proof (pow2_pos (53 - g) ltac:(lia)) as Hpow.
    assert (Hr : 2 ^ 52 <= Zpos (Pos.iter xO r dd) < 2 ^ 53) by (rewrite Hmz; nia).
    rewrite binary_round_aux_exact by lia.
    exists (Pos.iter xO r dd), (53 - g).
    split; [f_equal; lia|]. split; [lia|]. split; [exact Hmz|]. split; [exact Hr | lia].
Qed.

(** [round] gives an integer within one half. *)
Lemma round_spec (s : bool) (M : positive) (F : Z) :
  F < 0 ->
  exists rho,
    round (S754_finite s M F) = cond_Zopp s rho /\
    0 <= rho /\
    2 * Z.abs (rho * 2 ^ (- F) - Zpos M) <= 2 ^ (- F).
Proof.
  intros HF. unfold round.
  replace (F >=? 0) with false by (symmetry; rewrite Z.geb_leb; apply Z.leb_gt; lia).
  rewrite (Z.shiftl_div_pow2 (Zpos M) F) by lia.
  rewrite Z.shiftl_mul_pow2 by lia. rewrite (Z.shiftl_mul_pow2 1) by lia.
  rewrite Z.mul_1_l.
  pose proof (pow2_pos (- F) ltac:(lia)) as HG.
  set (G := 2 ^ (- F)) in *.
  pose proof (Z.div_mod (Zpos M) G ltac:(lia)) as Hdm.
  pose proof (Z.mod_pos_bound (Zpos M) G HG) as Hrem.
  pose proof (Z.div_pos (Zpos M) G ltac:(lia) HG) as Hq.
  remember (Zpos M / G) as q. remember (Zpos M mod G) as r.
  assert (Hqm : q * G = Zpos M - r) by lia.
  destruct (Z.compare_spec (2 * (Zpos M - q * G)) G) as [H|H|H].
  - destruct (Z.even q); eexists; (split; [reflexivity|]); split; try lia;
      rewrite ?Z.mul_add_distr_r, ?Hqm; lia.
  - exists q. split; [reflexivity|]. split; [lia|]. rewrite Hqm. lia.
  - exists (q + 1). split; [reflexivity|]. split; [lia|].
    rewrite Z.mul_add_distr_r, Hqm. lia.
Qed.

(** The arithmetic behind the microseconds: a fraction within 500/T of
    k/1000, with T above a million, times a million, rounded twice, is
    1000 k. *)
Lemma nearest_is_exact (T W G P rest k eps Mp rho : Z) :
  0 < W -> 0 < G -> 0 < P -> G * P = T * W -> 1048576 <= T ->
  0 < rest < T -> 0 <= k ->
  1000 * rest = k * T + eps -> 2 * Z.abs eps <= 1000 ->
  4503599627370496 <= Mp ->
  2 * Z.abs (Mp * P - rest * W * 1000000) <= P ->
  2 * Z.abs (rho * G - Mp) <= G ->
  rho = 1000 * k.
Proof.
  intros HW HG HP HGP HT Hrest Hk Heps Habs HMp HC HR.
  assert (HGlow : 4503599628 <= G).
  { assert (H1 : Mp * P <= rest * W * 1000000 + P) by lia.
    assert (H2 : rest * W <= T * W) by (apply Z.mul_le_mono_nonneg_r; lia).
    assert (H3 : Mp * P <= (1000000 * G + 1) * P).
    { replace ((1000000 * G + 1) * P) with (1000000 * (G * P) + P) by ring.
      rewrite HGP. lia. }
    assert (H4 : Mp <= 1000000 * G + 1) by (apply (Z.mul_le_mono_pos_r _ _ P); lia).
    lia. }
  destruct (Z.eq_dec rho (1000 * k)) as [Heq|Hne]; [exact Heq|exfalso].
  set (D := rho - 1000 * k) in *.
  assert (HD : 1 <= Z.abs D) by (unfold D; lia).
  assert (HGP0 : 0 < G * P) by (apply Z.mul_pos_pos; lia).
  assert (Hsplit : D * (G * P)
                   = (rho * G - Mp) * P + (Mp * P - rest * W * 1000000) + 1000 * W * eps).
  { unfold D. replace eps with (1000 * rest - k * T) by lia.
    transitivity (rho * (G * P) - 1000 * k * (G * P)); [ring|].
    rewrite HGP at 2. ring. }
  assert (Hbound : 2 * Z.abs (D * (G * P)) <= G * P + P + 1000000 * W).
  { rewrite Hsplit.
    assert (E1 : Z.abs ((rho * G - Mp) * P) = Z.abs (rho * G - Mp) * P)
      by (rewrite Z.abs_mul, (Z.abs_eq P); lia).
    assert (E2 : Z.abs (1000 * W * eps) = 1000 * W * Z.abs eps)
      by (rewrite Z.abs_mul, (Z.abs_eq (1000 * W)); lia).
    assert (B1 : 2 * Z.abs (rho * G - Mp) * P <= G * P)
      by (apply Z.mul_le_mono_nonneg_r; lia).
    assert (B2 : 1000 * W * (2 * Z.abs eps) <= 1000 * W * 1000)
      by (apply Z.mul_le_mono_nonneg_l; lia).
    pose proof (Z.abs_triangle ((rho * G - Mp) * P + (Mp * P - rest * W * 1000000))
                               (1000 * W * eps)) as T1.
    pose proof (Z.abs_triangle ((rho * G - Mp) * P) (Mp * P - rest * W * 1000000)) as T2.
    rewrite E1 in T2. rewrite E2 in T1.
    remember (Z.abs (rho * G - Mp) * P) as X1.
    remember (Z.abs (Mp * P - rest * W * 1000000)) as X2.
    remember (W * Z.abs eps) as X3.
    replace (2 * Z.abs (rho * G - Mp) * P) with (2 * X1) in B1
      by (rewrite HeqX1; ring).
    replace (1000 * W * (2 * Z.abs eps)) with (2000 * X3) in B2
      by (rewrite HeqX3; ring).
    replace (1000 * W * Z.abs eps) with (1000 * X3) in T1
      by (rewrite HeqX3; ring).
    lia. }
  rewrite Z.abs_mul, (Z.abs_eq (G * P)) in Hbound by lia.
  assert (B3 : 1 * (G * P) <= Z.abs D * (G * P))
    by (apply Z.mul_le_mono_nonneg_r; lia).
  assert (H5 : G * P <= P + 1000000 * W) by lia.
  assert (H6 : (T - 1000000) * W <= P).
  { replace ((T - 1000000) * W) with (T * W - 1000000 * W) by ring.
    rewrite <- HGP. lia. }
  assert (H7 : (T - 1000000) * W * G <= P * G)
    by (apply Z.mul_le_mono_nonneg_r; lia).
  assert (H8 : (T - 1000000) * G <= T).
  { apply (Z.mul_le_mono_pos_r _ _ W); [lia|].
    replace ((T - 1000000) * G * W) with ((T - 1000000) * W * G) by ring.
    rewrite <- HGP. replace (G * P) with (P * G) by ring. exact H7. }
  assert (H9 : (T - 1000000) * 4503599628 <= (T - 1000000) * G)
    by (apply Z.mul_le_mono_nonneg_l; lia).
  lia.
Qed.

Lemma float_of_int_million :
  float_of_int 1000000 = S754_finite false 8589934592000000 (-33).
Proof. reflexivity. Qed.

Lemma timeval_of_quotient (s : bool) (p : positive) :
  Zpos p < 2 ^ 42 ->
  exists t,
    truediv (cond_Zopp s (Zpos p)) 1000 = OK t /\
    _PyTime_ObjectToTimeval t
    = OK (cond_Zopp s (Zpos p) / 1000, cond_Zopp s (Zpos p) mod 1000 * 1000).
Proof.
  intros Hp. destruct (SFdiv_1000_spec s p Hp) as (M & E & Hdiv & HE & HM & Herr).
  exists (S754_finite s M E). split.
  { unfold truediv. destruct s; cbn [cond_Zopp Z.opp]; cbv zeta; rewrite Hdiv; reflexivity. }
  cbv beta iota zeta delta [_PyTime_ObjectToTimeval modf].
  rewrite float_of_int_million.
  rewrite (Z.shiftl_div_pow2 (Zpos M) E) by lia.
  rewrite Z.shiftl_mul_pow2 by lia.
  pose proof (pow2_pos (- E) ltac:(lia)) as HT0.
  assert (HT : 1048576 <= 2 ^ (- E)).
  { change 1048576 with (2 ^ 20). apply Z.pow_le_mono_r; lia. }
  remember (2 ^ (- E)) as T eqn:ET.
  pose proof (Z.div_mod (Zpos M) T ltac:(lia)) as HdmM.
  pose proof (Z.mod_pos_bound (Zpos M) T HT0) as HremM.
  pose proof (Z.div_mod (Zpos p) 1000 ltac:(lia)) as Hdmn.
  pose proof (Z.mod_pos_bound (Zpos p) 1000 ltac:(lia)) as Hremn.
  remember (Zpos M / T) as whole eqn:Ewhole. remember (Zpos M mod T) as rest eqn:Erest.
  remember (Zpos p / 1000) as secs eqn:Esecs. remember (Zpos p mod 1000) as k eqn:Ek.
  replace (Zpos M - whole * T) with rest by lia.
  remember (Zpos M * 1000 - Zpos p * T) as eps eqn:Eeps.
  assert (Heps : 1000 * (whole * T) + 1000 * rest = 1000 * (secs * T) + k * T + eps).
  { rewrite Eeps, HdmM, Hdmn. ring. }
  assert (Hwhole : whole = secs).
  { destruct (Z.lt_trichotomy whole secs) as [H|[H|H]]; [exfalso|exact H|exfalso].
    - assert ((whole + 1) * T <= secs * T) by (apply Z.mul_le_mono_nonneg_r; lia).
      assert (0 <= k * T) by (apply Z.mul_nonneg_nonneg; lia). lia.
    - assert ((secs + 1) * T <= whole * T) by (apply Z.mul_le_mono_nonneg_r; lia).
      assert (k * T <= 999 * T) by (apply Z.mul_le_mono_nonneg_r; lia). lia. }
  assert (Hrest : 1000 * rest = k * T + eps) by (rewrite Hwhole in Heps; lia).
  assert (Hus : round (SFmul prec emax (binary_normalize prec emax (cond_Zopp s rest) E s)
                             (S754_finite false 8589934592000000 (-33)))
                = cond_Zopp s (1000 * k)).
  { destruct (Z.eq_dec rest 0) as [Hr0|Hr0].
    - assert (Hk0 : k = 0).
      { destruct (Z.eq_dec k 0) as [H|H]; [exact H|exfalso].
        assert (1 * T <= k * T) by (apply Z.mul_le_mono_nonneg_r; lia). lia. }
      rewrite Hr0, Hk0. now destruct s.
    - assert (Hr53 : 0 < rest < 2 ^ 53).
      { pose proof (Z.mod_le (Zpos M) T ltac:(lia) HT0). lia. }
      assert (HrT : rest < 2 ^ (- E)) by (rewrite <- ET; lia).
      destruct (binary_normalize_frac s rest E Hr53 HrT HE)
        as (M' & a & -> & Ha & HM' & HM'r & HEa).
      cbn [SFmul]. rewrite xorb_false_r.
      assert (Hprod : 2 ^ 104 <= Zpos (M' * 8589934592000000) < 2 ^ 106).
      { rewrite Pos2Z.inj_mul.
        change (2 ^ 52) with 4503599627370496 in HM'r.
        change (2 ^ 53) with 9007199254740992 in HM'r.
        change (2 ^ 104) with 20282409603651670423947251286016.
        change (2 ^ 106) with 81129638414606681695789005144064. lia. }
      assert (Hdig : 105 <= Zdigits2 (Zpos (M' * 8589934592000000)) <= 106).
      { split.
        - destruct (Z_le_gt_dec 105 (Zdigits2 (Zpos (M' * 8589934592000000)))) as [H|H];
            [exact H|exfalso].
          pose proof (digits2_pos_bounds (M' * 8589934592000000)) as [_ Hhi].
          change (Zpos (digits2_pos (M' * 8589934592000000)))
            with (Zdigits2 (Zpos (M' * 8589934592000000))) in Hhi.
          assert (2 ^ Zdigits2 (Zpos (M' * 8589934592000000)) <= 2 ^ 104)
            by (apply Z.pow_le_mono_r; lia).
          lia.
        - apply Zdigits2_le; lia. }
      destruct (binary_round_aux_spec s (Zpos (M' * 8589934592000000)) (E - a + -33)
                  loc_Exact (Zpos (M' * 8589934592000000)) 1)
        as (Mp & kp & -> & Hkp0 & Hkp & HMp & Hmul); try lia.
      { apply Inv_exact. }
      destruct (round_spec s Mp (E - a + -33 + kp) ltac:(lia))
        as (rho & -> & Hrho0 & Hrho).
      f_equal.
      pose proof (pow2_pos kp Hkp0) as HP.
      pose proof (pow2_pos (a + 33) ltac:(lia)) as HH.
      pose proof (pow2_pos (- (E - a + -33 + kp)) ltac:(lia)) as HG.
      apply (nearest_is_exact T (2 ^ (a + 33)) (2 ^ (- (E - a + -33 + kp))) (2 ^ kp)
               rest k eps (Zpos Mp) rho); try lia.
      + rewrite ET, <- !Z.pow_add_r by lia. f_equal. lia.
      + rewrite Z.mul_1_l in Hmul.
        replace (rest * 2 ^ (a + 33) * 1000000) with (Zpos (M' * 8589934592000000)).
        * exact Hmul.
        * rewrite Pos2Z.inj_mul, HM', Z.pow_add_r by lia.
          change (2 ^ 33) with 8589934592. ring. }
  rewrite Hus, Hwhole. clear Hus.
  destruct s; cbn [cond_Zopp].
  - replace (- (1000 * k) >=? 1000000) with false
      by (symmetry; rewrite Z.geb_leb; apply Z.leb_gt; lia).
    destruct (Z.eq_dec k 0) as [Hk0|Hk0].
    + replace (- (1000 * k) <? 0) with false by (symmetry; apply Z.ltb_ge; lia).
      rewrite <- (Z.div_unique (- Zpos p) 1000 (- secs) 0) by lia.
      rewrite <- (Z.mod_unique (- Zpos p) 1000 (- secs) 0) by lia.
      rewrite Hk0. reflexivity.
    + replace (- (1000 * k) <? 0) with true by (symmetry; apply Z.ltb_lt; lia).
      rewrite <- (Z.div_unique (- Zpos p) 1000 (- secs - 1) (1000 - k)) by lia.
      rewrite <- (Z.mod_unique (- Zpos p) 1000 (- secs - 1) (1000 - k)) by lia.
      f_equal. f_equal. ring.
  - replace (1000 * k >=? 1000000) with false
      by (symmetry; rewrite Z.geb_leb; apply Z.leb_gt; lia).
    replace (1000 * k <? 0) with false by (symmetry; apply Z.ltb_ge; lia).
    rewrite <- Esecs, <- Ek. f_equal. f_equal. ring.
Qed.

(** An integer of milliseconds within 2^42 of zero, divided by 1000 as a
    float, splits into its whole seconds and its milliseconds exactly. *)
Lemma timeval_of_millis (millis : Z) :
  - 2 ^ 42 < millis < 2 ^ 42 ->
  exists seconds,
    truediv millis 1000 = OK seconds /\
    _PyTime_ObjectToTimeval seconds = OK (millis / 1000, millis mod 1000 * 1000).
Proof.
  intros [Hlo Hhi]. destruct millis as [|p|p].
  - exists (S754_zero false). split; reflexivity.
  - exact (timeval_of_quotient false p Hhi).
  - apply (timeval_of_quotient true p). change (Zpos p) with (- Zneg p). lia.
Qed.

Section MessageProperties.
Context {B : Builtins}.

(** Within 2^42 milliseconds of the epoch the date of a raw message is that
    of its whole second and its milliseconds. *)
Lemma message_date_in_range (raw : RawMessage) (millis : Z) :
  int (raw_internalDate raw) = OK millis ->
  - 2 ^ 42 < millis < 2 ^ 42 ->
  message_date raw
  = datetime_from_timet_and_us (millis / 1000) (millis mod 1000 * 1000).
Proof.
  intros Hint Hrange. unfold message_date. rewrite Hint. simpl.
  destruct (timeval_of_millis millis Hrange) as (seconds & -> & Htv). simpl.
  unfold fromtimestamp. rewrite Htv. reflexivity.
Qed.

(** C3: building the message of a well-formed raw record succeeds
    whatever the bodies of its parts hold, and appends to the buffer of
    empty bodies exactly one descriptor for each part record whose body
    has neither inline data nor an attachment id, in the order of the
    records, naming the message and carrying that body. *)
Theorem empty_body_reported_once :
  forall (raw : RawMessage) (c : ApiConversionContext),
    wf_message raw = true ->
    exists m c',
      parse_api_message raw c = OK (m, c') /\
      empty_bodies c' = empty_bodies c ++ empty_body_descriptors m /\
      Forall (fun d => message d = Some m) (empty_body_descriptors m) /\
      map gmail_msg_body_part (empty_body_descriptors m)
      = map _parse_message_part_body_obj
            (filter raw_has_no_content (map raw_body (raw_all_parts (raw_payload raw)))) /\
      List.length (empty_bodies c')
      = (List.length (empty_bodies c)
         + List.length (filter (fun r => raw_has_no_content (raw_body r))
                               (raw_all_parts (raw_payload raw))))%nat.
Proof.
  intros raw c Hwf.
  destruct (parse_api_message_wf raw c Hwf) as (p & date & _ & (_ & _ & Hb) & _ & E).
  destruct (Message_new (raw_id raw) (raw_threadId raw) date
                        (raw_snippet raw) p c) as [m c'] eqn:EM.
  assert (Hpay : msg_payload m = p) by (unfold Message_new in EM; now injection EM as <- _).
  exists m, c'. split; [exact E|].
  destruct (parse_api_message_effect raw c c' m E) as (He & _ & _).
  assert (Hbodies :
    map gmail_msg_body_part (empty_body_descriptors m)
    = map _parse_message_part_body_obj
          (filter raw_has_no_content (map raw_body (raw_all_parts (raw_payload raw))))).
  { unfold empty_body_descriptors. rewrite Hpay, map_map. simpl.
    rewrite <- (filter_map_comm body has_no_content), Hb.
    rewrite <- (map_map raw_body _parse_message_part_body_obj).
    now rewrite (filter_map_comm _parse_message_part_body_obj has_no_content). }
  split; [exact He|]. split.
  { unfold empty_body_descriptors. apply Forall_forall. intros d Hd.
    apply in_map_iff in Hd. now destruct Hd as (mp & <- & _). }
  split; [exact Hbodies|].
  rewrite He, length_app. f_equal.
  rewrite <- (length_map gmail_msg_body_part), Hbodies, length_map.
  now rewrite filter_map_comm, length_map.
Qed.

(** C6: the message built from a well-formed raw record carries the date
    obtained from the internal date read as an integer of milliseconds:
    that integer divided by 1000, as a float of seconds after the epoch,
    turned into a local date and time by datetime.fromtimestamp; next to
    it the message id, the thread id, the snippet and the parsed root
    part.  Within 2^42 milliseconds of the epoch (the years 1831 to 2108)
    the float loses nothing: the date is the local date and time of the
    whole second, the integer quotient by 1000, and its microseconds are
    the remaining milliseconds. *)
Theorem parse_api_message_timestamp :
  forall (message : RawMessage) (c : ApiConversionContext),
    wf_message message = true ->
    exists m c' millis seconds,
      parse_api_message message c = OK (m, c') /\
      int (raw_internalDate message) = OK millis /\
      truediv millis 1000 = OK seconds /\
      fromtimestamp seconds = OK (msg_date m) /\
      (- 2 ^ 42 < millis < 2 ^ 42 ->
       datetime_from_timet_and_us (millis / 1000) (millis mod 1000 * 1000)
       = OK (msg_date m)) /\
      msg_id m = raw_id message /\
      msg_threadId m = raw_threadId message /\
      msg_snippet m = raw_snippet message /\
      parse_message_part (raw_payload message) (raw_id message) = OK (msg_payload m).
Proof.
  intros message c Hwf.
  destruct (parse_api_message_wf message c Hwf) as (p & date & Hp & _ & Hd & E).
  pose proof Hd as Hdate. unfold message_date in Hd.
  destruct (int (raw_internalDate message)) as [millis|] eqn:Hint; [|discriminate].
  simpl in Hd. destruct (truediv millis 1000) as [seconds|] eqn:Hs; [|discriminate].
  simpl in Hd. unfold Message_new in E.
  eexists. eexists. exists millis, seconds.
  split; [exact E|]. simpl. repeat split; try assumption.
  intros Hr. now rewrite <- (message_date_in_range message millis Hint Hr).
Qed.

End MessageProperties.

(** ** The limit *)

Lemma allowance_nil (l : option Z) (n : Z) : allowance l n 0 = 0%nat.
Proof.
  unfold allowance. destruct l as [L|]; [|reflexivity]. now destruct (L =? 0).
Qed.

Lemma allowance_reached (p : Progress) (len : nat) :
  is_limit_reached (incr_processed_items p) = true ->
  allowance (limit p) (processed_items p) len = 0%nat.
Proof.
  intros H. apply is_limit_reached_iff in H. simpl in H.
  destruct H as (L & -> & HL & Hlt). unfold allowance.
  destruct (Z.eqb_spec L 0); [contradiction|].
  replace (Z.to_nat (L - processed_items p)) with 0%nat by lia. apply Nat.min_0_r.
Qed.

Lemma allowance_not_reached (p : Progress) (len : nat) :
  is_limit_reached (incr_processed_items p) = false ->
  allowance (limit p) (processed_items p) (S len)
  = S (allowance (limit p) (processed_items p + 1) len).
Proof.
  intros H. apply is_limit_reached_false_iff in H. simpl in H. unfold allowance.
  destruct (limit p) as [L|]; [|reflexivity].
  destruct (Z.eqb_spec L 0); [reflexivity|].
  destruct H as [H|H]; [contradiction|].
  replace (Z.to_nat (L - processed_items p))
    with (S (Z.to_nat (L - (processed_items p + 1)))) by lia.
  reflexivity.
Qed.

Lemma allowance_le (l : option Z) (n : Z) (len : nat) : (allowance l n len <= len)%nat.
Proof.
  unfold allowance. destruct l as [L|]; [|lia]. destruct (L =? 0); lia.
Qed.

(** ** Fetching one thread *)

Section SessionProperties.
Context {B : Builtins} {G : GmailService} {O : Type} {F : ApiFetchingContext O}.

Lemma handle_empty_bodies_owned (c : ApiConversionContext) (tr : list Event) :
  Forall has_owner (empty_bodies c) ->
  exists c' es,
    handle_empty_bodies _query_attachment_of_descriptor c tr = OK (c', tr ++ es) /\
    empty_bodies c' = [] /\
    decode_errors c' = decode_errors c /\
    progress c' = progress c /\
    listed es = [] /\ candidates es = [] /\ fetched es = [] /\ warnings es = [].
Proof.
  intros H. destruct (deferred_fetches_owned _ tr H) as (es & E & H1 & H2 & H3 & H4).
  unfold handle_empty_bodies. rewrite E. simpl. eexists. exists es.
  split; [reflexivity|]. simpl. auto 10.
Qed.

Lemma fetch_thread_ok (sanity_check : bool) (id : option string) (ts : GmailThreads)
    (s : State O) :
  empty_bodies (ctx s) = [] ->
  fetchable id ->
  exists t s',
    fetch_thread sanity_check id ts s = OK (ts ++ [t], s') /\
    thread_id t = id /\
    (exists first rest, messages t = first :: rest /\ subject t = msg_subject first) /\
    progress (ctx s') = progress (ctx s) /\
    decode_errors (ctx s') = decode_errors (ctx s) ++ thread_decode_errors t /\
    empty_bodies (ctx s') = [] /\
    fetched (trace s') = fetched (trace s) ++ [id] /\
    listed (trace s') = listed (trace s) /\
    candidates (trace s') = candidates (trace s) /\
    warnings (trace s') = warnings (trace s) /\
    api_fetching_ctx s' = process_thread (api_fetching_ctx s) (threads_get USERID_ME id) t.
Proof.
  intros Hempty Hwf. unfold fetchable, wf_thread_response, parsable_thread_response in Hwf.
  apply andb_true_iff in Hwf. destruct Hwf as [Hparse Hne].
  destruct (tr_messages (threads_get USERID_ME id)) as [raws|] eqn:Eraw; [|discriminate].
  destruct (parse_api_messages_wf raws Hparse (ctx s)) as (ms & c1 & Ems).
  destruct (parse_api_messages_effect raws _ _ _ Ems) as (Hlen & He & Hd & Hp).
  assert (Hown : Forall has_owner (empty_bodies c1)).
  { rewrite He, Hempty. simpl. apply Forall_flat_map, Forall_forall.
    intros m _. apply empty_body_descriptors_owned. }
  destruct (handle_empty_bodies_owned c1 (trace s ++ [ThreadsGet USERID_ME id]) Hown)
    as (c2 & es & Eh & He2 & Hd2 & Hp2 & L & C & Fe & W).
  unfold fetch_thread, _query_thread_data. rewrite Eraw. cbv beta iota zeta.
  rewrite Ems. cbv beta iota zeta delta [bind]. rewrite Eh. cbv beta iota zeta.
  destruct ms as [|first rest]; [destruct raws; discriminate|].
  eexists. eexists. split; [reflexivity|]. simpl.
  autorewrite with trace. rewrite L, C, Fe, W, Hd2, Hd, Hp2, Hp, !app_nil_r.
  repeat split; eauto.
Qed.

(** A thread without messages cannot be assembled. *)
Lemma fetch_thread_no_messages (sanity_check : bool) (id : option string)
    (ts : GmailThreads) (s : State O) :
  empty_bodies (ctx s) = [] ->
  tr_messages (threads_get USERID_ME id) = Some [] ->
  fetch_thread sanity_check id ts s = Raise IndexError.
Proof.
  intros Hempty Hraw. unfold fetch_thread, _query_thread_data. rewrite Hraw. simpl.
  unfold handle_empty_bodies. now rewrite Hempty.
Qed.

End SessionProperties.

(** ** The loop over the ids of a page *)

Section LoopProperties.
Context {B : Builtins} {G : GmailService} {O : Type} {F : ApiFetchingContext O}.

Lemma for_thread_ids_spec (sanity_check : bool) (l : option Z) :
  forall (ids : list (option string)) (ts : GmailThreads) (s : State O),
    Running l ids ts s ->
    let k := allowance l (Z.of_nat (List.length ts)) (List.length ids) in
    Forall fetchable (firstn k ids) ->
    exists new s',
      map thread_id new = firstn k ids /\
      api_fetching_ctx s'
      = fold_left (fun o t => process_thread o (threads_get USERID_ME (thread_id t)) t)
                  new (api_fetching_ctx s) /\
      listed (trace s') = listed (trace s) /\
      candidates (trace s') = candidates (trace s) /\
      ((k = List.length ids /\
        for_thread_ids sanity_check ids ts s = OK (Continue (ts ++ new) s') /\
        Running l [] (ts ++ new) s')
       \/
       ((k < List.length ids)%nat /\
        for_thread_ids sanity_check ids ts s = OK (Return (ts ++ new) s') /\
        Stopped l (skipn k ids) (ts ++ new) s')).
Proof.
  induction ids as [|id rest IH]; intros ts s HR k Hf.
  - subst k. rewrite allowance_nil in *. exists [], s. simpl.
    repeat split. left. rewrite app_nil_r. auto.
  - destruct HR as [Hl Hp Hn Hd He Hfe Hc Hw Hrq Hit].
    set (s1 := with_progress incr_processed_items s).
    simpl for_thread_ids. fold s1.
    destruct (is_limit_reached (incr_processed_items (progress (ctx s)))) eqn:R.
    + (* the limit is reached: return *)
      pose proof (allowance_reached _ (S (List.length rest)) R) as Hk.
      rewrite Hl, Hp in Hk. subst k. simpl List.length in *. rewrite Hk in *.
      exists [], (log (LogWarning (limit (progress (ctx s1)))) s1). simpl firstn.
      split; [reflexivity|]. split; [reflexivity|].
      split; [simpl; autorewrite with trace; simpl; now rewrite app_nil_r|].
      split; [simpl; autorewrite with trace; simpl; now rewrite app_nil_r|].
      right. rewrite app_nil_r. split; [lia|]. split; [reflexivity|].
      constructor; simpl; autorewrite with trace; simpl;
        rewrite ?app_nil_r; try assumption; try congruence.
      rewrite Hw, Hl. reflexivity.
    + (* the limit is not reached: fetch the thread and go on *)
      pose proof (allowance_not_reached _ (List.length rest) R) as Hk.
      rewrite Hl, Hp in Hk. subst k. simpl List.length in Hf |- *.
      rewrite Hk in Hf |- *. simpl firstn in Hf |- *.
      apply Forall_cons_iff in Hf. destruct Hf as [Hid Hf].
      set (s2 := log (LogDebugProcessing (processed_items (progress (ctx s1)))
                                         (all_items_count (progress (ctx s1)))) s1).
      destruct (fetch_thread_ok sanity_check id ts s2 He Hid)
        as (t & s3 & Efetch & Hid3 & _ & Hp3 & Hd3 & He3 & Hf3 & Hl3 & Hc3 & Hw3 & Ho3).
      match goal with
      | |- context [fetch_thread sanity_check id ts ?x] => change x with s2
      end.
      rewrite Efetch. cbv beta iota zeta delta [bind].
      assert (Hlen : Z.of_nat (List.length (ts ++ [t])) = Z.of_nat (List.length ts) + 1)
        by (rewrite length_app; simpl; lia).
      assert (HR3 : Running l rest (ts ++ [t]) s3).
      { constructor; rewrite ?Hp3, ?Hd3, ?Hf3, ?Hc3, ?Hw3, ?Hl3;
          simpl; autorewrite with trace; simpl; rewrite ?app_nil_r; try assumption.
        - rewrite Hlen, Hp. reflexivity.
        - right. apply is_limit_reached_false_iff in R. simpl in R.
          rewrite Hl, Hp in R. unfold never_reached. destruct l as [L|]; [|exact I].
          rewrite length_app. simpl. lia.
        - rewrite flat_map_app, Hd. simpl. now rewrite app_nil_r.
        - rewrite map_app, Hfe. simpl. now rewrite Hid3.
        - rewrite map_app, Hc, <- app_assoc. simpl. now rewrite Hid3. }
      rewrite <- Hlen in Hf |- *.
      destruct (IH (ts ++ [t]) s3 HR3 Hf)
        as (new & s' & Hnew & Ho & Hli & Hca & Hcases).
      exists (t :: new), s'. simpl map. rewrite Hid3, Hnew.
      split; [reflexivity|]. split; [simpl; now rewrite Ho, Ho3, Hid3|].
      split.
      { rewrite Hli, Hl3. simpl. autorewrite with trace. simpl. now rewrite app_nil_r. }
      split.
      { rewrite Hca, Hc3. simpl. autorewrite with trace. simpl. now rewrite app_nil_r. }
      replace (ts ++ t :: new) with ((ts ++ [t]) ++ new) by now rewrite <- app_assoc.
      destruct Hcases as [(Ek & Er & HRn)|(Ek & Er & HS)].
      * left. split; [now rewrite Ek|]. auto.
      * right. split; [lia|]. auto.
Qed.

End LoopProperties.

(** ** The loop over the pages *)

(** The while loop as the source writes it: execute the request, process
    a non-empty response, ask [list_next] for the next request. *)
Lemma while_request_eq {B : Builtins} {G : GmailService} {O : Type}
    {F : ApiFetchingContext O} (sanity_check expect_one : bool) (request : Request)
    (threads : GmailThreads) (s : State O) :
  while_request sanity_check expect_one request threads s =
  (let response := execute request in
   let s := log (ThreadsListExecute response) s in
   r <- (if truthy response
         then process_response sanity_check expect_one response threads s
         else OK (Continue threads s)) ;;
   match r with
   | Return threads s => OK (LimitReached, threads, s)
   | Continue threads s =>
       match list_next request response with
       | Some request' => while_request sanity_check expect_one request' threads s
       | None => OK (Exhausted, threads, finalized s)
       end
   end)%result.
Proof.
  destruct request as [response next]. simpl. unfold list_next.
  destruct (if truthy response then _ else _) as [[ts' s'|ts' s']|e]; simpl; try reflexivity.
  destruct next as [request'|], (truthy (resp_nextPageToken response)); reflexivity.
Qed.

Lemma Request_induction (P : Request -> Prop) :
  (forall response, P (Req response None)) ->
  (forall response request', P request' -> P (Req response (Some request'))) ->
  forall request, P request.
Proof.
  intros HN HS. fix IH 1. intros [response [request'|]].
  - apply HS, IH.
  - apply HN.
Qed.

Lemma falsy_response_has_no_ids (response : ThreadsResponse) :
  truthy response = false -> page_ids response = [].
Proof.
  unfold truthy, truthy_response, page_ids.
  destruct (resp_threads response); [discriminate | reflexivity].
Qed.

Section PageProperties.
Context {B : Builtins} {G : GmailService} {O : Type} {F : ApiFetchingContext O}.

Lemma register_response_running (expect_one : bool) (l : option Z)
    (response : ThreadsResponse) (ts : GmailThreads) (s : State O) :
  Running l [] ts s ->
  truthy response = true ->
  let r := register_response expect_one response (log (ThreadsListExecute response) s) in
  Running l (fst r) ts (snd r) /\
  fst r = fst (get_thread_ids_to_query_from_api (api_fetching_ctx s) (page_ids response)
                                                expect_one) /\
  listed (trace (snd r)) = listed (trace s) ++ [response] /\
  candidates (trace (snd r)) = candidates (trace s) ++ fst r.
Proof.
  intros [Hl Hp Hn Hd He Hfe Hc Hw Hrq Hit] Ht. unfold register_response. simpl.
  fold (page_ids response).
  destruct (get_thread_ids_to_query_from_api (api_fetching_ctx s) (page_ids response)
                                             expect_one) as [ids o].
  simpl. autorewrite with trace. simpl. rewrite !app_nil_r.
  split; [|split; [|split]; reflexivity].
  constructor; simpl; autorewrite with trace; simpl; rewrite ?app_nil_r; try assumption.
  - rewrite Hc, app_nil_r. reflexivity.
  - rewrite filter_app, length_app. cbn [filter]. rewrite Ht, Hrq. cbn [List.length]. lia.
  - rewrite flat_map_app, length_app. cbn [flat_map]. rewrite app_nil_r, Hit.
    unfold page_ids. rewrite length_map. lia.
Qed.

Lemma skipped_response_running (l : option Z) (response : ThreadsResponse)
    (ts : GmailThreads) (s : State O) :
  Running l [] ts s ->
  truthy response = false ->
  Running l [] ts (log (ThreadsListExecute response) s).
Proof.
  intros [Hl Hp Hn Hd He Hfe Hc Hw Hrq Hit] Ht.
  constructor; simpl; autorewrite with trace; simpl; rewrite ?app_nil_r; try assumption.
  - now rewrite Hc, app_nil_r.
  - rewrite filter_app. cbn [filter]. rewrite Ht, app_nil_r. exact Hrq.
  - rewrite flat_map_app. cbn [flat_map].
    rewrite (falsy_response_has_no_ids response Ht), !app_nil_r. exact Hit.
Qed.

(** One turn of the while loop, up to the test for a next page. *)
Lemma page_spec (sanity_check expect_one : bool) (l : option Z)
    (response : ThreadsResponse) (ts : GmailThreads) (s : State O) :
  (forall id, fetchable id) ->
  Running l [] ts s ->
  exists r new s',
    (if truthy response
     then process_response sanity_check expect_one response ts
                           (log (ThreadsListExecute response) s)
     else OK (Continue ts (log (ThreadsListExecute response) s))) = OK r /\
    listed (trace s') = listed (trace s) ++ [response] /\
    (accepts_all -> candidates (trace s') = candidates (trace s) ++ page_ids response) /\
    ((r = Continue (ts ++ new) s' /\ Running l [] (ts ++ new) s')
     \/ (r = Return (ts ++ new) s' /\ exists rest, Stopped l rest (ts ++ new) s')).
Proof.
  intros Hwf HR. destruct (truthy response) eqn:Ht.
  - destruct (register_response_running expect_one l response ts s HR Ht)
      as (HR1 & Hids & Hli & Hca).
    unfold process_response.
    destruct (register_response expect_one response (log (ThreadsListExecute response) s))
      as [ids s1].
    simpl in HR1, Hids, Hli, Hca.
    assert (Hf : Forall fetchable
                   (firstn (allowance l (Z.of_nat (List.length ts)) (List.length ids)) ids))
      by (apply Forall_forall; intros id _; apply Hwf).
    destruct (for_thread_ids_spec sanity_check l ids ts s1 HR1 Hf)
      as (new & s' & Hnew & _ & Hli' & Hca' & Hcases).
    assert (Hcand : accepts_all ->
                    candidates (trace s') = candidates (trace s) ++ page_ids response).
    { intros Hall. rewrite (Hall _ _ _) in Hids. now rewrite Hca', Hca, Hids. }
    destruct Hcases as [(_ & -> & HRn)|(_ & -> & HS)].
    + exists (Continue (ts ++ new) s'), new, s'. rewrite Hli', Hli. auto 10.
    + exists (Return (ts ++ new) s'), new, s'. rewrite Hli', Hli.
      split; [reflexivity|]. split; [reflexivity|]. split; [exact Hcand|]. right. eauto.
  - exists (Continue ts (log (ThreadsListExecute response) s)), [],
           (log (ThreadsListExecute response) s).
    rewrite app_nil_r. split; [reflexivity|].
    split; [simpl; autorewrite with trace; reflexivity|].
    split.
    { intros _. rewrite (falsy_response_has_no_ids response Ht). simpl.
      autorewrite with trace. simpl. reflexivity. }
    left. split; [reflexivity|]. now apply skipped_response_running.
Qed.

End PageProperties.

Section WhileProperties.
Context {B : Builtins} {G : GmailService} {O : Type} {F : ApiFetchingContext O}.

Lemma while_request_spec (sanity_check expect_one : bool) (l : option Z) :
  (forall id, fetchable id) ->
  forall (request : Request) (ts : GmailThreads) (s : State O),
    Running l [] ts s ->
    exists exit new s' unseen,
      while_request sanity_check expect_one request ts s = OK (exit, ts ++ new, s') /\
      listed (trace s') ++ unseen = listed (trace s) ++ pages request /\
      (accepts_all ->
       candidates (trace s') ++ flat_map page_ids unseen
       = candidates (trace s) ++ flat_map page_ids (pages request)) /\
      match exit with
      | Exhausted =>
          unseen = [] /\ exists s'', Running l [] (ts ++ new) s'' /\ s' = finalized s''
      | LimitReached => exists rest, Stopped l rest (ts ++ new) s'
      end.
Proof.
  intros Hwf.
  induction request as [response|response request' IH] using Request_induction;
    intros ts s HR;
    destruct (page_spec sanity_check expect_one l response ts s Hwf HR)
      as (r & new & s1 & Er & Hli & Hca & [(-> & HR1)|(-> & rest & HS)]);
    rewrite while_request_eq; simpl pages; unfold list_next, execute;
    cbv beta iota zeta; rewrite Er; cbv beta iota zeta delta [bind];
    destruct (truthy (resp_nextPageToken response)).
  1, 2, 6: exists Exhausted, new, (finalized s1), []; simpl; rewrite !app_nil_r;
    split; [reflexivity|]; split; [exact Hli|]; split; [exact Hca|]; eauto.
  1, 2, 5: exists LimitReached, new, s1, []; simpl; rewrite !app_nil_r;
    split; [reflexivity|]; split; [exact Hli|]; split; [exact Hca|]; eauto.
  - destruct (IH (ts ++ new) s1 HR1) as (exit & new' & s' & unseen & E & Hli' & Hca' & Hex).
    exists exit, (new ++ new'), s', unseen. rewrite app_assoc.
    split; [exact E|]. split; [|split].
    + rewrite Hli', Hli, <- app_assoc. reflexivity.
    + intros Hall. rewrite (Hca' Hall), (Hca Hall), <- app_assoc. reflexivity.
    + exact Hex.
  - exists LimitReached, new, s1, (pages request').
    split; [reflexivity|]. split; [|split].
    + rewrite Hli, <- app_assoc. reflexivity.
    + intros Hall. rewrite (Hca Hall), <- app_assoc. reflexivity.
    + eauto.
Qed.

Lemma fresh_session_running (l : option Z) (o : O) :
  Running l [] [] (mkState (ApiConversionContext_new THREAD l) o []).
Proof.
  constructor; simpl; auto.
Qed.

(** What a session over threads that can all be fetched returns. *)
Lemma session_spec (query : option string) (l : option Z)
    (sanity_check expect_one : bool) (o : O) :
  (forall id, fetchable id) ->
  exists exit ts s unseen,
    query_threads_with_paging query l sanity_check expect_one o = OK (exit, ts, s) /\
    listed (trace s) ++ unseen = pages (threads_list (list_kwargs query l)) /\
    (accepts_all ->
     candidates (trace s) ++ flat_map page_ids unseen
     = flat_map page_ids (pages (threads_list (list_kwargs query l)))) /\
    match exit with
    | Exhausted => unseen = [] /\ exists s'', Running l [] ts s'' /\ s = finalized s''
    | LimitReached => exists rest, Stopped l rest ts s
    end.
Proof.
  intros Hwf. unfold query_threads_with_paging.
  destruct (while_request_spec sanity_check expect_one l Hwf
              (threads_list (list_kwargs query l)) GmailThreads_new _
              (fresh_session_running l o))
    as (exit & new & s' & unseen & E & Hli & Hca & Hex).
  exists exit, new, s', unseen. auto.
Qed.

End WhileProperties.

(** ** The session *)

Lemma firstn_length_app {A} (l1 l2 : list A) : firstn (List.length l1) (l1 ++ l2) = l1.
Proof.
  rewrite firstn_app, Nat.sub_diag, firstn_all. simpl. apply app_nil_r.
Qed.

Section SessionResults.
Context {B : Builtins} {G : GmailService} {O : Type} {F : ApiFetchingContext O}.

(** C1, as the code has it: the limit is reached exactly when a limit other than 0
    is configured and the count of processed items strictly exceeds it.
    For a limit L >= 1 the session stops exactly when the count first
    exceeds L: the threads returned are those of the first L ids the
    fetching context asked for, the candidate counted as number L + 1 is
    not fetched and not added, and the session stops early exactly when
    there is such a candidate. *)
Theorem limit_stops_after_L_items :
  forall (query : option string) (L : Z) (sanity_check expect_one : bool) (o : O),
    1 <= L ->
    (forall id, fetchable id) ->
    (forall p, is_limit_reached p = true <->
               exists l, limit p = Some l /\ l <> 0 /\ l < processed_items p) /\
    exists exit ts s,
      query_threads_with_paging query (Some L) sanity_check expect_one o
      = OK (exit, ts, s) /\
      map thread_id ts = firstn (Z.to_nat L) (candidates (trace s)) /\
      fetched (trace s) = map thread_id ts /\
      (exit = LimitReached <-> L < Z.of_nat (List.length (candidates (trace s)))) /\
      (exit = LimitReached ->
       Z.of_nat (List.length ts) = L /\
       processed_items (progress (ctx s)) = L + 1 /\
       is_limit_reached (progress (ctx s)) = true) /\
      (exit = Exhausted ->
       Z.of_nat (List.length ts) <= L /\
       processed_items (progress (ctx s)) = Z.of_nat (List.length ts) /\
       is_limit_reached (progress (ctx s)) = false).
Proof.
  intros query L sanity_check expect_one o HL Hwf.
  split; [exact is_limit_reached_iff|].
  destruct (session_spec query (Some L) sanity_check expect_one o Hwf)
    as (exit & ts & s & unseen & E & _ & _ & Hex).
  exists exit, ts, s. split; [exact E|].
  destruct exit.
  - destruct Hex as (rest & [Hl Hp Hr Hnb _ _ Hfe Hc Hrest _]).
    assert (Hlen : Z.of_nat (List.length ts) = L).
    { apply is_limit_reached_iff in Hr. destruct Hr as (l & El & _ & Hlt).
      rewrite Hl in El. injection El as <-. rewrite Hp in Hlt.
      destruct Hnb as [->|[H0|Hle]]; simpl in *; lia. }
    assert (Hn : Z.to_nat L = List.length (map thread_id ts))
      by (rewrite length_map; lia).
    rewrite Hc, Hn, firstn_length_app, length_app, length_map.
    split; [reflexivity|]. split; [exact Hfe|]. split; [|split].
    + split; [intros _|reflexivity]. destruct rest; [contradiction|]. simpl. lia.
    + intros _. rewrite Hp. auto with zarith.
    + discriminate.
  - destruct Hex as (_ & s'' & [Hl Hp Hnr _ _ Hfe Hc _ _ _] & ->). simpl.
    rewrite app_nil_r in Hc.
    assert (Hle : Z.of_nat (List.length ts) <= L).
    { destruct Hnr as [->|[H0|Hle]]; simpl in *; lia. }
    rewrite Hc, firstn_all2 by (rewrite length_map; lia).
    rewrite length_map.
    split; [reflexivity|]. split; [exact Hfe|]. split; [|split].
    + split; [discriminate | lia].
    + discriminate.
    + intros _. split; [exact Hle|]. split; [exact Hp|].
      apply is_limit_reached_false_iff. rewrite Hl, Hp. auto.
Qed.

(** C9: a session that returns because the limit is reached skips the
    final drain: the decode errors of the threads it returns are still in
    the buffer of the conversion context; a session that returns after
    the last page has cleared the buffer. *)
Theorem early_return_keeps_decode_errors :
  forall (query : option string) (l : option Z) (sanity_check expect_one : bool) (o : O),
    (forall id, fetchable id) ->
    exists exit ts s,
      query_threads_with_paging query l sanity_check expect_one o = OK (exit, ts, s) /\
      (exit = LimitReached ->
       decode_errors (ctx s) = flat_map thread_decode_errors ts /\
       warnings (trace s) = [l]) /\
      (exit = Exhausted ->
       decode_errors (ctx s) = [] /\
       warnings (trace s) = [] /\
       exists s', s = finalized s' /\
                  decode_errors (ctx s') = flat_map thread_decode_errors ts).
Proof.
  intros query l sanity_check expect_one o Hwf.
  destruct (session_spec query l sanity_check expect_one o Hwf)
    as (exit & ts & s & unseen & E & _ & _ & Hex).
  exists exit, ts, s. split; [exact E|].
  destruct exit.
  - destruct Hex as (rest & HS). split; [|discriminate].
    intros _. split; [apply (stop_decode_errors HS) | apply (stop_warnings HS)].
  - destruct Hex as (_ & s'' & HR & ->). split; [discriminate|].
    intros _. split; [reflexivity|]. split; [apply (run_warnings HR)|].
    exists s''. split; [reflexivity | apply (run_decode_errors HR)].
Qed.

(** C5: when the fetching context asks for every candidate, every thread
    can be fetched and the limit is not reached by the number of ids on
    all pages, the session requests every page of the chain once, in
    order, ends after the page that has no successor, and fetches and
    returns the thread of every id on every page exactly once, in order. *)
Theorem pagination_visits_every_item_once :
  forall (query : option string) (l : option Z) (sanity_check expect_one : bool) (o : O),
    accepts_all ->
    (forall id, fetchable id) ->
    never_reached l (List.length
                       (flat_map page_ids (pages (threads_list (list_kwargs query l))))) ->
    exists ts s,
      query_threads_with_paging query l sanity_check expect_one o
      = OK (Exhausted, ts, s) /\
      listed (trace s) = pages (threads_list (list_kwargs query l)) /\
      map thread_id ts = flat_map page_ids (pages (threads_list (list_kwargs query l))) /\
      fetched (trace s) = flat_map page_ids (pages (threads_list (list_kwargs query l))) /\
      requests_count (progress (ctx s))
      = Z.of_nat (List.length (filter truthy (pages (threads_list (list_kwargs query l))))) /\
      all_items_count (progress (ctx s)) = Z.of_nat (List.length ts) /\
      processed_items (progress (ctx s)) = Z.of_nat (List.length ts).
Proof.
  intros query l sanity_check expect_one o Hall Hwf Hnever.
  destruct (session_spec query l sanity_check expect_one o Hwf)
    as (exit & ts & s & unseen & E & Hli & Hca & Hex).
  specialize (Hca Hall). set (all := pages (threads_list (list_kwargs query l))) in *.
  destruct exit.
  - exfalso. destruct Hex as (rest & [Hl Hp Hr _ _ _ _ Hc Hrest _]).
    apply is_limit_reached_iff in Hr. destruct Hr as (L & El & HL0 & Hlt).
    rewrite Hl in El. rewrite Hp in Hlt.
    rewrite <- Hca, Hc, !length_app, length_map, El in Hnever.
    destruct rest; [contradiction|]. simpl in Hnever. lia.
  - destruct Hex as (-> & s'' & [Hl Hp _ _ _ Hfe Hc _ Hrq Hit] & ->).
    simpl in Hli, Hca, Hc. rewrite app_nil_r in Hli, Hca, Hc.
    assert (Hids : map thread_id ts = flat_map page_ids all) by now rewrite <- Hca, Hc.
    exists ts, (finalized s''). simpl.
    split; [exact E|]. split; [exact Hli|]. split; [exact Hids|].
    split; [now rewrite Hfe|]. split; [now rewrite Hrq, Hli|].
    split; [now rewrite Hit, Hli, <- Hids, length_map | exact Hp].
Qed.

(** C10: the thread is assembled from [messages[0]]: when the detail of a
    thread holds at least one message the subject of the Thread is the
    subject of its first message, and when it holds none the fetch
    raises IndexError. *)
Theorem thread_subject_from_first_message :
  forall (sanity_check : bool) (id : option string) (threads : GmailThreads) (s : State O),
    empty_bodies (ctx s) = [] ->
    (tr_messages (threads_get USERID_ME id) = Some [] ->
     fetch_thread sanity_check id threads s = Raise IndexError) /\
    (fetchable id ->
     exists t s' first rest,
       fetch_thread sanity_check id threads s = OK (threads ++ [t], s') /\
       t = mkThread id (msg_subject first) (first :: rest) /\
       nth_error (messages t) 0 = Some first /\
       subject t = msg_subject first /\
       List.length (messages t)
       = List.length (get_field_or (tr_messages (threads_get USERID_ME id)) [])).
Proof.
  intros sanity_check id threads s Hempty. split.
  - apply fetch_thread_no_messages. exact Hempty.
  - intros Hwf.
    destruct (fetch_thread_ok sanity_check id threads s Hempty Hwf)
      as (t & s' & E & Hid & (first & rest & Hm & Hs) & _).
    exists t, s', first, rest. split; [exact E|].
    assert (Ht : t = mkThread id (msg_subject first) (first :: rest))
      by (destruct t; simpl in *; congruence).
    split; [exact Ht|]. rewrite Hm. split; [reflexivity|]. split; [exact Hs|].
    unfold fetch_thread, _query_thread_data in E.
    destruct (tr_messages (threads_get USERID_ME id)) as [raws|]; [|discriminate].
    inv_bind E. destruct a as [ms c]. inv_bind E. destruct a as [c' tr].
    destruct ms as [|m ms]; [discriminate|].
    injection E as E _. apply app_inj_tail in E. destruct E as [_ <-].
    simpl in Hm. injection Hm as -> ->.
    apply parse_api_messages_effect in E0. exact (proj1 E0).
Qed.

End SessionResults.

Section LimitScenario.
Context {B : Builtins} {G : GmailService} {O : Type} {F : ApiFetchingContext O}.

(** C2, as the code has it: with limit 2, a first page of three summaries and a
    fetching context that asks for all three, the session fetches the
    first two threads, stops at the third candidate and returns exactly
    those two Threads; the third candidate has been counted before the
    limit was tested, so the counter of processed items is 3. *)
Theorem limit_two_of_three_summaries :
  forall (query : option string) (sanity_check expect_one : bool) (o o' : O)
         (response : ThreadsResponse) (next : option Request)
         (s1 s2 s3 : ThreadSummary),
    threads_list (list_kwargs query (Some 2)) = Req response next ->
    resp_threads response = Some [s1; s2; s3] ->
    get_thread_ids_to_query_from_api o (map summary_id [s1; s2; s3]) expect_one
    = (map summary_id [s1; s2; s3], o') ->
    fetchable (summary_id s1) ->
    fetchable (summary_id s2) ->
    exists t1 t2 s,
      query_threads_with_paging query (Some 2) sanity_check expect_one o
      = OK (LimitReached, [t1; t2], s) /\
      thread_id t1 = summary_id s1 /\
      thread_id t2 = summary_id s2 /\
      processed_items (progress (ctx s)) = 3 /\
      fetched (trace s) = [summary_id s1; summary_id s2] /\
      listed (trace s) = [response].
Proof.
  intros query sanity_check expect_one o o' response next s1 s2 s3
         Hlist Hresp Hids Hf1 Hf2.
  assert (Ht : truthy response = true)
    by (unfold truthy, truthy_response; now rewrite Hresp).
  assert (Hpage : page_ids response = map summary_id [s1; s2; s3])
    by (unfold page_ids; now rewrite Hresp).
  pose proof (fresh_session_running (Some 2) o) as HR0.
  destruct (register_response_running expect_one (Some 2) response [] _ HR0 Ht)
    as (HR1 & Hfst & Hli & _).
  unfold query_threads_with_paging, GmailThreads_new. rewrite Hlist.
  simpl while_request. rewrite Ht. unfold process_response.
  destruct (register_response expect_one response _) as [ids st].
  simpl in HR1, Hfst, Hli. rewrite Hpage, Hids in Hfst. simpl in Hfst. subst ids.
  assert (Hf : Forall fetchable
                 (firstn (allowance (Some 2) (Z.of_nat (@List.length Thread []))
                                    (List.length [summary_id s1; summary_id s2; summary_id s3]))
                         [summary_id s1; summary_id s2; summary_id s3]))
    by (simpl; auto).
  destruct (for_thread_ids_spec sanity_check (Some 2) _ [] st HR1 Hf)
    as (new & s' & Hnew & _ & Hli' & _ & [(Hk & _)|(_ & E & HS)]);
    [discriminate Hk|].
  simpl in Hnew, HS.
  destruct new as [|t1 [|t2 [|t3 new]]]; try discriminate Hnew.
  injection Hnew as H1 H2.
  exists t1, t2, s'. rewrite E. cbv beta iota zeta delta [bind].
  split; [reflexivity|]. split; [exact H1|]. split; [exact H2|].
  split; [exact (stop_processed HS)|]. split.
  - rewrite (stop_fetched HS). simpl. now rewrite H1, H2.
  - now rewrite Hli', Hli.
Qed.

End LimitScenario.

(** * The properties on the concrete service *)

Lemma example_fetchable (id : option string) :
  @fetchable Scenario.builtins Scenario.service id.
Proof. reflexivity. Qed.

Lemma example_accepts_all : @accepts_all nat Scenario.fetch_all.
Proof. intros o ids b. reflexivity. Qed.

(** The limit 0 is never reached: a session with limit 0 does not stop at
    its first candidate, it returns the threads of all five ids. *)
Lemma limit_zero_is_not_a_limit :
  let p := incr_processed_items (Progress_new THREAD (Some 0)) in
  ~ (is_limit_reached p = true <->
     exists l, limit p = Some l /\ 0 <= l /\ l < processed_items p) /\
  exists ts s,
    Scenario.run (Some 0) = OK (Exhausted, ts, s) /\
    List.length ts = 5%nat /\
    processed_items (progress (ctx s)) = 5.
Proof.
  intros p. split.
  - intros [_ H]. assert (E : is_limit_reached p = true).
    { apply H. exists 0. simpl. repeat split; lia. }
    vm_compute in E. discriminate E.
  - eexists. eexists. split; [vm_compute; reflexivity|]. split; reflexivity.
Qed.

Lemma limit_stops_after_L_items_witness :
  exists exit ts s,
    Scenario.run (Some 2) = OK (exit, ts, s) /\
    map thread_id ts = firstn 2 (candidates (trace s)) /\
    (exit = LimitReached ->
     Z.of_nat (List.length ts) = 2 /\ processed_items (progress (ctx s)) = 2 + 1 /\
     is_limit_reached (progress (ctx s)) = true).
Proof.
  destruct (@limit_stops_after_L_items Scenario.builtins Scenario.service nat
              Scenario.fetch_all None 2 true false 0%nat)
    as (_ & exit & ts & s & E & Hids & _ & _ & Hstop & _).
  - lia.
  - exact example_fetchable.
  - exists exit, ts, s. auto.
Defined.

(** With limit 2 and three summaries on the first page the counter of
    processed items is 3 when the session returns, not 2. *)
Lemma processed_items_counts_the_third_candidate :
  ~ exists exit ts s,
      Scenario.run (Some 2) = OK (exit, ts, s) /\
      List.length ts = 2%nat /\
      processed_items (progress (ctx s)) = 2.
Proof.
  intros (exit & ts & s & E & _ & H).
  vm_compute in E. injection E as <- <- <-. vm_compute in H. discriminate H.
Qed.

Lemma limit_two_of_three_summaries_witness :
  exists t1 t2 s,
    Scenario.run (Some 2) = OK (LimitReached, [t1; t2], s) /\
    thread_id t1 = Some "t1" /\
    thread_id t2 = Some "t2" /\
    processed_items (progress (ctx s)) = 3 /\
    fetched (trace s) = [Some "t1"; Some "t2"] /\
    listed (trace s) = [Scenario.first_page].
Proof.
  exact (@limit_two_of_three_summaries Scenario.builtins Scenario.service nat
           Scenario.fetch_all None true false 0%nat 0%nat
           Scenario.first_page
           (Some (Req Scenario.last_page None))
           (Scenario.summary "t1") (Scenario.summary "t2") (Scenario.summary "t3")
           eq_refl eq_refl eq_refl
           (example_fetchable (Some "t1")) (example_fetchable (Some "t2"))).
Defined.

Lemma empty_body_reported_once_witness :
  exists m c',
    @parse_api_message Scenario.builtins (Scenario.raw_message "m1" "t1")
                       (ApiConversionContext_new THREAD None) = OK (m, c') /\
    map gmail_msg_body_part (empty_bodies c') = [mkMessagePartBody None (Some 0) None] /\
    List.length (empty_bodies c') = 1%nat.
Proof.
  destruct (@empty_body_reported_once Scenario.builtins (Scenario.raw_message "m1" "t1")
              (ApiConversionContext_new THREAD None) eq_refl)
    as (m & c' & E & He & _ & Hb & Hlen).
  exists m, c'. split; [exact E|]. split.
  - rewrite He. simpl. rewrite Hb. reflexivity.
  - exact Hlen.
Defined.

Lemma parse_message_part_round_trip_witness :
  exists p,
    parse_message_part (Scenario.payload_of "Hi") (Some "m1") = OK p /\
    depth (part_shape p) = 2%nat /\
    branching (part_shape p) = 3%nat /\
    field_equal (serialize p) (Scenario.payload_of "Hi").
Proof.
  destruct (parse_message_part_round_trip (Scenario.payload_of "Hi") (Some "m1") eq_refl)
    as (p & E & _ & Hd & Hb & _ & _ & Hf).
  exists p. split; [exact E|]. split; [exact Hd|]. split; [exact Hb | exact Hf].
Defined.

Lemma pagination_visits_every_item_once_witness :
  exists ts s,
    Scenario.run None = OK (Exhausted, ts, s) /\
    listed (trace s) = [Scenario.first_page; Scenario.last_page] /\
    map thread_id ts = [Some "t1"; Some "t2"; Some "t3"; Some "t4"; Some "t5"] /\
    fetched (trace s) = [Some "t1"; Some "t2"; Some "t3"; Some "t4"; Some "t5"] /\
    requests_count (progress (ctx s)) = 2.
Proof.
  destruct (@pagination_visits_every_item_once Scenario.builtins Scenario.service nat
              Scenario.fetch_all None None true false 0%nat
              example_accepts_all example_fetchable I)
    as (ts & s & E & Hl & Hids & Hf & Hr & _).
  exists ts, s. split; [exact E|]. split; [exact Hl|]. split; [exact Hids|].
  split; [exact Hf | exact Hr].
Defined.

Lemma parse_api_message_timestamp_witness :
  exists m c',
    @parse_api_message Scenario.builtins (Scenario.raw_message "m1" "t1")
                       (ApiConversionContext_new THREAD None) = OK (m, c') /\
    msg_date m = mkdatetime 2021 1 7 6 13 20 123000 0 /\
    @datetime_from_timet_and_us Scenario.builtins 1610000000 123000 = OK (msg_date m) /\
    msg_id m = Some "m1".
Proof.
  destruct (@parse_api_message_timestamp Scenario.builtins (Scenario.raw_message "m1" "t1")
              (ApiConversionContext_new THREAD None) eq_refl)
    as (m & c' & millis & seconds & E & Hint & Hdiv & Hdate & Hexact & Hid & _).
  vm_compute in Hint. injection Hint as <-.
  vm_compute in Hdiv. injection Hdiv as <-.
  vm_compute in Hdate. injection Hdate as Hdate.
  exists m, c'. split; [exact E|]. split; [now symmetry|]. split; [|exact Hid].
  apply Hexact. split; reflexivity.
Defined.

Lemma query_attachment_of_descriptor_skips_malformed_witness :
  exists tr',
    _query_attachment_of_descriptor Scenario.anonymous_descriptor [] = OK tr' /\
    tr' = [LogError Scenario.anonymous_descriptor] /\
    attachment_requests tr' = [].
Proof.
  destruct (query_attachment_of_descriptor_skips_malformed
              Scenario.anonymous_descriptor
              (Scenario.message_with None Scenario.attachment_part)
              Scenario.attachment_part [] eq_refl eq_refl)
    as (tr' & E & Hbad & _).
  destruct Hbad as [Htr Hreq]; [left; left; reflexivity|].
  exists tr'. split; [exact E|]. split; [exact Htr | exact Hreq].
Defined.

Lemma handle_empty_bodies_drains_in_order_witness :
  exists c' w',
    handle_empty_bodies (recording _query_attachment_of_descriptor)
                        Scenario.loaded_context ([], [])
    = OK (c', (w', empty_bodies Scenario.loaded_context)) /\
    List.length (empty_bodies Scenario.loaded_context) = 3%nat /\
    empty_bodies c' = [].
Proof.
  destruct (handle_empty_bodies_drains_in_order (list Event)
              _query_attachment_of_descriptor Scenario.loaded_context [])
    as (c' & w' & _ & Er & _ & He & _).
  - intros d w0 Hin. simpl in Hin.
    destruct Hin as [<-|[<-|[<-|[]]]]; eexists; reflexivity.
  - exists c', w'. split; [exact Er|]. split; [reflexivity | exact He].
Defined.

Lemma early_return_keeps_decode_errors_witness :
  exists ts s,
    Scenario.run (Some 2) = OK (LimitReached, ts, s) /\
    decode_errors (ctx s) = flat_map (@thread_decode_errors Scenario.builtins) ts /\
    List.length (decode_errors (ctx s)) = 4%nat.
Proof.
  destruct (@early_return_keeps_decode_errors Scenario.builtins Scenario.service nat
              Scenario.fetch_all None (Some 2) true false 0%nat example_fetchable)
    as (exit & ts & s & E & Hstop & _).
  pose proof E as E'. vm_compute in E'. injection E' as Hexit _ Hs.
  subst exit. destruct (Hstop eq_refl) as [Hd _].
  exists ts, s. split; [exact E|]. split; [exact Hd|].
  rewrite <- Hs. reflexivity.
Defined.

Lemma thread_subject_from_first_message_witness :
  (exists t s',
     @fetch_thread Scenario.builtins Scenario.service nat Scenario.fetch_all
                   true (Some "t1") [] Scenario.fresh = OK ([t], s') /\
     subject t = Some "Re: t1" /\
     List.length (messages t) = 2%nat) /\
  @fetch_thread Scenario.builtins Scenario.empty_thread_service nat Scenario.fetch_all
                true (Some "t1") [] Scenario.fresh = Raise IndexError.
Proof.
  split.
  - destruct (@thread_subject_from_first_message Scenario.builtins Scenario.service nat
                Scenario.fetch_all true (Some "t1") [] Scenario.fresh eq_refl)
      as [_ H].
    destruct (H (example_fetchable (Some "t1")))
      as (t & s' & first & rest & E & Ht & _ & Hs & Hl).
    pose proof E as E'. vm_compute in E'. injection E' as Hfirst _.
    exists t, s'. split; [exact E|]. split; [|exact Hl].
    rewrite Ht. simpl. rewrite Ht in Hfirst. injection Hfirst as Hf _ _.
    rewrite <- Hf. reflexivity.
  - apply (@thread_subject_from_first_message Scenario.builtins Scenario.empty_thread_service
             nat Scenario.fetch_all true (Some "t1") [] Scenario.fresh eq_refl).
    reflexivity.
Defined.

(** A session that meets a thread without messages raises IndexError. *)
Example session_over_empty_thread_raises :
  @query_threads_with_paging Scenario.builtins Scenario.empty_thread_service nat
                             Scenario.fetch_all None None true false 0%nat
  = Raise IndexError.
Proof. reflexivity. Qed.

(** The quotient by 1000 is a float: one millisecond into the year 3000
    it lies below the exact quotient, and the date holds 999 microseconds. *)
Example date_is_rounded_to_microseconds :
  @message_date Scenario.builtins (Scenario.dated_message "32503680000001")
  = OK (mkdatetime 3000 1 1 0 0 0 999 0).
Proof. vm_compute. reflexivity. Qed.

(** An integer of milliseconds beyond the year 9999 is no date: parsing
    raises ValueError. *)
Example date_beyond_year_9999_raises :
  @parse_api_message Scenario.builtins (Scenario.dated_message "99999999999999999")
                     (ApiConversionContext_new THREAD None)
  = Raise ValueError.
Proof. vm_compute. reflexivity. Qed.

(** * Further properties *)

(** ** The progress tracker *)

Lemma iter_incr_processed_items (n : nat) (p : Progress) :
  processed_items (Nat.iter n incr_processed_items p) = processed_items p + Z.of_nat n /\
  limit (Nat.iter n incr_processed_items p) = limit p /\
  requests_count (Nat.iter n incr_processed_items p) = requests_count p /\
  all_items_count (Nat.iter n incr_processed_items p) = all_items_count p.
Proof.
  induction n as [|n (H1 & H2 & H3 & H4)].
  - simpl. repeat split. lia.
  - rewrite Nat.iter_succ. simpl.
    rewrite H1, H2, H3, H4. repeat split. lia.
Qed.

(** X1: a fresh tracker that has counted n processed items holds n, and
    its limit is reached exactly when the limit is configured, is not 0 and
    is below n; counting processed items touches no other counter. *)
Theorem limit_reached_after_n_items :
  forall (t : ApiItemType) (l : option Z) (n : nat),
    let p := Nat.iter n incr_processed_items (Progress_new t l) in
    processed_items p = Z.of_nat n /\
    requests_count p = 0 /\
    all_items_count p = 0 /\
    (is_limit_reached p = true <-> exists L, l = Some L /\ L <> 0 /\ L < Z.of_nat n).
Proof.
  intros t l n p.
  destruct (iter_incr_processed_items n (Progress_new t l)) as (H1 & H2 & H3 & H4).
  fold p in H1, H2, H3, H4. simpl in H1, H2, H3, H4.
  split; [exact H1|]. split; [exact H3|]. split; [exact H4|].
  rewrite is_limit_reached_iff, H1, H2. reflexivity.
Qed.

(** X2: once the limit is reached it stays reached however many more
    items are counted, and counting requests or registering new items
    never changes whether it is reached. *)
Theorem limit_reached_is_stable :
  forall (p : Progress) (n : nat) (k : Z),
    is_limit_reached p = true ->
    is_limit_reached (Nat.iter n incr_processed_items p) = true /\
    is_limit_reached (incr_requests p) = true /\
    is_limit_reached (register_new_items k p) = true.
Proof.
  intros p n k H. split; [|split; exact H].
  apply is_limit_reached_iff in H. destruct H as (L & HL & H0 & Hlt).
  destruct (iter_incr_processed_items n p) as (H1 & H2 & _).
  apply is_limit_reached_iff. exists L. rewrite H1, H2. repeat split; try assumption. lia.
Qed.

Lemma last_cons_default {A} (a : A) (l : list A) (d1 d2 : A) :
  last (a :: l) d1 = last (a :: l) d2.
Proof.
  revert a. induction l as [|b l IH]; intros a; [reflexivity|].
  change (last (b :: l) d1 = last (b :: l) d2). apply IH.
Qed.

Lemma fold_register_new_items (ns : list Z) :
  forall p,
    let p' := fold_left (fun p n => register_new_items n p) ns p in
    all_items_count p' = all_items_count p + fold_right Z.add 0 ns /\
    new_items_with_last_request p' = last ns (new_items_with_last_request p) /\
    processed_items p' = processed_items p /\
    requests_count p' = requests_count p /\
    limit p' = limit p.
Proof.
  induction ns as [|n ns IH]; intros p; simpl fold_left; cbv zeta.
  - simpl. repeat split. lia.
  - destruct (IH (register_new_items n p)) as (H1 & H2 & H3 & H4 & H5).
    rewrite H1, H2, H3, H4, H5. simpl all_items_count. simpl fold_right.
    split; [lia|]. split; [|repeat split].
    destruct ns as [|z ns]; [reflexivity|].
    change (last (z :: ns) (new_items_with_last_request (register_new_items n p))
            = last (z :: ns) (new_items_with_last_request p)).
    apply last_cons_default.
Qed.

(** X3: registering batches of new items on a fresh tracker leaves the sum
    of the batch sizes as the total and the size of the last batch as the
    items of the last request, which is -1 as long as no batch was
    registered; the processed items and the requests are not touched. *)
Theorem register_new_items_accumulates :
  forall (t : ApiItemType) (l : option Z) (ns : list Z),
    let p := fold_left (fun p n => register_new_items n p) ns (Progress_new t l) in
    all_items_count p = fold_right Z.add 0 ns /\
    new_items_with_last_request p = last ns (-1) /\
    processed_items p = 0 /\
    requests_count p = 0.
Proof.
  intros t l ns p.
  destruct (fold_register_new_items ns (Progress_new t l)) as (H1 & H2 & H3 & H4 & H5).
  fold p in H1, H2, H3, H4, H5. simpl in H1, H2, H3, H4, H5.
  repeat split; assumption.
Qed.

(** ** The keyword arguments of the list request *)

(** X4: the list request is always made for the user "me"; it carries the
    query exactly when the query is neither missing nor empty, and it caps
    the page size, at the limit itself, exactly when the limit is
    configured, is not 0 and is below the default page size of 100. *)
Theorem list_kwargs_spec :
  forall (query : option string) (limit : option Z),
    let kwargs := list_kwargs query limit in
    userId kwargs = USERID_ME /\
    (missing_or_empty query -> q kwargs = None) /\
    (~ missing_or_empty query -> q kwargs = query) /\
    (maxResults kwargs <> None <->
     exists L, limit = Some L /\ L <> 0 /\ L < DEFAULT_PAGE_SIZE) /\
    (maxResults kwargs = None \/ maxResults kwargs = limit).
Proof.
  intros query limit kwargs. subst kwargs. unfold list_kwargs.
  destruct (truthy query) eqn:Tq.
  - apply truthy_str_true in Tq.
    destruct (truthy limit) eqn:Tl.
    + apply truthy_limit in Tl. destruct Tl as (L & -> & HL). simpl.
      destruct (Z.ltb_spec L DEFAULT_PAGE_SIZE); simpl.
      * repeat split; try tauto; try discriminate; eauto.
      * repeat split; try tauto; eauto.
        intros (L' & [= <-] & _ & Hlt). lia.
    + simpl. repeat split; try tauto; eauto.
      intros (L & -> & HL & _).
      assert (truthy (Some L) = true) by (apply truthy_limit; eauto). congruence.
  - apply truthy_str_false in Tq.
    destruct (truthy limit) eqn:Tl.
    + apply truthy_limit in Tl. destruct Tl as (L & -> & HL). simpl.
      destruct (Z.ltb_spec L DEFAULT_PAGE_SIZE); simpl.
      * repeat split; try tauto; try discriminate; eauto.
      * repeat split; try tauto; eauto.
        intros (L' & [= <-] & _ & Hlt). lia.
    + simpl. repeat split; try tauto; eauto.
      intros (L & -> & HL & _).
      assert (truthy (Some L) = true) by (apply truthy_limit; eauto). congruence.
Qed.

(** ** Failures of the parser *)

Lemma comprehension_ext {A B} (f g : A -> Result B) (l : list A) :
  Forall (fun a => f a = g a) l -> comprehension f l = comprehension g l.
Proof.
  induction 1 as [|a l Ha _ IH]; simpl; [reflexivity|]. now rewrite Ha, IH.
Qed.

Lemma comprehension_Raise {A B} (f : A -> Result B) (l : list A) (e : exn) :
  comprehension f l = Raise e -> exists a, In a l /\ f a = Raise e.
Proof.
  induction l as [|a l IH]; simpl; [discriminate|].
  destruct (f a) as [b|e'] eqn:E; simpl.
  - destruct (comprehension f l) as [bs|e'']; simpl; [discriminate|].
    intros [= ->]. destruct (IH eq_refl) as (a' & Hin & Ha'). eauto.
  - intros [= ->]. eauto.
Qed.

(** X5: the message id handed down to the part parser is never used: the
    parsed tree, and whether parsing fails, is the same for every id. *)
Theorem parse_message_part_ignores_message_id :
  forall (message_part : RawPart) (id1 id2 : option string),
    parse_message_part message_part id1 = parse_message_part message_part id2.
Proof.
  intros r id1 id2.
  induction r as [pid mime hs b|pid mime hs b l IH] using RawPart_induction;
    rewrite !parse_message_part_eq; [reflexivity|].
  simpl. now rewrite (comprehension_ext _ _ l IH).
Qed.

Lemma parse_message_part_raises_TypeError (message_id : option string) (r : RawPart) (e : exn) :
  parse_message_part r message_id = Raise e -> e = TypeError.
Proof.
  induction r as [pid mime hs b|pid mime hs b l IH] using RawPart_induction;
    rewrite parse_message_part_eq; unfold _parse_headers; simpl;
    destruct hs as [hs|]; simpl; try discriminate; try (now intros [= <-]).
  destruct (comprehension _ l) as [ps|e'] eqn:E; simpl; [discriminate|].
  intros [= ->]. apply comprehension_Raise in E. destruct E as (a & Hin & Ha).
  rewrite Forall_forall in IH. exact (IH a Hin Ha).
Qed.

Lemma parse_message_part_outcome (message_part : RawPart) (message_id : option string) :
  ((exists p, parse_message_part message_part message_id = OK p)
   <-> wf_part message_part = true) /\
  (parse_message_part message_part message_id = Raise TypeError
   <-> wf_part message_part = false).
Proof.
  assert (Hok : (exists p, parse_message_part message_part message_id = OK p)
                <-> wf_part message_part = true).
  { split.
    - intros (p & Hp). exact (parse_message_part_OK_wf message_id message_part p Hp).
    - intros Hwf.
      destruct (parse_message_part_wf message_id message_part Hwf) as (p & Hp & _). eauto. }
  split; [exact Hok|].
  destruct (parse_message_part message_part message_id) as [p|e] eqn:E.
  - assert (wf_part message_part = true) by (apply Hok; eauto).
    split; [discriminate | congruence].
  - rewrite (parse_message_part_raises_TypeError message_id message_part e E).
    split; [intros _ | reflexivity].
    destruct (wf_part message_part) eqn:W; [|reflexivity].
    destruct (proj2 Hok eq_refl) as (p & Hp). discriminate.
Qed.

(** X6: the part parser returns a tree exactly for the raw trees in which
    every part carries a header list; on every other tree, however deep
    the part without headers lies, it raises TypeError and nothing else. *)
Theorem parse_message_part_fails_iff_headers_missing :
  forall (message_part : RawPart) (message_id : option string),
    ((exists p, parse_message_part message_part message_id = OK p)
     <-> wf_part message_part = true) /\
    (parse_message_part message_part message_id = Raise TypeError
     <-> wf_part message_part = false) /\
    (forall e, parse_message_part message_part message_id = Raise e -> e = TypeError).
Proof.
  intros r mid. destruct (parse_message_part_outcome r mid) as [H1 H2].
  split; [exact H1|]. split; [exact H2|].
  intros e. apply parse_message_part_raises_TypeError.
Qed.

Section ParserFailures.
Context {B : Builtins}.

Lemma parse_api_message_outcome (raw : RawMessage) (c : ApiConversionContext) :
  match parse_api_message raw c with
  | OK _ => wf_message raw = true
  | Raise e =>
      wf_message raw = false /\
      (wf_part (raw_payload raw) = false /\ e = TypeError \/
       wf_part (raw_payload raw) = true /\ message_date raw = Raise e)
  end.
Proof.
  rewrite parse_api_message_eq. unfold wf_message.
  destruct (parse_message_part_outcome (raw_payload raw) (raw_id raw)) as [Hok Hbad].
  destruct (parse_message_part (raw_payload raw) (raw_id raw)) as [p|e] eqn:E; simpl.
  - assert (Hwf : wf_part (raw_payload raw) = true) by (apply Hok; eauto).
    rewrite Hwf. destruct (message_date raw) as [date|e]; simpl; auto.
  - rewrite (parse_message_part_raises_TypeError _ _ _ E) in *.
    assert (Hwf : wf_part (raw_payload raw) = false) by now apply Hbad.
    rewrite Hwf. auto.
Qed.

Lemma message_date_outcome (raw : RawMessage) (e : exn) :
  message_date raw = Raise e ->
  match raw_internalDate raw with
  | None => e = TypeError
  | Some s =>
      match py_int s with
      | None => e = ValueError
      | Some millis =>
          match truediv millis 1000 with
          | Raise _ => e = OverflowError
          | OK seconds => fromtimestamp seconds = Raise e
          end
      end
  end.
Proof.
  unfold message_date, int.
  destruct (raw_internalDate raw) as [s|]; simpl; [|now intros [= <-]].
  destruct (py_int s) as [millis|]; simpl; [|now intros [= <-]].
  destruct (truediv millis 1000) as [seconds|e'] eqn:Hq; simpl; [auto|].
  intros [= <-]. unfold truediv in Hq.
  destruct millis as [|m|m]; [discriminate| |];
    match type of Hq with
    | context [SFdiv ?p ?q ?x ?y] => destruct (SFdiv p q x y)
    end; congruence.
Qed.

(** X7: a raw message is built into a Message exactly when it is well
    formed.  Otherwise the payload is looked at first: a part without a
    header list raises TypeError whatever the internal date holds.  Under
    a well-formed payload the exception is that of the date: TypeError for
    a missing internal date, ValueError for one that is no integer,
    OverflowError for an integer whose quotient by 1000 is beyond the
    floats, and otherwise what datetime.fromtimestamp raises for the
    quotient. *)
Theorem parse_api_message_failures :
  forall (raw : RawMessage) (c : ApiConversionContext),
    ((exists r, parse_api_message raw c = OK r) <-> wf_message raw = true) /\
    (wf_part (raw_payload raw) = false -> parse_api_message raw c = Raise TypeError) /\
    (wf_part (raw_payload raw) = true ->
     forall e, parse_api_message raw c = Raise e <-> message_date raw = Raise e) /\
    (forall e,
       message_date raw = Raise e ->
       match raw_internalDate raw with
       | None => e = TypeError
       | Some s =>
           match py_int s with
           | None => e = ValueError
           | Some millis =>
               match truediv millis 1000 with
               | Raise _ => e = OverflowError
               | OK seconds => fromtimestamp seconds = Raise e
               end
           end
       end).
Proof.
  intros raw c. pose proof (parse_api_message_outcome raw c) as H.
  split; [|split; [|split]].
  - split.
    + intros (r & Hr). now rewrite Hr in H.
    + intros Hwf. destruct (parse_api_message_wf raw c Hwf) as (p & d & _ & _ & _ & ->).
      eauto.
  - intros Hwf. destruct (parse_api_message raw c) as [r|e].
    + unfold wf_message in H. rewrite Hwf in H. discriminate.
    + destruct H as (_ & [(_ & ->)|(Hwf' & _)]); [reflexivity | congruence].
  - intros Hwf e. split.
    + intros E. rewrite E in H. destruct H as (_ & [(Hwf' & _)|(_ & Hd)]);
        [congruence | exact Hd].
    + intros Hd. destruct (parse_api_message raw c) as [r|e'].
      * unfold wf_message in H. rewrite Hwf, Hd in H. discriminate.
      * destruct H as (_ & [(Hwf' & _)|(_ & Hd')]); congruence.
  - intros e. apply message_date_outcome.
Qed.

Lemma parse_api_messages_outcome (raws : list RawMessage) :
  forall c,
    match parse_api_messages raws c with
    | OK _ => forallb wf_message raws = true
    | Raise e =>
        exists parsed raw rest c',
          raws = parsed ++ raw :: rest /\
          forallb wf_message parsed = true /\
          wf_message raw = false /\
          parse_api_message raw c' = Raise e
    end.
Proof.
  induction raws as [|raw raws IH]; intros c; simpl; [reflexivity|].
  pose proof (parse_api_message_outcome raw c) as H.
  destruct (parse_api_message raw c) as [[m c1]|e] eqn:E; simpl.
  - rewrite H. simpl. specialize (IH c1).
    destruct (parse_api_messages raws c1) as [[ms c2]|e]; simpl; [exact IH|].
    destruct IH as (parsed & raw' & rest & c' & -> & Hp & Hr & He).
    exists (raw :: parsed), raw', rest, c'. simpl. rewrite H, Hp. auto.
  - exists [], raw, raws, c. simpl. destruct H as (H & _). auto.
Qed.

End ParserFailures.

(** ** Failures of the deferred fetch *)

Lemma has_owner_dec (d : MessagePartDescriptor) : has_owner d \/ ~ has_owner d.
Proof.
  unfold has_owner. destruct (message d), (message_part d);
    solve [left; split; discriminate | right; intros [H1 H2]; congruence].
Qed.

Lemma query_attachment_unowned (d : MessagePartDescriptor) (tr : list Event) :
  ~ has_owner d -> _query_attachment_of_descriptor d tr = Raise AttributeError.
Proof.
  unfold has_owner, _query_attachment_of_descriptor. intros H.
  destruct (message d); [|reflexivity].
  destruct (message_part d); [|reflexivity].
  elim H. split; discriminate.
Qed.

Lemma query_attachment_event (d : MessagePartDescriptor) (tr : list Event) :
  has_owner d ->
  exists e, _query_attachment_of_descriptor d tr = OK (tr ++ [e]) /\ deferred_event e.
Proof.
  intros [Hm Hp]. unfold _query_attachment_of_descriptor.
  destruct (message d) as [m|]; [|congruence].
  destruct (message_part d) as [mp|]; [|congruence].
  destruct (negb _ || negb _); eexists; (split; [reflexivity | exact I]).
Qed.

Lemma deferred_fetches_outcome (l : list MessagePartDescriptor) :
  forall tr,
    (Forall has_owner l /\
     exists es, for_each _query_attachment_of_descriptor l tr = OK (tr ++ es) /\
                List.length es = List.length l /\ Forall deferred_event es)
    \/ (~ Forall has_owner l /\
        for_each _query_attachment_of_descriptor l tr = Raise AttributeError).
Proof.
  induction l as [|d l IH]; intros tr.
  - left. split; [constructor|]. exists []. rewrite app_nil_r. simpl. auto.
  - simpl. destruct (has_owner_dec d) as [Hd|Hd].
    + destruct (query_attachment_event d tr Hd) as (e & -> & He). simpl.
      destruct (IH (tr ++ [e])) as [(Hl & es & -> & Hlen & Hes)|(Hl & ->)].
      * left. split; [now constructor|]. exists (e :: es).
        rewrite <- app_assoc. simpl. repeat split; [now rewrite Hlen | now constructor].
      * right. split; [|reflexivity]. intros H. apply Forall_cons_iff in H. tauto.
    + right. rewrite (query_attachment_unowned d tr Hd). split; [|reflexivity].
      intros H. apply Forall_cons_iff in H. tauto.
Qed.

Lemma deferred_events_are_silent (es : list Event) :
  Forall deferred_event es ->
  listed es = [] /\ candidates es = [] /\ fetched es = [] /\ warnings es = [].
Proof.
  induction 1 as [|e es He _ (H1 & H2 & H3 & H4)]; [now repeat split|].
  change (e :: es) with ([e] ++ es). autorewrite with trace.
  rewrite H1, H2, H3, H4. destruct e; try contradiction; now repeat split.
Qed.

(** X8: draining the empty bodies into the deferred fetch returns exactly
    when every buffered descriptor names its message and its part; it then
    empties the buffer, keeps the decode errors and adds one event per
    descriptor, each an attachment request or an error line.  With a
    descriptor that lacks its message or its part it raises
    AttributeError. *)
Theorem deferred_drain_returns_iff_owned :
  forall (c : ApiConversionContext) (tr : list Event),
    (Forall has_owner (empty_bodies c) <->
     exists c' tr', handle_empty_bodies _query_attachment_of_descriptor c tr = OK (c', tr')) /\
    (~ Forall has_owner (empty_bodies c) <->
     handle_empty_bodies _query_attachment_of_descriptor c tr = Raise AttributeError) /\
    (forall c' tr',
       handle_empty_bodies _query_attachment_of_descriptor c tr = OK (c', tr') ->
       empty_bodies c' = [] /\
       decode_errors c' = decode_errors c /\
       progress c' = progress c /\
       exists es, tr' = tr ++ es /\
                  List.length es = List.length (empty_bodies c) /\
                  Forall deferred_event es).
Proof.
  intros c tr. unfold handle_empty_bodies.
  destruct (deferred_fetches_outcome (empty_bodies c) tr)
    as [(Hl & es & -> & Hlen & Hes)|(Hl & ->)]; simpl.
  - split; [split; eauto|]. split; [split; [contradiction | discriminate]|].
    intros c' tr' [= <- <-]. simpl. eauto 10.
  - split; [split; [contradiction | intros (c' & tr' & H); discriminate]|].
    split; [split; auto|]. discriminate.
Qed.

(** X9: a body reported while the context has no current message or no
    current part is recorded without its owner, and the next drain into
    the deferred fetch raises AttributeError. *)
Theorem report_before_register_breaks_drain :
  forall (c : ApiConversionContext) (b : GmailMessageBodyPart) (tr : list Event),
    current_message c = None \/ current_message_part c = None ->
    ~ Forall has_owner (empty_bodies (report_empty_body b c)) /\
    handle_empty_bodies _query_attachment_of_descriptor (report_empty_body b c) tr
    = Raise AttributeError.
Proof.
  intros c b tr H.
  assert (Hn : ~ Forall has_owner (empty_bodies (report_empty_body b c))).
  { simpl. intros HF. apply Forall_app in HF. destruct HF as [_ HF].
    apply Forall_cons_iff in HF. destruct HF as [[Hm Hp] _]. simpl in Hm, Hp.
    destruct H; congruence. }
  split; [exact Hn|]. unfold handle_empty_bodies.
  destruct (deferred_fetches_outcome (empty_bodies (report_empty_body b c)) tr)
    as [(Hl & _)|(_ & ->)]; [contradiction | reflexivity].
Qed.

(** ** What every returning session keeps *)

Section ReturningSession.
Context {B : Builtins} {G : GmailService} {O : Type} {F : ApiFetchingContext O}.

Lemma fetch_thread_returned (sanity_check : bool) (id : option string)
    (ts ts' : GmailThreads) (s s' : State O) :
  fetch_thread sanity_check id ts s = OK (ts', s') ->
  exists t,
    ts' = ts ++ [t] /\
    thread_id t = id /\
    assembled t /\
    progress (ctx s') = progress (ctx s) /\
    decode_errors (ctx s') = decode_errors (ctx s) ++ thread_decode_errors t /\
    empty_bodies (ctx s') = [] /\
    fetched (trace s') = fetched (trace s) ++ [id] /\
    listed (trace s') = listed (trace s) /\
    candidates (trace s') = candidates (trace s) /\
    warnings (trace s') = warnings (trace s).
Proof.
  unfold fetch_thread, _query_thread_data. intros H.
  destruct (tr_messages (threads_get USERID_ME id)) as [raws|]; [|discriminate].
  inv_bind H. destruct a as [ms c1]. inv_bind H. destruct a as [c2 tr2].
  destruct ms as [|first rest]; [discriminate|]. injection H as <- <-.
  apply parse_api_messages_effect in E. destruct E as (_ & _ & Hd & Hp).
  unfold handle_empty_bodies in E0.
  destruct (deferred_fetches_outcome (empty_bodies c1) (trace s ++ [ThreadsGet USERID_ME id]))
    as [(_ & es & Ees & _ & Hes)|(_ & Ees)]; rewrite Ees in E0; [|discriminate].
  simpl in E0. injection E0 as <- <-.
  destruct (deferred_events_are_silent es Hes) as (L & C & Fe & W).
  eexists. split; [reflexivity|]. simpl. autorewrite with trace.
  rewrite L, C, Fe, W, Hd, Hp, !app_nil_r. simpl.
  repeat split; try reflexivity. exists first, rest. auto.
Qed.

Lemma for_thread_ids_returned (sanity_check : bool) (l : option Z) :
  forall (ids : list (option string)) (ts : GmailThreads) (s : State O) (r : LoopResult O),
    Running l ids ts s ->
    Forall assembled ts ->
    for_thread_ids sanity_check ids ts s = OK r ->
    match r with
    | Continue ts' s' =>
        Running l [] ts' s' /\ Forall assembled ts' /\
        listed (trace s') = listed (trace s)
    | Return ts' s' =>
        (exists rest, Stopped l rest ts' s') /\ Forall assembled ts' /\
        listed (trace s') = listed (trace s) /\
        requests_count (progress (ctx s')) = requests_count (progress (ctx s)) /\
        all_items_count (progress (ctx s')) = all_items_count (progress (ctx s))
    end.
Proof.
  induction ids as [|id rest IH]; intros ts s r HR Has H.
  - simpl in H. injection H as <-. auto.
  - destruct HR as [Hl Hp Hn Hd He Hfe Hc Hw Hrq Hit].
    simpl for_thread_ids in H.
    destruct (is_limit_reached (incr_processed_items (progress (ctx s)))) eqn:R.
    + injection H as <-. simpl. autorewrite with trace. simpl. rewrite !app_nil_r.
      split; [|auto]. exists (id :: rest).
      constructor; simpl; autorewrite with trace; simpl;
        rewrite ?app_nil_r; try assumption; try congruence.
      rewrite Hw, Hl. reflexivity.
    + inv_bind H. destruct a as [ts1 s1].
      apply fetch_thread_returned in E.
      destruct E as (t & -> & Hid & Hat & Hp1 & Hd1 & He1 & Hf1 & Hl1 & Hc1 & Hw1).
      simpl in Hp1, Hd1, Hf1, Hl1, Hc1, Hw1.
      autorewrite with trace in Hf1, Hl1, Hc1, Hw1. simpl in Hf1, Hl1, Hc1, Hw1.
      rewrite ?app_nil_r in Hf1, Hl1, Hc1, Hw1.
      assert (Hlen : Z.of_nat (List.length (ts ++ [t])) = Z.of_nat (List.length ts) + 1)
        by (rewrite length_app; simpl; lia).
      assert (HR1 : Running l rest (ts ++ [t]) s1).
      { constructor; rewrite ?Hp1, ?Hd1, ?Hf1, ?Hc1, ?Hw1, ?Hl1; simpl; try assumption.
        - rewrite Hlen, Hp. reflexivity.
        - right. apply is_limit_reached_false_iff in R. simpl in R.
          rewrite Hl, Hp in R. unfold never_reached. destruct l as [L|]; [|exact I].
          rewrite length_app. simpl. lia.
        - rewrite flat_map_app, Hd. simpl. now rewrite app_nil_r.
        - rewrite map_app, Hfe. simpl. now rewrite Hid.
        - rewrite map_app, Hc, <- app_assoc. simpl. now rewrite Hid. }
      assert (Has1 : Forall assembled (ts ++ [t]))
        by (apply Forall_app; split; [assumption | now constructor]).
      specialize (IH (ts ++ [t]) s1 r HR1 Has1 H).
      destruct r as [ts' s'|ts' s'].
      * rewrite Hl1, Hp1 in IH. exact IH.
      * rewrite Hl1 in IH. exact IH.
Qed.

Lemma page_returned (sanity_check expect_one : bool) (l : option Z)
    (response : ThreadsResponse) (ts : GmailThreads) (s : State O) (r : LoopResult O) :
  Running l [] ts s ->
  Forall assembled ts ->
  (if truthy response
   then process_response sanity_check expect_one response ts
                         (log (ThreadsListExecute response) s)
   else OK (Continue ts (log (ThreadsListExecute response) s))) = OK r ->
  match r with
  | Continue ts' s' =>
      Running l [] ts' s' /\ Forall assembled ts' /\
      listed (trace s') = listed (trace s) ++ [response]
  | Return ts' s' =>
      (exists rest, Stopped l rest ts' s') /\ Forall assembled ts' /\
      listed (trace s') = listed (trace s) ++ [response] /\
      requests_count (progress (ctx s'))
      = Z.of_nat (List.length (filter truthy (listed (trace s')))) /\
      all_items_count (progress (ctx s'))
      = Z.of_nat (List.length (flat_map page_ids (listed (trace s'))))
  end.
Proof.
  intros HR Has H. destruct (truthy response) eqn:Ht.
  - destruct (register_response_running expect_one l response ts s HR Ht)
      as (HR1 & _ & Hli & _).
    unfold process_response in H.
    destruct (register_response expect_one response (log (ThreadsListExecute response) s))
      as [ids s1].
    simpl in HR1, Hli.
    pose proof (for_thread_ids_returned sanity_check l ids ts s1 r HR1 Has H) as Hr.
    destruct r as [ts' s'|ts' s'].
    + destruct Hr as (HS & Has' & Hl' & Hrq & Hit).
      rewrite Hl', Hli, Hrq, Hit, (run_requests HR1), (run_items HR1), Hli. auto.
    + destruct Hr as (HRn & Has' & Hl'). rewrite Hl', Hli. auto.
  - injection H as <-. split; [now apply skipped_response_running|].
    split; [assumption|]. simpl. autorewrite with trace. reflexivity.
Qed.

Lemma while_request_returned (sanity_check expect_one : bool) (l : option Z) :
  forall (request : Request) (ts ts' : GmailThreads) (s s' : State O) (exit : Exit),
    Running l [] ts s ->
    Forall assembled ts ->
    while_request sanity_check expect_one request ts s = OK (exit, ts', s') ->
    Forall assembled ts' /\
    prefix_of (listed (trace s')) (listed (trace s) ++ pages request) /\
    requests_count (progress (ctx s'))
    = Z.of_nat (List.length (filter truthy (listed (trace s')))) /\
    all_items_count (progress (ctx s'))
    = Z.of_nat (List.length (flat_map page_ids (listed (trace s')))) /\
    match exit with
    | Exhausted =>
        listed (trace s') = listed (trace s) ++ pages request /\
        exists s'', Running l [] ts' s'' /\ s' = finalized s''
    | LimitReached => exists rest, Stopped l rest ts' s'
    end.
Proof.
  induction request as [response|response request' IH] using Request_induction;
    intros ts ts' s s' exit HR Has H;
    rewrite while_request_eq in H; unfold list_next, execute in H;
    cbv beta iota zeta in H; inv_bind H;
    pose proof (page_returned sanity_check expect_one l response ts s a HR Has E) as Hp;
    destruct a as [ts1 s1|ts1 s1]; simpl pages.
  - injection H as <- <- <-. destruct Hp as (HS & Has1 & Hli & Hrq & Hit).
    split; [assumption|]. split.
    { exists []. rewrite Hli, app_nil_r.
      now destruct (truthy (resp_nextPageToken response)). }
    split; [assumption|]. split; assumption.
  - destruct Hp as (HR1 & Has1 & Hli).
    assert (Hpages : listed (trace s1)
                     = listed (trace s)
                         ++ response :: (if truthy (resp_nextPageToken response)
                                         then [] else []))
      by (rewrite Hli; now destruct (truthy (resp_nextPageToken response))).
    assert (H' : OK (Exhausted, ts1, finalized s1) = OK (exit, ts', s'))
      by (now destruct (truthy (resp_nextPageToken response))).
    injection H' as <- <- <-. simpl.
    split; [assumption|]. split; [exists []; now rewrite app_nil_r|].
    split; [apply (run_requests HR1)|]. split; [apply (run_items HR1)|].
    split; [exact Hpages | eauto].
  - injection H as <- <- <-. destruct Hp as (HS & Has1 & Hli & Hrq & Hit).
    split; [assumption|]. split.
    { exists (if truthy (resp_nextPageToken response) then pages request' else []).
      rewrite Hli, <- app_assoc. reflexivity. }
    split; [assumption|]. split; assumption.
  - destruct Hp as (HR1 & Has1 & Hli).
    destruct (truthy (resp_nextPageToken response)).
    + destruct (IH ts1 ts' s1 s' exit HR1 Has1 H) as (Has' & (more & Hpre) & Hrq & Hit & Hex).
      rewrite Hli, <- app_assoc in Hpre. simpl in Hpre.
      split; [assumption|]. split; [exists more; exact Hpre|].
      split; [assumption|]. split; [assumption|].
      destruct exit; [exact Hex|]. destruct Hex as (Hl' & Hs'').
      split; [|exact Hs'']. rewrite Hl', Hli, <- app_assoc. reflexivity.
    + injection H as <- <- <-. simpl.
      split; [assumption|]. split; [exists []; now rewrite Hli, app_nil_r|].
      split; [apply (run_requests HR1)|]. split; [apply (run_items HR1)|].
      split; [exact Hli | eauto].
Qed.

End ReturningSession.

Section ReturningSessionResults.
Context {B : Builtins} {G : GmailService} {O : Type} {F : ApiFetchingContext O}.

Lemma session_returned (query : option string) (l : option Z)
    (sanity_check expect_one : bool) (o : O) (exit : Exit) (ts : GmailThreads) (s : State O) :
  query_threads_with_paging query l sanity_check expect_one o = OK (exit, ts, s) ->
  Forall assembled ts /\
  prefix_of (listed (trace s)) (pages (threads_list (list_kwargs query l))) /\
  requests_count (progress (ctx s))
  = Z.of_nat (List.length (filter truthy (listed (trace s)))) /\
  all_items_count (progress (ctx s))
  = Z.of_nat (List.length (flat_map page_ids (listed (trace s)))) /\
  match exit with
  | Exhausted =>
      listed (trace s) = pages (threads_list (list_kwargs query l)) /\
      exists s'', Running l [] ts s'' /\ s = finalized s''
  | LimitReached => exists rest, Stopped l rest ts s
  end.
Proof.
  unfold query_threads_with_paging. intros H.
  exact (while_request_returned sanity_check expect_one l _ _ _ _ _ _
           (fresh_session_running l o) (Forall_nil _) H).
Qed.

(** X10: whenever a session returns, the threads it returns are exactly
    the threads it fetched, in the order of the fetches; every fetch was
    asked for by the fetching context, in that order; the session went
    through all candidates exactly when it returns after the last page;
    every returned thread has a first message whose subject it carries,
    and no empty body is left in the buffer. *)
Theorem session_returns_what_it_fetched :
  forall (query : option string) (l : option Z) (sanity_check expect_one : bool) (o : O)
         (exit : Exit) (ts : GmailThreads) (s : State O),
    query_threads_with_paging query l sanity_check expect_one o = OK (exit, ts, s) ->
    fetched (trace s) = map thread_id ts /\
    prefix_of (fetched (trace s)) (candidates (trace s)) /\
    (exit = Exhausted <-> candidates (trace s) = fetched (trace s)) /\
    Forall assembled ts /\
    empty_bodies (ctx s) = [].
Proof.
  intros query l sanity_check expect_one o exit ts s H.
  destruct (session_returned _ _ _ _ _ _ _ _ H) as (Has & _ & _ & _ & Hex).
  destruct exit.
  - destruct Hex as (rest & [_ _ _ _ _ He Hfe Hc Hrest _]).
    rewrite Hfe, Hc. split; [reflexivity|]. split; [exists rest; reflexivity|].
    split; [|split; assumption]. split; [discriminate|].
    intros E. apply (f_equal (@List.length _)) in E. rewrite length_app in E.
    destruct rest; [contradiction | simpl in E; lia].
  - destruct Hex as (_ & s'' & [_ _ _ _ He Hfe Hc _ _ _] & ->). simpl.
    rewrite app_nil_r in Hc. rewrite Hfe, Hc.
    split; [reflexivity|]. split; [exists []; now rewrite app_nil_r|].
    split; [split; reflexivity|]. split; assumption.
Qed.

(** X11: whenever a session returns, its counters agree with what it did:
    the requests counted are the non-empty list pages received, the items
    counted are the summaries on those pages, and the processed items are
    the threads returned, plus the one candidate that met the limit when
    the session stopped early; the pages received are an initial segment of
    the pages the service has, and all of them after a full run. *)
Theorem session_counters :
  forall (query : option string) (l : option Z) (sanity_check expect_one : bool) (o : O)
         (exit : Exit) (ts : GmailThreads) (s : State O),
    query_threads_with_paging query l sanity_check expect_one o = OK (exit, ts, s) ->
    requests_count (progress (ctx s))
    = Z.of_nat (List.length (filter truthy (listed (trace s)))) /\
    all_items_count (progress (ctx s))
    = Z.of_nat (List.length (flat_map page_ids (listed (trace s)))) /\
    processed_items (progress (ctx s))
    = Z.of_nat (List.length ts) + match exit with LimitReached => 1 | Exhausted => 0 end /\
    prefix_of (listed (trace s)) (pages (threads_list (list_kwargs query l))) /\
    (exit = Exhausted -> listed (trace s) = pages (threads_list (list_kwargs query l))).
Proof.
  intros query l sanity_check expect_one o exit ts s H.
  destruct (session_returned _ _ _ _ _ _ _ _ H) as (_ & Hpre & Hrq & Hit & Hex).
  split; [exact Hrq|]. split; [exact Hit|].
  destruct exit.
  - destruct Hex as (rest & HS). split; [apply (stop_processed HS)|].
    split; [exact Hpre | discriminate].
  - destruct Hex as (Hli & s'' & HR & ->). simpl. rewrite (run_processed HR).
    split; [lia|]. split; [exact Hpre | auto].
Qed.

(** X12: whenever a session with a limit other than 0 returns, it returns
    at most as many threads as the limit allows, and none at all when the
    limit is negative. *)
Theorem session_never_exceeds_limit :
  forall (query : option string) (L : Z) (sanity_check expect_one : bool) (o : O)
         (exit : Exit) (ts : GmailThreads) (s : State O),
    L <> 0 ->
    query_threads_with_paging query (Some L) sanity_check expect_one o = OK (exit, ts, s) ->
    Z.of_nat (List.length ts) <= Z.max 0 L /\
    Z.of_nat (List.length (fetched (trace s))) <= Z.max 0 L.
Proof.
  intros query L sanity_check expect_one o exit ts s HL H.
  destruct (session_returned _ _ _ _ _ _ _ _ H) as (_ & _ & _ & _ & Hex).
  assert (Hb : ts = [] \/ never_reached (Some L) (List.length ts) /\
               fetched (trace s) = map thread_id ts).
  { destruct exit.
    - destruct Hex as (rest & HS). destruct (stop_not_before HS) as [->|Hn]; [now left|].
      right. split; [exact Hn | apply (stop_fetched HS)].
    - destruct Hex as (_ & s'' & HR & ->). destruct (run_not_reached HR) as [->|Hn];
        [now left|]. right. split; [exact Hn | apply (run_fetched HR)]. }
  assert (Hfe : fetched (trace s) = map thread_id ts).
  { destruct exit.
    - destruct Hex as (rest & HS). apply (stop_fetched HS).
    - destruct Hex as (_ & s'' & HR & ->). apply (run_fetched HR). }
  rewrite Hfe, length_map.
  destruct Hb as [->|[[H0|Hle] _]]; simpl; lia.
Qed.

(** X13: a session without a limit, or with limit 0, never stops early:
    whenever it returns it has gone through every page and every
    candidate, has logged no warning and has cleared the decode errors. *)
Theorem session_without_limit_never_stops :
  forall (query : option string) (l : option Z) (sanity_check expect_one : bool) (o : O)
         (exit : Exit) (ts : GmailThreads) (s : State O),
    l = None \/ l = Some 0 ->
    query_threads_with_paging query l sanity_check expect_one o = OK (exit, ts, s) ->
    exit = Exhausted /\
    listed (trace s) = pages (threads_list (list_kwargs query l)) /\
    candidates (trace s) = map thread_id ts /\
    warnings (trace s) = [] /\
    decode_errors (ctx s) = [].
Proof.
  intros query l sanity_check expect_one o exit ts s Hl H.
  destruct (session_returned _ _ _ _ _ _ _ _ H) as (_ & _ & _ & _ & Hex).
  destruct exit.
  - exfalso. destruct Hex as (rest & HS).
    pose proof (stop_reached HS) as Hr. apply is_limit_reached_iff in Hr.
    destruct Hr as (L & HL & H0 & _). rewrite (stop_limit HS) in HL.
    destruct Hl as [->| ->]; [discriminate | injection HL as <-; now elim H0].
  - destruct Hex as (Hli & s'' & HR & ->). simpl.
    pose proof (run_candidates HR) as Hc. rewrite app_nil_r in Hc.
    split; [reflexivity|]. split; [exact Hli|]. split; [exact Hc|].
    split; [apply (run_warnings HR) | reflexivity].
Qed.

End ReturningSessionResults.

(** ** Sessions that fetch nothing *)

Section IdleSession.
Context {B : Builtins} {G : GmailService} {O : Type} {F : ApiFetchingContext O}.

(** The session returns as soon as every id that the limit lets through
    can be fetched. *)
Lemma while_request_returns (sanity_check expect_one : bool) (l : option Z) :
  (forall (o : O) (ids : list (option string)) (b : bool) (ts : GmailThreads),
     let ids' := fst (get_thread_ids_to_query_from_api o ids b) in
     Forall fetchable
            (firstn (allowance l (Z.of_nat (List.length ts)) (List.length ids')) ids')) ->
  forall (request : Request) (ts : GmailThreads) (s : State O),
    Running l [] ts s ->
    exists exit ts' s', while_request sanity_check expect_one request ts s = OK (exit, ts', s').
Proof.
  intros Hok.
  assert (Hpage : forall response ts s,
             Running l [] ts s ->
             exists r,
               (if truthy response
                then process_response sanity_check expect_one response ts
                                      (log (ThreadsListExecute response) s)
                else OK (Continue ts (log (ThreadsListExecute response) s))) = OK r /\
               match r with
               | Continue ts' s' => Running l [] ts' s'
               | Return _ _ => True
               end).
  { intros response ts s HR. destruct (truthy response) eqn:Ht.
    - destruct (register_response_running expect_one l response ts s HR Ht)
        as (HR1 & Hids & _).
      unfold process_response.
      destruct (register_response expect_one response (log (ThreadsListExecute response) s))
        as [ids s1].
      simpl in HR1, Hids. pose proof (Hok (api_fetching_ctx s) (page_ids response)
                                          expect_one ts) as Hf.
      simpl in Hf. rewrite <- Hids in Hf.
      destruct (for_thread_ids_spec sanity_check l ids ts s1 HR1 Hf)
        as (new & s' & _ & _ & _ & _ & [(_ & -> & HRn)|(_ & -> & _)]).
      + exists (Continue (ts ++ new) s'). split; [reflexivity | exact HRn].
      + exists (Return (ts ++ new) s'). split; [reflexivity | exact I].
    - eexists. split; [reflexivity|]. now apply skipped_response_running. }
  induction request as [response|response request' IH] using Request_induction;
    intros ts s HR; rewrite while_request_eq; unfold list_next, execute;
    cbv beta iota zeta; destruct (Hpage response ts s HR) as (r & -> & Hr);
    cbv beta iota zeta delta [bind]; destruct r as [ts1 s1|ts1 s1];
    [eauto | | eauto | ]; destruct (truthy (resp_nextPageToken response)); eauto.
Qed.

(** X14: with a negative limit the session returns, for every service and
    fetching context, without fetching a single thread: it returns the
    empty collection, at the first candidate if there is one and after the
    last page otherwise. *)
Theorem negative_limit_fetches_nothing :
  forall (query : option string) (L : Z) (sanity_check expect_one : bool) (o : O),
    L < 0 ->
    exists exit s,
      query_threads_with_paging query (Some L) sanity_check expect_one o
      = OK (exit, [], s) /\
      fetched (trace s) = [] /\
      (exit = LimitReached <-> candidates (trace s) <> []) /\
      (exit = LimitReached -> processed_items (progress (ctx s)) = 1) /\
      (exit = Exhausted -> processed_items (progress (ctx s)) = 0).
Proof.
  intros query L sanity_check expect_one o HL.
  assert (Hok : forall (o : O) (ids : list (option string)) (b : bool) (ts : GmailThreads),
             let ids' := fst (get_thread_ids_to_query_from_api o ids b) in
             Forall fetchable
                    (firstn (allowance (Some L) (Z.of_nat (List.length ts))
                                       (List.length ids')) ids')).
  { intros o' ids b ts ids'. unfold allowance.
    destruct (Z.eqb_spec L 0); [lia|].
    replace (Z.to_nat (L - Z.of_nat (List.length ts))) with 0%nat by lia.
    rewrite Nat.min_0_r. constructor. }
  unfold query_threads_with_paging.
  destruct (while_request_returns sanity_check expect_one (Some L) Hok
              (threads_list (list_kwargs query (Some L))) GmailThreads_new _
              (fresh_session_running (Some L) o)) as (exit & ts & s & E).
  pose proof (while_request_returned sanity_check expect_one (Some L) _ _ _ _ _ _
                (fresh_session_running (Some L) o) (Forall_nil _) E)
    as (_ & _ & _ & _ & Hex).
  assert (Hts : ts = []).
  { destruct exit.
    - destruct Hex as (rest & HS). destruct (stop_not_before HS) as [H|[H|H]];
        [exact H | lia | lia].
    - destruct Hex as (_ & s'' & HR & _). destruct (run_not_reached HR) as [H|[H|H]];
        [exact H | lia | lia]. }
  subst ts. exists exit, s. split; [exact E|].
  destruct exit.
  - destruct Hex as (rest & HS).
    rewrite (stop_fetched HS), (stop_candidates HS), (stop_processed HS). simpl.
    split; [reflexivity|]. split; [|split; [reflexivity | discriminate]].
    split; [intros _; apply (stop_rest HS) | reflexivity].
  - destruct Hex as (_ & s'' & HR & ->). simpl.
    rewrite (run_fetched HR), (run_candidates HR), (run_processed HR). simpl.
    split; [reflexivity|]. split; [|split; [discriminate | reflexivity]].
    split; [discriminate | intros H; now elim H].
Qed.

(** X15: when the fetching context asks for none of the candidates, the
    session returns for every service and every limit: it lists every page,
    counts the requests and the items, fetches no thread, counts no
    processed item and returns the empty collection after the last page. *)
Theorem nothing_to_query_lists_every_page :
  forall (query : option string) (l : option Z) (sanity_check expect_one : bool) (o : O),
    rejects_all ->
    exists s,
      query_threads_with_paging query l sanity_check expect_one o
      = OK (Exhausted, [], s) /\
      listed (trace s) = pages (threads_list (list_kwargs query l)) /\
      fetched (trace s) = [] /\
      processed_items (progress (ctx s)) = 0 /\
      requests_count (progress (ctx s))
      = Z.of_nat (List.length (filter truthy (pages (threads_list (list_kwargs query l))))) /\
      all_items_count (progress (ctx s))
      = Z.of_nat (List.length
                    (flat_map page_ids (pages (threads_list (list_kwargs query l))))).
Proof.
  intros query l sanity_check expect_one o Hrej.
  assert (Hok : forall (o : O) (ids : list (option string)) (b : bool) (ts : GmailThreads),
             let ids' := fst (get_thread_ids_to_query_from_api o ids b) in
             Forall fetchable
                    (firstn (allowance l (Z.of_nat (List.length ts)) (List.length ids'))
                            ids')).
  { intros o' ids b ts ids'. subst ids'. rewrite (Hrej o' ids b).
    rewrite firstn_nil. constructor. }
  unfold query_threads_with_paging.
  destruct (while_request_returns sanity_check expect_one l Hok
              (threads_list (list_kwargs query l)) GmailThreads_new _
              (fresh_session_running l o)) as (exit & ts & s & E).
  pose proof (while_request_returned sanity_check expect_one l _ _ _ _ _ _
                (fresh_session_running l o) (Forall_nil _) E)
    as (_ & _ & Hrq & Hit & Hex).
  assert (Hcand : candidates (trace s) = []).
  { clear Hex Hrq Hit. revert E. generalize (fresh_session_running l o).
    unfold GmailThreads_new.
    assert (C0 : candidates (trace (mkState (ApiConversionContext_new THREAD l) o [])) = [])
      by reflexivity.
    revert C0. generalize (mkState (ApiConversionContext_new THREAD l) o []).
    generalize (@nil Thread). revert exit ts s.
    induction (threads_list (list_kwargs query l)) as [response|response request' IH]
      using Request_induction;
      intros exit ts s ts0 s0 C0 HR E; rewrite while_request_eq in E;
      unfold list_next, execute in E; cbv beta iota zeta in E; inv_bind E;
      assert (Ha : match a with
                   | Continue ts1 s1 => candidates (trace s1) = [] /\ Running l [] ts1 s1
                   | Return _ s1 => candidates (trace s1) = []
                   end).
    1, 3: (destruct (truthy response) eqn:Ht;
           [ destruct (register_response_running expect_one l response ts0 s0 HR Ht)
               as (HR1 & Hids & _ & Hca);
             unfold process_response in E0;
             destruct (register_response expect_one response
                                         (log (ThreadsListExecute response) s0))
               as [ids s1];
             simpl in HR1, Hids, Hca; rewrite (Hrej _ _ _) in Hids; subst ids;
             simpl in E0; injection E0 as <-; rewrite Hca, C0; auto
           | injection E0 as <-; split;
             [ simpl; autorewrite with trace; now rewrite C0
             | now apply skipped_response_running ] ]).
    - destruct a as [ts1 s1|ts1 s1].
      + injection E as _ _ <-. exact Ha.
      + destruct (truthy (resp_nextPageToken response)); injection E as _ _ <-;
          exact (proj1 Ha).
    - destruct a as [ts1 s1|ts1 s1].
      + injection E as _ _ <-. exact Ha.
      + destruct Ha as [C1 HR1]. destruct (truthy (resp_nextPageToken response)).
        * exact (IH exit ts s ts1 s1 C1 HR1 E).
        * injection E as _ _ <-. exact C1. }
  destruct exit.
  - exfalso. destruct Hex as (rest & HS). rewrite (stop_candidates HS) in Hcand.
    apply app_eq_nil in Hcand. destruct Hcand as [_ Hr]. exact (stop_rest HS Hr).
  - destruct Hex as (Hli & s'' & HR & ->). simpl in *.
    rewrite (run_candidates HR), app_nil_r in Hcand.
    apply map_eq_nil in Hcand. subst ts.
    exists (finalized s''). simpl.
    rewrite (run_fetched HR), (run_processed HR), <- Hli. auto 10.
Qed.

End IdleSession.

(** ** The sanity check and the failures of a fetch *)

Section FetchResults.
Context {B : Builtins} {G : GmailService} {O : Type} {F : ApiFetchingContext O}.

Lemma fetch_thread_sanity_check (sc sc' : bool) (id : option string) (ts : GmailThreads)
    (s : State O) :
  fetch_thread sc id ts s = fetch_thread sc' id ts s.
Proof.
  unfold fetch_thread. destruct (_query_thread_data id (trace s)) as [thread_response tr].
  destruct (tr_messages thread_response); reflexivity.
Qed.

Lemma for_thread_ids_sanity_check (sc sc' : bool) (ids : list (option string)) :
  forall (ts : GmailThreads) (s : State O),
    for_thread_ids sc ids ts s = for_thread_ids sc' ids ts s.
Proof.
  induction ids as [|id rest IH]; intros ts s; simpl; [reflexivity|].
  destruct (is_limit_reached _); [reflexivity|].
  rewrite (fetch_thread_sanity_check sc sc').
  destruct (fetch_thread sc' id ts _) as [[ts' s']|e]; simpl; [apply IH | reflexivity].
Qed.

Lemma while_request_sanity_check (sc sc' expect_one : bool) (request : Request) :
  forall (ts : GmailThreads) (s : State O),
    while_request sc expect_one request ts s = while_request sc' expect_one request ts s.
Proof.
  induction request as [response|response request' IH] using Request_induction;
    intros ts s; rewrite !while_request_eq; unfold list_next, execute, process_response;
    cbv beta iota zeta;
    destruct (register_response expect_one response _) as [ids s1];
    rewrite (for_thread_ids_sanity_check sc sc');
    destruct (if truthy response then _ else _) as [[ts1 s1'|ts1 s1']|e]; simpl;
    try reflexivity;
    destruct (truthy (resp_nextPageToken response)); try reflexivity.
  apply IH.
Qed.

(** X16: the sanity check is a stub: a session run with it and a session
    run without it return the same threads, leave the same state and raise
    the same exception. *)
Theorem sanity_check_has_no_effect :
  forall (query : option string) (l : option Z) (sc sc' expect_one : bool) (o : O),
    query_threads_with_paging query l sc expect_one o
    = query_threads_with_paging query l sc' expect_one o.
Proof.
  intros query l sc sc' expect_one o. unfold query_threads_with_paging.
  apply while_request_sanity_check.
Qed.

(** X17: from a state whose buffer of empty bodies is empty, fetching a
    thread returns exactly when its detail holds at least one message and
    all its messages are well formed.  A detail without a list of messages
    raises TypeError, an empty list raises IndexError, and any other
    detail raises what parsing its first message that is not well formed
    raises; the deferred attachment fetch raises nothing. *)
Theorem fetch_thread_returns_iff_fetchable :
  forall (sanity_check : bool) (id : option string) (ts : GmailThreads) (s : State O),
    empty_bodies (ctx s) = [] ->
    match fetch_thread sanity_check id ts s with
    | OK _ => fetchable id
    | Raise e =>
        ~ fetchable id /\
        match tr_messages (threads_get USERID_ME id) with
        | None => e = TypeError
        | Some [] => e = IndexError
        | Some raws =>
            exists parsed raw rest c,
              raws = parsed ++ raw :: rest /\
              forallb wf_message parsed = true /\
              wf_message raw = false /\
              parse_api_message raw c = Raise e
        end
    end.
Proof.
  intros sanity_check id ts s Hempty.
  unfold fetchable, wf_thread_response, parsable_thread_response.
  unfold fetch_thread, _query_thread_data.
  destruct (tr_messages (threads_get USERID_ME id)) as [raws|];
    [|simpl; split; [discriminate | reflexivity]].
  pose proof (parse_api_messages_outcome raws (ctx s)) as Hparse.
  destruct (parse_api_messages raws (ctx s)) as [[ms c1]|e] eqn:Ems; simpl.
  - destruct (parse_api_messages_effect raws _ _ _ Ems) as (Hlen & He & _).
    assert (Hown : Forall has_owner (empty_bodies c1)).
    { rewrite He, Hempty. simpl. apply Forall_flat_map, Forall_forall.
      intros m _. apply empty_body_descriptors_owned. }
    destruct (handle_empty_bodies_owned c1 (trace s ++ [ThreadsGet USERID_ME id]) Hown)
      as (c2 & es & -> & _). simpl.
    destruct ms as [|first rest].
    + destruct raws; [|discriminate]. split; [discriminate | reflexivity].
    + rewrite Hparse. destruct raws; [discriminate | reflexivity].
  - destruct Hparse as (parsed & raw & rest & c' & -> & Hp & Hr & He).
    split.
    + rewrite forallb_app. simpl. rewrite Hr, andb_false_r. simpl. discriminate.
    + assert (Hex : exists parsed0 raw0 rest0 c0,
                 parsed ++ raw :: rest = parsed0 ++ raw0 :: rest0 /\
                 forallb wf_message parsed0 = true /\
                 wf_message raw0 = false /\
                 parse_api_message raw0 c0 = Raise e)
        by (exists parsed, raw, rest, c'; auto).
      destruct (parsed ++ raw :: rest) as [|x l] eqn:El;
        [now destruct parsed | exact Hex].
Qed.

End FetchResults.

(** ** The date of a message *)

Section DateResults.
Context {B : Builtins}.

(** X18: whenever a message is built from an internal date within 2^42
    milliseconds of the epoch, its date is the local date and time that
    the platform gives for the whole second, the integer quotient of the
    milliseconds by 1000, with a leap second clamped to 59; its
    microseconds are the remaining milliseconds times 1000, and its year
    lies between 1 and 9999. *)
Theorem date_is_exact_to_the_millisecond :
  forall (raw : RawMessage) (c c' : ApiConversionContext) (m : Message) (millis : Z),
    parse_api_message raw c = OK (m, c') ->
    int (raw_internalDate raw) = OK millis ->
    - 2 ^ 42 < millis < 2 ^ 42 ->
    exists tm,
      localtime (millis / 1000) = OK tm /\
      year (msg_date m) = tm_year tm /\
      month (msg_date m) = tm_mon tm /\
      day (msg_date m) = tm_mday tm /\
      hour (msg_date m) = tm_hour tm /\
      minute (msg_date m) = tm_min tm /\
      second (msg_date m) = Z.min 59 (tm_sec tm) /\
      microsecond (msg_date m) = millis mod 1000 * 1000 /\
      1 <= year (msg_date m) <= 9999.
Proof.
  intros raw c c' m millis Hparse Hint Hrange.
  rewrite parse_api_message_eq in Hparse.
  apply bind_OK in Hparse. destruct Hparse as (p & _ & Hparse).
  apply bind_OK in Hparse. destruct Hparse as (date & Hdate & Hparse).
  unfold Message_new in Hparse. injection Hparse as <- _. cbn [msg_date].
  rewrite (message_date_in_range raw millis Hint Hrange) in Hdate.
  unfold datetime_from_timet_and_us in Hdate.
  apply bind_OK in Hdate. destruct Hdate as (tm & Htm & Hdate).
  apply bind_OK in Hdate. destruct Hdate as (result_seconds & Hyear & Hdate).
  apply bind_OK in Hdate. destruct Hdate as (probe_seconds & _ & Hdate).
  apply bind_OK in Hdate. destruct Hdate as (f & _ & Hdate).
  injection Hdate as <-. cbn [year month day hour minute second microsecond].
  exists tm. repeat split; try assumption; try reflexivity;
    unfold utc_to_seconds, MINYEAR, MAXYEAR in Hyear;
    destruct (tm_year tm <? 1) eqn:Hlo; destruct (9999 <? tm_year tm) eqn:Hhi;
    try discriminate; try (apply Z.ltb_ge in Hlo); try (apply Z.ltb_ge in Hhi); lia.
Qed.

End DateResults.

(** * The further properties on concrete inputs *)

Lemma limit_reached_is_stable_witness :
  is_limit_reached (Nat.iter 5 incr_processed_items
                      (Nat.iter 3 incr_processed_items (Progress_new THREAD (Some 2))))
  = true.
Proof.
  exact (proj1 (limit_reached_is_stable
                  (Nat.iter 3 incr_processed_items (Progress_new THREAD (Some 2)))
                  5 7 eq_refl)).
Defined.

Lemma report_before_register_breaks_drain_witness :
  handle_empty_bodies _query_attachment_of_descriptor
    (report_empty_body (mkMessagePartBody None (Some 0) None)
                       (ApiConversionContext_new THREAD None)) []
  = Raise AttributeError.
Proof.
  exact (proj2 (report_before_register_breaks_drain
                  (ApiConversionContext_new THREAD None)
                  (mkMessagePartBody None (Some 0) None) []
                  (or_introl eq_refl))).
Defined.

Lemma session_returns_what_it_fetched_witness :
  exists exit ts s,
    Scenario.run (Some 2) = OK (exit, ts, s) /\
    fetched (trace s) = map thread_id ts /\
    prefix_of (fetched (trace s)) (candidates (trace s)) /\
    Forall assembled ts.
Proof.
  destruct (@session_spec Scenario.builtins Scenario.service nat Scenario.fetch_all
              None (Some 2) true false 0%nat example_fetchable)
    as (exit & ts & s & unseen & E & _).
  - exists exit, ts, s. split; [exact E|].
    destruct (@session_returns_what_it_fetched Scenario.builtins Scenario.service nat
                Scenario.fetch_all None (Some 2) true false 0%nat exit ts s E)
      as (H1 & H2 & _ & H4 & _).
    auto.
Defined.

Lemma session_counters_witness :
  exists exit ts s,
    Scenario.run (Some 4) = OK (exit, ts, s) /\
    requests_count (progress (ctx s))
    = Z.of_nat (List.length (filter truthy (listed (trace s)))) /\
    processed_items (progress (ctx s))
    = Z.of_nat (List.length ts) + match exit with LimitReached => 1 | Exhausted => 0 end.
Proof.
  destruct (@session_spec Scenario.builtins Scenario.service nat Scenario.fetch_all
              None (Some 4) true false 0%nat example_fetchable)
    as (exit & ts & s & unseen & E & _).
  - exists exit, ts, s. split; [exact E|].
    destruct (@session_counters Scenario.builtins Scenario.service nat
                Scenario.fetch_all None (Some 4) true false 0%nat exit ts s E)
      as (H1 & _ & H3 & _).
    auto.
Defined.

Lemma session_never_exceeds_limit_witness :
  exists exit ts s,
    Scenario.run (Some 4) = OK (exit, ts, s) /\
    Z.of_nat (List.length ts) <= 4.
Proof.
  destruct (@session_spec Scenario.builtins Scenario.service nat Scenario.fetch_all
              None (Some 4) true false 0%nat example_fetchable)
    as (exit & ts & s & unseen & E & _).
  - exists exit, ts, s. split; [exact E|].
    destruct (@session_never_exceeds_limit Scenario.builtins Scenario.service nat
                Scenario.fetch_all None 4 true false 0%nat exit ts s) as [H _].
    + discriminate.
    + exact E.
    + exact H.
Defined.

Lemma session_without_limit_never_stops_witness :
  exists ts s,
    Scenario.run (Some 0) = OK (Exhausted, ts, s) /\
    warnings (trace s) = [] /\
    decode_errors (ctx s) = [].
Proof.
  destruct (@session_spec Scenario.builtins Scenario.service nat Scenario.fetch_all
              None (Some 0) true false 0%nat example_fetchable)
    as (exit & ts & s & unseen & E & _).
  - destruct (@session_without_limit_never_stops Scenario.builtins Scenario.service nat
                Scenario.fetch_all None (Some 0) true false 0%nat exit ts s
                (or_intror eq_refl) E)
      as (-> & _ & _ & H4 & H5).
    exists ts, s. auto.
Defined.

Lemma negative_limit_fetches_nothing_witness :
  exists exit s,
    @query_threads_with_paging Scenario.builtins Cases.broken_service nat
                               Scenario.fetch_all None (Some (-1)) true false 0%nat
    = OK (exit, [], s) /\
    fetched (trace s) = [].
Proof.
  destruct (@negative_limit_fetches_nothing Scenario.builtins Cases.broken_service nat
              Scenario.fetch_all None (-1) true false 0%nat)
    as (exit & s & E & Hf & _).
  - lia.
  - exists exit, s. auto.
Defined.

Lemma cases_rejects_all : @rejects_all nat Cases.fetch_none.
Proof. intros o ids b. reflexivity. Qed.

Lemma nothing_to_query_lists_every_page_witness :
  exists s,
    @query_threads_with_paging Scenario.builtins Cases.broken_service nat
                               Cases.fetch_none None (Some 1) true false 0%nat
    = OK (Exhausted, [], s) /\
    listed (trace s) = [Scenario.first_page; Scenario.last_page] /\
    requests_count (progress (ctx s)) = 2 /\
    all_items_count (progress (ctx s)) = 5.
Proof.
  destruct (@nothing_to_query_lists_every_page Scenario.builtins Cases.broken_service nat
              Cases.fetch_none None (Some 1) true false 0%nat cases_rejects_all)
    as (s & E & Hl & _ & _ & Hr & Hi).
  exists s. split; [exact E|]. split; [exact Hl|]. split; [exact Hr | exact Hi].
Defined.

Lemma fetch_thread_returns_iff_fetchable_witness :
  (exists r,
     @fetch_thread Scenario.builtins Scenario.service nat Scenario.fetch_all
                   true (Some "t1") [] Scenario.fresh = OK r) /\
  @fetch_thread Scenario.builtins Cases.broken_service nat Scenario.fetch_all
                true (Some "t1") [] Scenario.fresh = Raise TypeError.
Proof.
  split.
  - pose proof (@fetch_thread_returns_iff_fetchable Scenario.builtins Scenario.service nat
                  Scenario.fetch_all true (Some "t1") [] Scenario.fresh eq_refl) as H.
    destruct (@fetch_thread Scenario.builtins Scenario.service nat Scenario.fetch_all
                            true (Some "t1") [] Scenario.fresh) as [r|e] eqn:E.
    + eauto.
    + vm_compute in E. discriminate E.
  - reflexivity.
Defined.

Lemma date_is_exact_to_the_millisecond_witness :
  exists m c',
    @parse_api_message Scenario.builtins (Scenario.raw_message "m1" "t1")
                       (ApiConversionContext_new THREAD None) = OK (m, c') /\
    year (msg_date m) = 2021 /\
    second (msg_date m) = 20 /\
    microsecond (msg_date m) = 123000.
Proof.
  destruct (@parse_api_message Scenario.builtins (Scenario.raw_message "m1" "t1")
              (ApiConversionContext_new THREAD None)) as [[m c']|e] eqn:E;
    [|vm_compute in E; discriminate E].
  destruct (@date_is_exact_to_the_millisecond Scenario.builtins
              (Scenario.raw_message "m1" "t1") (ApiConversionContext_new THREAD None)
              c' m 1610000000123 E eq_refl (conj eq_refl eq_refl))
    as (tm & Htm & Hy & _ & _ & _ & _ & Hs & Hus & _).
  vm_compute in Htm. injection Htm as <-.
  exists m, c'. split; [reflexivity|]. split; [exact Hy|]. split; [exact Hs | exact Hus].
Defined.
